(** * find_heavy_dirs: a shallow embedding of cmd/find_heavy_dirs.go

    The development follows the program: the path helpers of the Go
    standard library it calls (Unix flavour, separator "/"), the root
    normaliser [removeSubdirectories], the traversal recorder
    [scanDirectory] over a model of the directory tree that
    [filepath.WalkDir] walks, the bottom-up aggregator [aggregateStats],
    and the result selection of [main] and [printTable]. *)

From Stdlib Require Import ZArith Lia Ascii Sorting.Permutation.
From stdpp Require Import gmap strings list fin_maps sorting.

Local Open Scope Z_scope.

Set Warnings "-register-all".

(* ===================================================================== *)
(** * Package strings                                                     *)
(* ===================================================================== *)

Module gostrings.

(** os.PathSeparator *)
Definition PathSeparator : ascii := "/"%char.

Definition is_sep (c : ascii) : bool := bool_decide (c = PathSeparator).

(** string(os.PathSeparator) *)
Definition Sep : string := String PathSeparator EmptyString.

(** strings.Count(s, string(os.PathSeparator)): the separator is one byte,
    so its non-overlapping occurrences are the occurrences of that byte. *)
Fixpoint Count (s : string) : nat :=
  match s with
  | EmptyString => 0%nat
  | String c r => ((if is_sep c then 1 else 0) + Count r)%nat
  end.

(** strings.HasPrefix(s, prefix) *)
Definition HasPrefix (s pre : string) : bool := String.prefix pre s.

(** strings.Split(s, "/"): never the empty list *)
Fixpoint split_sep (s : string) : list string :=
  match s with
  | EmptyString => [EmptyString]
  | String c r =>
      if is_sep c then EmptyString :: split_sep r
      else match split_sep r with
           | x :: xs => String c x :: xs
           | [] => [String c EmptyString]
           end
  end.

(** strings.Join(elems, "/") *)
Definition join_sep (elems : list string) : string := String.concat Sep elems.

End gostrings.

(* ===================================================================== *)
(** * Package path/filepath on Unix                                       *)
(* ===================================================================== *)

Module filepath.
Import gostrings.

(** filepath.IsAbs *)
Definition IsAbs (p : string) : bool := HasPrefix p Sep.

(** filepath.VolumeName is the empty string on Unix *)
Definition VolumeName (p : string) : string := EmptyString.

(** One path element met by filepath.Clean.  [stk] is the output so far,
    innermost element first.  Empty elements and "." are dropped; ".."
    removes the element before it, is dropped at the root of a rooted path,
    and is kept at the start of a relative one. *)
Definition clean_step (rooted : bool) (stk : list string) (c : string)
  : list string :=
  if bool_decide (c = EmptyString) then stk
  else if bool_decide (c = ".") then stk
  else if bool_decide (c = "..") then
    match stk with
    | [] => if rooted then [] else [c]
    | top :: below => if bool_decide (top = "..") then c :: stk else below
    end
  else c :: stk.

Definition clean_elems (rooted : bool) (elems : list string) : list string :=
  rev (foldl (clean_step rooted) [] elems).

(** filepath.Clean: the shortest equivalent path by lexical processing.
    The result ends in a separator only when it is the root, and the empty
    result is ".". *)
Definition Clean (p : string) : string :=
  let rooted := IsAbs p in
  let body := join_sep (clean_elems rooted (split_sep p)) in
  if rooted then Sep +:+ body
  else if bool_decide (body = EmptyString) then "." else body.

(** p[:i+1] where i is the index of the last separator of p (-1 if none) *)
Fixpoint dir_prefix (p : string) : string :=
  match p with
  | EmptyString => EmptyString
  | String c r =>
      if (0 <? Count r)%nat then String c (dir_prefix r)
      else if is_sep c then Sep else EmptyString
  end.

(** filepath.Dir *)
Definition Dir (p : string) : string :=
  VolumeName p +:+ Clean (dir_prefix p).

(** filepath.Join(a, b): empty elements are ignored, the rest is joined
    with the separator and cleaned. *)
Definition Join (a b : string) : string :=
  if bool_decide (a = EmptyString) then
    (if bool_decide (b = EmptyString) then EmptyString else Clean b)
  else Clean (a +:+ Sep +:+ b).

(** filepath.Abs.  [cwd] is the result of os.Getwd, [None] when it fails. *)
Definition Abs (cwd : option string) (p : string) : option string :=
  if IsAbs p then Some (Clean p)
  else match cwd with
       | Some wd => Some (Join wd p)
       | None => None
       end.

(** ** The directory tree seen by filepath.WalkDir

    An entry that is not a directory (regular file, symbolic link, device)
    carries the result of d.Info(): its size, or [None] when Info fails.
    A directory carries what os.ReadDir returns for it: the entries read,
    in the order returned, and whether an error came with them. *)
Inductive entry : Type :=
| File (name : string) (info : option Z)
| Directory (name : string) (readErr : bool) (entries : list entry).

Definition Name (d : entry) : string :=
  match d with File n _ => n | Directory n _ _ => n end.

Definition IsDir (d : entry) : bool :=
  match d with File _ _ => false | Directory _ _ _ => true end.

(** os.Lstat(path) against the tree [fs] of the root directory "/":
    [None] when the path does not resolve. *)
Fixpoint resolve (comps : list string) (d : entry) : option entry :=
  match comps with
  | [] => Some d
  | c :: rest =>
      match d with
      | File _ _ => None
      | Directory _ _ es =>
          match find (fun e => bool_decide (Name e = c)) es with
          | Some e => resolve rest e
          | None => None
          end
      end
  end.

Definition Lstat (fs : entry) (path : string) : option entry :=
  resolve (clean_elems true (split_sep path)) fs.

(** The errors a WalkDirFunc may return; nil is [None]. *)
Inductive walk_error : Type := SkipDir | SkipAll | OtherError.

(** How WalkDir calls its function: with the entry and a nil error, or
    with an error and the entry it had (none when Lstat of the root
    failed). *)
Inductive visit : Type :=
| Visit (d : entry)
| VisitErr (d : option entry).

Definition skipdir_to_nil (isdir : bool) (e : walk_error) : option walk_error :=
  match e with
  | SkipDir => if isdir then None else Some SkipDir
  | _ => Some e
  end.

Section WalkDir.
Context {S : Type}.
Variable fn : string -> visit -> S -> S * option walk_error.

(** filepath.walkDir *)
Fixpoint walkDir (path : string) (d : entry) (st : S) {struct d}
  : S * option walk_error :=
  match fn path (Visit d) st with
  | (st1, Some e) => (st1, skipdir_to_nil (IsDir d) e)
  | (st1, None) =>
      match d with
      | File _ _ => (st1, None)
      | Directory _ readErr dirs =>
          let '(st2, err) :=
            if readErr then fn path (VisitErr (Some d)) st1
            else (st1, None) in
          match err with
          | Some e => (st2, skipdir_to_nil true e)
          | None =>
              (fix walkEntries (ds : list entry) (st : S) {struct ds}
                 : S * option walk_error :=
                 match ds with
                 | [] => (st, None)
                 | d1 :: rest =>
                     match walkDir (Join path (Name d1)) d1 st with
                     | (st', None) => walkEntries rest st'
                     | (st', Some SkipDir) => (st', None)
                     | (st', Some e) => (st', Some e)
                     end
                 end) dirs st2
          end
      end
  end.

(** The loop over the entries of a directory, as its own function. *)
Fixpoint walkEntries (path : string) (ds : list entry) (st : S)
  : S * option walk_error :=
  match ds with
  | [] => (st, None)
  | d1 :: rest =>
      match walkDir (Join path (Name d1)) d1 st with
      | (st', None) => walkEntries path rest st'
      | (st', Some SkipDir) => (st', None)
      | (st', Some e) => (st', Some e)
      end
  end.

(** filepath.WalkDir *)
Definition WalkDir (fs : entry) (root : string) (st : S)
  : S * option walk_error :=
  let '(st', err) :=
    match Lstat fs root with
    | None => fn root (VisitErr None) st
    | Some d => walkDir root d st
    end in
  match err with
  | Some SkipDir | Some SkipAll => (st', None)
  | _ => (st', err)
  end.
End WalkDir.

End filepath.

(* ===================================================================== *)
(** * Package sort                                                        *)
(* ===================================================================== *)

Module gosort.

(** sort.Strings: increasing byte-wise order.  Equal strings are the same
    string, so the sorted result does not depend on the algorithm; it is
    computed here by insertion. *)
Fixpoint insert_string (x : string) (l : list string) : list string :=
  match l with
  | [] => [x]
  | y :: l' => if String.leb x y then x :: l else y :: insert_string x l'
  end.

Definition Strings (l : list string) : list string :=
  foldr insert_string [] l.

(** sort.Slice(s, less) is not stable.  With less(i, j) := key s[i] > key s[j]
    it leaves s holding the same elements with no element of a larger key
    after one of a smaller key; the order among equal keys is unspecified. *)
Fixpoint sorted_desc {A} (key : A -> Z) (l : list A) : bool :=
  match l with
  | [] => true
  | x :: l' => forallb (fun y => key y <=? key x) l' && sorted_desc key l'
  end.

Definition Slice_desc {A} (key : A -> Z) (input output : list A) : Prop :=
  Permutation input output /\ sorted_desc key output = true.

(** One run of sort.Slice: the insertion sort that Go runs on a slice of at
    most 12 elements, which keeps elements of equal keys in the order they
    had. *)
Fixpoint insert_desc {A} (key : A -> Z) (x : A) (l : list A) : list A :=
  match l with
  | [] => [x]
  | y :: l' => if key x <? key y then y :: insert_desc key x l' else x :: l
  end.

Definition sort_desc {A} (key : A -> Z) (l : list A) : list A :=
  foldr (insert_desc key) [] l.

End gosort.

(* ===================================================================== *)
(** * The program                                                         *)
(* ===================================================================== *)

Import gostrings filepath.

(** int64 arithmetic wraps around. *)
Definition wrap64 (z : Z) : Z := (z + 2 ^ 63) mod 2 ^ 64 - 2 ^ 63.

Definition in_int64 (z : Z) : Prop := - 2 ^ 63 <= z < 2 ^ 63.

(** len(s) and strings.Count as Go ints *)
Definition len (s : string) : Z := Z.of_nat (String.length s).
Definition depth_of (s : string) : Z := Z.of_nat (Count s).

(** ** Data structures *)

Record DirStat : Type := mkDirStat {
  Path : string;
  TotalSize : Z;
  FileCount : Z;
  Depth : Z
}.

#[global] Instance DirStat_eq_dec : EqDecision DirStat.
Proof. solve_decision. Defined.

(** The package-level variables that the core reads: excludeMap, maxDepth,
    topN and verbose, and the working directory of the process (what
    os.Getwd gives to filepath.Abs). *)
Record config : Type := mkConfig {
  excludeMap : gmap string bool;
  maxDepth : Z;
  topN : Z;
  verbose : bool;
  cwd : option string
}.

(** excludePaths and the excludeMap that main builds from it *)
Definition excludePaths : list string := ["/proc"; "/dev"; "/sys"; "/run"].

Definition make_excludeMap (paths : list string) : gmap string bool :=
  foldl (fun m p => <[p := true]> m) ∅ paths.

Definition default_config : config :=
  mkConfig (make_excludeMap excludePaths) 1000000 20 false (Some "/").

(** What the program prints besides the two tables. *)
Inductive diagnostic : Type :=
| WarnAccess (path : string)
| ErrorResolving (path : string)
| ErrorWalking (path : string).

(** ** removeSubdirectories *)

(** The test made on a candidate [p] against the last accepted path. *)
Definition covered_by (last p : string) : bool :=
  if bool_decide (p = last) then true
  else if HasPrefix p (last +:+ Sep) then true
  else if bool_decide (last = VolumeName last +:+ Sep) && HasPrefix p last
       then true
  else false.

(** The sweep over the sorted absolute paths; [clean] is the accepted list. *)
Fixpoint sweep (clean : list string) (absPaths : list string) : list string :=
  match absPaths with
  | [] => clean
  | p :: rest =>
      match last clean with
      | None => sweep (clean ++ [p]) rest
      | Some l =>
          if covered_by l p then sweep clean rest
          else sweep (clean ++ [p]) rest
      end
  end.

(** The conversion loop: a path that filepath.Abs cannot resolve is
    dropped. *)
Definition absolute_paths (cwd : option string) (paths : list string)
  : list string :=
  omap (Abs cwd) paths.

Definition removeSubdirectories (cwd : option string) (paths : list string)
  : list string :=
  match paths with
  | [] => paths
  | _ => sweep [] (gosort.Strings (absolute_paths cwd paths))
  end.

(** ** scanDirectory *)

(** getDirStat: fetch or create the entry of a directory *)
Definition getDirStat (path : string) (dirStats : gmap string DirStat)
  : gmap string DirStat :=
  match dirStats !! path with
  | Some _ => dirStats
  | None => <[path := mkDirStat path 0 0 0]> dirStats
  end.

(** s := getDirStat(dirPath); s.TotalSize += size; s.FileCount++ *)
Definition record_file (dirPath : string) (size : Z)
    (dirStats : gmap string DirStat) : gmap string DirStat :=
  let m := getDirStat dirPath dirStats in
  match m !! dirPath with
  | Some s =>
      <[dirPath := mkDirStat (Path s) (wrap64 (TotalSize s + size))
                     (wrap64 (FileCount s + 1)) (Depth s)]> m
  | None => m
  end.

(** The state the walk function of scanDirectory works on: the shared
    dirStats map, the local counter (a Go int, 64 bits wide), and the
    lines printed. *)
Record scan_state : Type := mkScan {
  dirStats : gmap string DirStat;
  count : Z;
  printed : list diagnostic
}.

(** The function literal passed to filepath.WalkDir *)
Definition scan_fn (cfg : config) (rootDepth : Z)
    (path : string) (v : visit) (st : scan_state)
  : scan_state * option walk_error :=
  match v with
  | VisitErr _ =>
      (if verbose cfg
       then mkScan (dirStats st) (count st) (printed st ++ [WarnAccess path])
       else st, None)
  | Visit d =>
      if IsDir d && default false (excludeMap cfg !! path) then
        (st, Some SkipDir)
      else
        let currentDepth := depth_of path - rootDepth in
        if negb (maxDepth cfg =? -1) && (maxDepth cfg <? currentDepth) then
          (st, if IsDir d then Some SkipDir else None)
        else
          match d with
          | File _ (Some size) =>
              (mkScan (record_file (Dir path) size (dirStats st))
                      (wrap64 (count st + 1)) (printed st), None)
          | File _ None => (st, None)
          | Directory _ _ _ =>
              (mkScan (getDirStat path (dirStats st)) (count st) (printed st),
               None)
          end
  end.

(** scanDirectory(root): the new map, the lines printed, and the count *)
Definition scanDirectory (cfg : config) (fs : entry) (root : string)
    (m : gmap string DirStat) (out : list diagnostic)
  : gmap string DirStat * list diagnostic * Z :=
  let rootDepth := depth_of root in
  let '(st, err) := WalkDir (scan_fn cfg rootDepth) fs root (mkScan m 0 out) in
  let out' := match err with
              | Some _ => printed st ++ [ErrorWalking root]
              | None => printed st
              end in
  (dirStats st, out', count st).

(** The scan loop of main over targetPaths *)
Definition scan_step (cfg : config) (fs : entry)
    (acc : gmap string DirStat * list diagnostic * Z) (root : string)
  : gmap string DirStat * list diagnostic * Z :=
  let '(m, out, totalFiles) := acc in
  match Abs (cwd cfg) root with
  | None => (m, out ++ [ErrorResolving root], totalFiles)
  | Some absRoot =>
      let '(m', out', n) := scanDirectory cfg fs absRoot m out in
      (m', out', wrap64 (totalFiles + n))
  end.

Definition scan_roots (cfg : config) (fs : entry) (targetPaths : list string)
  : gmap string DirStat * list diagnostic * Z :=
  foldl (scan_step cfg fs) (∅, [], 0) targetPaths.

(** ** aggregateStats *)

(** One turn of the accumulation loop.  [None] is the nil dereference of
    dirStats[p] for a [p] that is not a key. *)
Definition bubble (m : gmap string DirStat) (p : string)
  : option (gmap string DirStat) :=
  let parent := Dir p in
  if bool_decide (parent = p) then Some m
  else match m !! parent with
       | Some parentStat =>
           match m !! p with
           | Some childStat =>
               Some (<[parent :=
                        mkDirStat (Path parentStat)
                          (wrap64 (TotalSize parentStat + TotalSize childStat))
                          (wrap64 (FileCount parentStat + FileCount childStat))
                          (Depth parentStat)]> m)
           | None => None
           end
       | None => Some m
       end.

Fixpoint bubble_up (paths : list string) (m : gmap string DirStat)
  : option (gmap string DirStat) :=
  match paths with
  | [] => Some m
  | p :: rest => m' ← bubble m p; bubble_up rest m'
  end.

(** The keys of the map in the order a [range] over it yields them: any
    order. *)
Definition range_keys (m : gmap string DirStat) (paths : list string) : Prop :=
  Permutation (map_to_list m).*1 paths.

(** The slice [paths] after sort.Slice with the comparison
    len(paths[i]) > len(paths[j]) *)
Definition aggregate_order (m : gmap string DirStat) (paths : list string)
  : Prop :=
  exists keys, range_keys m keys /\ gosort.Slice_desc len keys paths.

(** aggregateStats, for the order [paths] its sort produced *)
Definition aggregateStats_with (paths : list string)
    (m : gmap string DirStat) : option (gmap string DirStat) :=
  bubble_up paths m.

(** One run of aggregateStats *)
Definition aggregateStats (m : gmap string DirStat)
  : option (gmap string DirStat) :=
  aggregateStats_with (gosort.sort_desc len (map_to_list m).*1) m.

(** ** Result selection *)

(** isUnderTargets *)
Definition isUnderTargets (cwd : option string) (targetPaths : list string)
    (path : string) : bool :=
  existsb (fun root => HasPrefix path (default EmptyString (Abs cwd root)))
    targetPaths.

(** The filter loop of main over the values of dirStats, taken in the
    order [values]. *)
Definition select_stats (cwd : option string) (targetPaths : list string)
    (values : list DirStat) : list DirStat :=
  filter (fun s => isUnderTargets cwd targetPaths (Path s) = true) values.

(** printTable: the rows printed, list[0] .. list[limit-1].  The rendering
    of a row (byte units, path shortening) is left out.  [None] is an index
    out of range. *)
Definition printTable (topN : Z) (l : list DirStat) : option (list DirStat) :=
  let limit :=
    if Z.of_nat (length l) <? topN then Z.of_nat (length l) else topN in
  mapM (fun i => l !! Z.to_nat i) (seqZ 0 limit).

(** One run of main, from the parsed arguments on: the rows of the table
    by size and of the table by file count.  The two range loops take the
    map in the order of [map_to_list], and sort.Slice is the insertion
    sort. *)
Definition main (cfg : config) (fs : entry) (paths : list string)
  : option (list DirStat * list DirStat) :=
  let targetPaths := removeSubdirectories (cwd cfg) paths in
  let '(m, _, _) := scan_roots cfg fs targetPaths in
  m' ← aggregateStats m;
  let statsList := select_stats (cwd cfg) targetPaths (map_to_list m').*2 in
  let bySize := gosort.sort_desc TotalSize statsList in
  rows1 ← printTable (topN cfg) bySize;
  let byCount := gosort.sort_desc FileCount bySize in
  rows2 ← printTable (topN cfg) byCount;
  Some (rows1, rows2).

(* ===================================================================== *)
(** * Vocabulary of the statements                                        *)
(* ===================================================================== *)

(** A name as os.ReadDir returns it: not empty, not "." or "..", and
    without separator. *)
Definition valid_name (c : string) : Prop :=
  c <> EmptyString /\ c <> "." /\ c <> ".." /\ Count c = 0%nat.

(** The absolute path with the elements [comps] *)
Definition abs_of (comps : list string) : string := Sep +:+ join_sep comps.

(** A clean absolute path, as filepath.Abs returns it *)
Definition clean_abs (p : string) : Prop :=
  exists comps, Forall valid_name comps /\ p = abs_of comps.

Definition is_clean_abs (p : string) : bool :=
  IsAbs p && bool_decide (Clean p = p).

#[global] Instance valid_name_dec c : Decision (valid_name c).
Proof. unfold valid_name. apply _. Defined.

(** The names in a tree are names as os.ReadDir returns them. *)
Fixpoint valid_tree (d : entry) : bool :=
  match d with
  | File _ _ => true
  | Directory _ _ es =>
      forallb (fun e => bool_decide (valid_name (Name e)) && valid_tree e) es
  end.

(** [p] is folded into its parent by aggregateStats: the parent differs
    from [p] and is in the collection. *)
Definition contributes (m : gmap string DirStat) (p : string) : Prop :=
  Dir p <> p /\ is_Some (m !! Dir p).

(** [q] is [d] or lies in the recorded subtree of [d]: climbing from [q]
    through parents that are in the collection reaches [d].  A path has
    fewer ancestors than bytes, which bounds the climb. *)
Fixpoint reaches (m : gmap string DirStat) (fuel : nat) (d q : string) : bool :=
  bool_decide (q = d) ||
  match fuel with
  | O => false
  | S fuel' =>
      negb (bool_decide (Dir q = q)) && bool_decide (is_Some (m !! Dir q))
      && reaches m fuel' d (Dir q)
  end.

Definition in_subtree (m : gmap string DirStat) (d q : string) : bool :=
  reaches m (String.length q) d q.

Definition sumZ_if {A} (b : A -> bool) (f : A -> Z) (l : list A) : Z :=
  foldr (fun x acc => (if b x then f x else 0) + acc) 0 l.

(** The sum of a direct statistic [f] over [d] and its recorded subtree *)
Definition subtree_sum (f : DirStat -> Z) (m : gmap string DirStat)
    (d : string) : Z :=
  sumZ_if (fun kv => in_subtree m d kv.1) (fun kv => f kv.2) (map_to_list m).

(** A collection as the traversal leaves it: keys are clean absolute paths
    and the counters are int64 values. *)
Definition stats_wf (m : gmap string DirStat) : Prop :=
  forall p s, m !! p = Some s ->
    clean_abs p /\ in_int64 (TotalSize s) /\ in_int64 (FileCount s).

(** While the accumulation loop runs, [feeds m done d q] says that what was
    recorded for [q] has been added into [d]: climbing from [q] to [d]
    passes only through directories already processed. *)
Inductive feeds (m : gmap string DirStat) (done : list string) (d : string)
  : string -> Prop :=
| feeds_refl : feeds m done d d
| feeds_step q :
    q ∈ done -> contributes m q -> feeds m done d (Dir q) -> feeds m done d q.

(** The parent of [c] was not folded before [c]. *)
Definition parent_pending (m : gmap string DirStat) (done : list string)
    (c : string) : Prop :=
  ~ (Dir c ∈ done /\ contributes m (Dir c)).

(** The map [m] has the keys of [m0], and Path and Depth of every entry. *)
Definition shape (m0 m : gmap string DirStat) : Prop :=
  forall d, match m !! d, m0 !! d with
            | Some s, Some s0 => Path s = Path s0 /\ Depth s = Depth s0
            | None, None => True
            | _, _ => False
            end.

(** The counter [f] of every entry of [m] holds what [feeds] says was
    added to it from the collection [m0]. *)
Definition fed (m0 : gmap string DirStat) (f : DirStat -> Z)
    (done : list string) (m : gmap string DirStat) : Prop :=
  forall d s, m !! d = Some s ->
    exists ind : string * DirStat -> bool,
      (forall kv, kv ∈ map_to_list m0 ->
         ind kv = true <-> feeds m0 done d kv.1) /\
      f s = wrap64 (sumZ_if ind (fun kv => f kv.2) (map_to_list m0)).

(** Every directory that is folded into a parent which is itself folded
    further is processed before that parent. *)
Definition parent_after (m : gmap string DirStat) (paths : list string) : Prop :=
  forall l1 c l2, paths = l1 ++ c :: l2 ->
    contributes m c -> contributes m (Dir c) -> Dir c ∉ l1.

(** The order of the specification: by descending number of separators *)
Definition depth_order (m : gmap string DirStat) (paths : list string) : Prop :=
  exists keys, range_keys m keys /\ gosort.Slice_desc depth_of keys paths.

(** What the walk of scanDirectory leaves in the state, as a function of
    the tree: the walk function never returns an error other than SkipDir
    on a directory, so the walk visits the tree in order and never stops
    early. *)
Fixpoint record (cfg : config) (rootDepth : Z) (path : string) (d : entry)
    (st : scan_state) {struct d} : scan_state :=
  match d with
  | File _ _ => (scan_fn cfg rootDepth path (Visit d) st).1
  | Directory _ readErr es =>
      match scan_fn cfg rootDepth path (Visit d) st with
      | (st1, Some _) => st1
      | (st1, None) =>
          let st2 :=
            if readErr
            then (scan_fn cfg rootDepth path (VisitErr (Some d)) st1).1
            else st1 in
          foldl (fun st e => record cfg rootDepth (Join path (Name e)) e st)
            st2 es
      end
  end.

(** The tree without the directories whose path is on the exclusion list *)
Definition excluded (cfg : config) (path : string) : bool :=
  default false (excludeMap cfg !! path).

Fixpoint prune (cfg : config) (path : string) (d : entry) : entry :=
  match d with
  | File _ _ => d
  | Directory n readErr es =>
      Directory n readErr
        (flat_map
           (fun e =>
              if IsDir e && excluded cfg (Join path (Name e)) then []
              else [prune cfg (Join path (Name e)) e])
           es)
  end.

(** [p] is [root] or below it, as removeSubdirectories tests it *)
Definition path_under (root p : string) : bool :=
  bool_decide (p = root) || HasPrefix p (root +:+ Sep)
  || (bool_decide (root = Sep) && HasPrefix p root).

(** The two tests of the walk function, on a path at [rootDepth]. *)
Definition too_deep (cfg : config) (rootDepth : Z) (path : string) : bool :=
  negb (maxDepth cfg =? -1) && (maxDepth cfg <? depth_of path - rootDepth).

Definition warn_access (cfg : config) (path : string) (st : scan_state)
  : scan_state :=
  if verbose cfg
  then mkScan (dirStats st) (count st) (printed st ++ [WarnAccess path])
  else st.

(** os.Getwd returns a rooted path. *)
Definition getwd_rooted (cwd : option string) : Prop :=
  forall wd, cwd = Some wd -> IsAbs wd = true.

Definition cwd_rooted (cfg : config) : Prop := getwd_rooted (cwd cfg).

(** The paths that the sweep of removeSubdirectories appends when the last
    accepted path is [lst] *)
Fixpoint sweep_from (lst : option string) (absPaths : list string)
  : list string :=
  match absPaths with
  | [] => []
  | p :: rest =>
      match lst with
      | None => p :: sweep_from (Some p) rest
      | Some l =>
          if covered_by l p then sweep_from lst rest
          else p :: sweep_from (Some p) rest
      end
  end.

(** A check of [stats_wf] that computes *)
Definition stats_wf_check (m : gmap string DirStat) : bool :=
  forallb (fun kv : string * DirStat =>
             is_clean_abs kv.1
             && (- 2 ^ 63 <=? TotalSize kv.2) && (TotalSize kv.2 <? 2 ^ 63)
             && (- 2 ^ 63 <=? FileCount kv.2) && (FileCount kv.2 <? 2 ^ 63))
    (map_to_list m).

(* ===================================================================== *)
(** * Concrete inputs                                                     *)
(* ===================================================================== *)

Module Scenario.

(** /root/a with one file of 100 bytes, /root/b/c with one file of 50 *)
Definition tree : entry :=
  Directory "/" false
    [Directory "root" false
       [Directory "a" false [File "f1" (Some 100)];
        Directory "b" false [Directory "c" false [File "f2" (Some 50)]]]].

Definition stats : gmap string DirStat :=
  (scan_roots default_config tree ["/root"]).1.1.

(** A long name one level down and a short path two levels down *)
Definition uneven_tree : entry :=
  Directory "/" false
    [Directory "aaaa" false [];
     Directory "b" false [Directory "c" false []]].

Definition uneven_stats : gmap string DirStat :=
  (scan_roots default_config uneven_tree ["/"]).1.1.

(** A root directory holding one file and one subdirectory with a file *)
Definition shallow_tree : entry :=
  Directory "/" false
    [Directory "root" false
       [File "f" (Some 100); Directory "sub" false [File "g" (Some 7)]]].

Definition depth0_config : config :=
  mkConfig (make_excludeMap excludePaths) 0 20 false (Some "/").

(** A regular file at a path of the exclusion list *)
Definition run_file_tree : entry :=
  Directory "/" false [File "run" (Some 7)].

(** Roots "/a", "/a-b" and "/a/b": the second sorts between the first and
    its subdirectory. *)
Definition overlap_roots : list string := ["/a"; "/a-b"; "/a/b"].

Definition overlap_tree : entry :=
  Directory "/" false
    [Directory "a" false [Directory "b" false [File "f" (Some 10)]];
     Directory "a-b" false []].

(** Roots "/a/b", a directory, and "/a/bc/f", a file *)
Definition sibling_roots : list string := ["/a/b"; "/a/bc/f"].

Definition sibling_tree : entry :=
  Directory "/" false
    [Directory "a" false
       [Directory "b" false [];
        Directory "bc" false [File "f" (Some 10)]]].

End Scenario.

(* ===================================================================== *)
(** * Argument parsing and rendering                                      *)
(* ===================================================================== *)

Module strconv.

(** The value of a decimal digit *)
Definition digit_of (c : ascii) : option Z :=
  let n := Z.of_N (N_of_ascii c) in
  if (48 <=? n) && (n <=? 57) then Some (n - 48) else None.

Fixpoint digits (s : string) (acc : Z) : option Z :=
  match s with
  | EmptyString => Some acc
  | String c r => d ← digit_of c; digits r (acc * 10 + d)
  end.

(** strconv.Atoi on a 64-bit platform: an optional sign, then at least one
    decimal digit and nothing else; [None] is the syntax error, and the
    range error for a value that is not an int. *)
Definition Atoi (s : string) : option Z :=
  match s with
  | EmptyString => None
  | String c r =>
      let neg := bool_decide (c = "-"%char) in
      let body :=
        if bool_decide (c = "-"%char) || bool_decide (c = "+"%char)
        then r else s in
      match body with
      | EmptyString => None
      | _ =>
          n ← digits body 0;
          let v := if neg then - n else n in
          if (- 2 ^ 63 <=? v) && (v <? 2 ^ 63) then Some v else None
      end
  end.

End strconv.

(** The package-level variables that parseArgs writes *)
Record flags : Type := mkFlags {
  fl_targetPaths : list string;
  fl_maxDepth : Z;
  fl_topN : Z;
  fl_verbose : bool;
  fl_displayRuntime : bool
}.

(** Their initial values *)
Definition initial_flags : flags := mkFlags [] 1000000 20 false false.

(** How parseArgs ends: it returns, or it calls os.Exit. *)
Inductive parsed : Type :=
| Parsed (fl : flags)
| Exit (code : Z).

Definition add_path (fl : flags) (p : string) : flags :=
  mkFlags (fl_targetPaths fl ++ [p]) (fl_maxDepth fl) (fl_topN fl)
    (fl_verbose fl) (fl_displayRuntime fl).

(** The loop of parseArgs over os.Args[1:], from the argument at index i
    on.  The inner loop of the "--path" case takes the arguments that do
    not start with "--"; the cases of "--maxdepth" and "--top" skip their
    value. *)
Fixpoint parse_loop (args : list string) (fl : flags) {struct args} : parsed :=
  match args with
  | [] => Parsed fl
  | arg :: rest =>
      if bool_decide (arg = "--path") then
        (fix take_paths (l : list string) (fl : flags) {struct l} : parsed :=
           match l with
           | [] => Parsed fl
           | a :: l' =>
               if HasPrefix a "--" then parse_loop l fl
               else take_paths l' (add_path fl a)
           end) rest fl
      else if bool_decide (arg = "--maxdepth") then
        match rest with
        | [] => Parsed fl
        | v :: rest' =>
            match strconv.Atoi v with
            | None => Exit 1
            | Some val =>
                parse_loop rest'
                  (mkFlags (fl_targetPaths fl) val (fl_topN fl)
                     (fl_verbose fl) (fl_displayRuntime fl))
            end
        end
      else if bool_decide (arg = "--top") then
        match rest with
        | [] => Parsed fl
        | v :: rest' =>
            match strconv.Atoi v with
            | None => Exit 1
            | Some val =>
                parse_loop rest'
                  (mkFlags (fl_targetPaths fl) (fl_maxDepth fl) val
                     (fl_verbose fl) (fl_displayRuntime fl))
            end
        end
      else if bool_decide (arg = "--verbose") then
        parse_loop rest
          (mkFlags (fl_targetPaths fl) (fl_maxDepth fl) (fl_topN fl)
             true (fl_displayRuntime fl))
      else if bool_decide (arg = "--display-runtime") then
        parse_loop rest
          (mkFlags (fl_targetPaths fl) (fl_maxDepth fl) (fl_topN fl)
             (fl_verbose fl) true)
      else if bool_decide (arg = "--version") then Exit 0
      else if bool_decide (arg = "-h") || bool_decide (arg = "--help") then
        Exit 0
      else Exit 1
  end.

(** parseArgs: the loop, then the default of targetPaths *)
Definition parseArgs (args : list string) : parsed :=
  match parse_loop args initial_flags with
  | Parsed fl =>
      match fl_targetPaths fl with
      | [] => Parsed (add_path fl ".")
      | _ => Parsed fl
      end
  | Exit code => Exit code
  end.

(** The configuration that main runs with after parseArgs *)
Definition config_of_flags (fl : flags) (cwd : option string) : config :=
  mkConfig (make_excludeMap excludePaths) (fl_maxDepth fl) (fl_topN fl)
    (fl_verbose fl) cwd.

(** ** formatBytes *)

Definition unit : Z := 1024.

(** for n := b / unit; n >= unit; n /= unit { div *= unit; exp++ } *)
Fixpoint unit_loop (fuel : nat) (n div exp : Z) : option (Z * Z) :=
  if unit <=? n then
    match fuel with
    | O => None
    | S fuel' =>
        unit_loop fuel' (Z.quot n unit) (wrap64 (div * unit)) (wrap64 (exp + 1))
    end
  else Some (div, exp).

(** What formatBytes prints: the integer with " B", or the quotient of b
    and div (as float64, with one decimal) with a unit letter and "B". *)
Inductive formatted : Type :=
| PlainBytes (b : Z)
| Scaled (b div : Z) (letter : ascii).

(** The letter at "KMGTPE"[exp]; [None] is the index out of range. *)
Definition unit_letter (exp : Z) : option ascii :=
  if exp <? 0 then None else String.get (Z.to_nat exp) "KMGTPE".

(** formatBytes.  An int64 holds fewer than 64 factors of 1024, which
    bounds the loop. *)
Definition formatBytes (b : Z) : option formatted :=
  if b <? unit then Some (PlainBytes b)
  else
    '(div, exp) ← unit_loop 64 (Z.quot b unit) unit 0;
    letter ← unit_letter exp;
    Some (Scaled b div letter).

(** ** The rows of printTable *)

(** s[n:] *)
Fixpoint slice_from (n : nat) (s : string) : string :=
  match n, s with
  | O, _ => s
  | S n', String _ r => slice_from n' r
  | S _, EmptyString => EmptyString
  end.

(** The path as printTable shows it *)
Definition displayPath (p : string) : string :=
  if 80 <? len p
  then "..." +:+ slice_from (String.length p - 77) p
  else p.

(** The first column of a row: formatBytes(s.TotalSize), or the count
    before " Files" *)
Inductive cell : Type :=
| SizeCell (f : formatted)
| CountCell (n : Z).

Definition table_row (isSize : bool) (s : DirStat) : option (cell * string) :=
  if isSize
  then f ← formatBytes (TotalSize s); Some (SizeCell f, displayPath (Path s))
  else Some (CountCell (FileCount s), displayPath (Path s)).

(** printTable with the rows as they are rendered *)
Definition printTable_rows (topN : Z) (l : list DirStat) (isSize : bool)
  : option (list (cell * string)) :=
  rows ← printTable topN l; mapM (table_row isSize) rows.

(** ** Vocabulary of the further statements *)

(** Every entry carries its key as Path, and a Depth that was never set. *)
Definition keyed (m : gmap string DirStat) : Prop :=
  forall k s, m !! k = Some s -> Path s = k /\ Depth s = 0.

(** The sum of a counter over the whole collection *)
Definition total_of (f : DirStat -> Z) (m : gmap string DirStat) : Z :=
  sumZ_if (fun _ => true) (fun kv => f kv.2) (map_to_list m).

(** Every directory of the collection but [root] has its parent in it. *)
Definition parent_closed (root : string) (m : gmap string DirStat) : Prop :=
  forall q, is_Some (m !! q) ->
    q = root \/ (Dir q <> q /\ is_Some (m !! Dir q)).

(** Strictly increasing byte-wise order *)
Definition string_lt (a b : string) : Prop := String.le a b /\ a <> b.

(** The entries [es] of the directory [path] recorded without descending:
    a file adds its size to [path], a directory that is not excluded gets
    its entry. *)
Definition record_entry_flat (cfg : config) (path : string)
    (st : scan_state) (e : entry) : scan_state :=
  match e with
  | File _ (Some size) =>
      mkScan (record_file path size (dirStats st)) (wrap64 (count st + 1))
        (printed st)
  | File _ None => st
  | Directory n readErr _ =>
      if excluded cfg (Join path n) then st
      else
        let st1 := mkScan (getDirStat (Join path n) (dirStats st)) (count st)
                     (printed st) in
        if readErr then warn_access cfg (Join path n) st1 else st1
  end.

(** The collection [m] came from [m0] by recording directories at or below
    [root], each but [root] after its parent. *)
Definition grown_under (root : string) (m0 m : gmap string DirStat) : Prop :=
  forall q, is_Some (m !! q) ->
    is_Some (m0 !! q) \/
    (path_under root q = true /\
     (q = root \/ (Dir q <> q /\ is_Some (m !! Dir q)))).

(** No counter of the collection is negative. *)
Definition nonneg_stats (m : gmap string DirStat) : Prop :=
  forall k s, m !! k = Some s -> 0 <= TotalSize s /\ 0 <= FileCount s.

Definition nonneg_check (m : gmap string DirStat) : bool :=
  forallb (fun kv : string * DirStat =>
             (0 <=? TotalSize kv.2) && (0 <=? FileCount kv.2))
    (map_to_list m).

(** ** The files a scan counts *)







(** Roots "/a/f", a file, and "/a/b/c", a directory two levels below the
    parent of the file *)
Module Detached.

Definition roots : list string := ["/a/f"; "/a/b/c"].

Definition tree : entry :=
  Directory "/" false
    [Directory "a" false
       [File "f" (Some 10);
        Directory "b" false [Directory "c" false [File "g" (Some 5)]]]].

Definition stats : gmap string DirStat :=
  (scan_roots default_config tree
     (removeSubdirectories (cwd default_config) roots)).1.1.

End Detached.

(* ===================================================================== *)
(** * Facts about strings                                                 *)
(* ===================================================================== *)

Module StringFacts.
Import gostrings.

Lemma sapp_cons c x y : String c x +:+ y = String c (x +:+ y).
Proof. reflexivity. Qed.

Lemma sapp_nil_l y : EmptyString +:+ y = y.
Proof. reflexivity. Qed.

Lemma sapp_nil_r x : x +:+ EmptyString = x.
Proof. induction x as [|c x IH]; [done|]. by rewrite sapp_cons, IH. Qed.

Lemma sapp_assoc x y z : (x +:+ y) +:+ z = x +:+ (y +:+ z).
Proof. induction x as [|c x IH]; [done|]. by rewrite !sapp_cons, IH. Qed.

Lemma length_sapp x y :
  String.length (x +:+ y) = (String.length x + String.length y)%nat.
Proof. induction x as [|c x IH]; [done|]. rewrite sapp_cons. simpl. lia. Qed.

Lemma Count_sapp x y : Count (x +:+ y) = (Count x + Count y)%nat.
Proof. induction x as [|c x IH]; [done|]. rewrite sapp_cons. simpl. lia. Qed.

Lemma length_zero x : String.length x = 0%nat -> x = EmptyString.
Proof. by destruct x. Qed.

Lemma prefix_app x y : String.prefix x (x +:+ y) = true.
Proof.
  induction x as [|c x IH]; [by destruct y|].
  rewrite sapp_cons. simpl. by destruct (ascii_dec c c).
Qed.

Lemma prefix_inv x s :
  String.prefix x s = true -> exists y, s = x +:+ y.
Proof.
  revert s. induction x as [|c x IH]; intros s H.
  - by exists s.
  - destruct s as [|c' s]; [done|]. simpl in H.
    destruct (ascii_dec c c') as [->|]; [|done].
    destruct (IH _ H) as [y ->]. by exists y.
Qed.

Lemma split_sep_nonempty s : split_sep s <> [].
Proof.
  destruct s as [|c s]; [done|]. simpl.
  destruct (is_sep c); [done|]. by destruct (split_sep s).
Qed.

(** Splitting at a separator splits the list of elements. *)
Lemma split_sep_app x y :
  split_sep (x +:+ String PathSeparator y) = split_sep x ++ split_sep y.
Proof.
  induction x as [|c x IH]; [done|].
  rewrite sapp_cons. simpl. rewrite IH.
  destruct (is_sep c); [done|].
  pose proof (split_sep_nonempty x). by destruct (split_sep x).
Qed.

Lemma split_sep_nosep x : Count x = 0%nat -> split_sep x = [x].
Proof.
  induction x as [|c x IH]; [done|]. simpl.
  destruct (is_sep c); [done|]. intros H. by rewrite IH.
Qed.

Lemma split_sep_Count s : Forall (fun x => Count x = 0%nat) (split_sep s).
Proof.
  induction s as [|c s IH]; simpl; [by repeat constructor|].
  destruct (is_sep c) eqn:Hc; [by constructor|].
  destruct (split_sep s) as [|x xs]; [repeat constructor; simpl; by rewrite Hc|].
  inversion IH; subst. constructor; [|done]. simpl. by rewrite Hc.
Qed.

Lemma join_sep_cons c c' cs :
  join_sep (c :: c' :: cs) = c +:+ String PathSeparator (join_sep (c' :: cs)).
Proof. reflexivity. Qed.

Lemma split_join_sep cs :
  cs <> [] -> Forall (fun x => Count x = 0%nat) cs ->
  split_sep (join_sep cs) = cs.
Proof.
  induction cs as [|c cs IH]; [done|]. intros _ H.
  inversion H as [|? ? Hc Hcs]; subst.
  destruct cs as [|c' cs]; [by apply split_sep_nosep|].
  rewrite join_sep_cons, split_sep_app, split_sep_nosep by done.
  by rewrite IH.
Qed.

Lemma join_sep_snoc cs c :
  cs <> [] -> join_sep (cs ++ [c]) = join_sep cs +:+ String PathSeparator c.
Proof.
  induction cs as [|c0 cs IH]; [done|]. intros _.
  destruct cs as [|c1 cs]; [done|].
  change ((c0 :: c1 :: cs) ++ [c]) with (c0 :: ((c1 :: cs) ++ [c])).
  destruct ((c1 :: cs) ++ [c]) as [|d ds] eqn:E; [done|].
  rewrite (join_sep_cons c0 d ds), IH by done.
  by rewrite (join_sep_cons c0 c1 cs), !sapp_assoc.
Qed.

End StringFacts.

(* ===================================================================== *)
(** * Facts about clean absolute paths                                    *)
(* ===================================================================== *)

Module PathFacts.
Import gostrings filepath StringFacts.

Lemma valid_name_Count cs :
  Forall valid_name cs -> Forall (fun x => Count x = 0%nat) cs.
Proof. intros H. eapply Forall_impl; [exact H|]. by intros c (_ & _ & _ & ?). Qed.

Lemma clean_step_valid r stk c : valid_name c -> clean_step r stk c = c :: stk.
Proof.
  intros (H1 & H2 & H3 & _). unfold clean_step.
  by rewrite !bool_decide_eq_false_2.
Qed.

Lemma foldl_clean_valid r cs stk :
  Forall valid_name cs -> foldl (clean_step r) stk cs = rev cs ++ stk.
Proof.
  revert stk. induction cs as [|c cs IH]; intros stk H; [done|].
  inversion H; subst. simpl. rewrite clean_step_valid, IH by done.
  by rewrite <- app_assoc.
Qed.

Lemma clean_elems_valid r cs : Forall valid_name cs -> clean_elems r cs = cs.
Proof.
  intros H. unfold clean_elems. rewrite foldl_clean_valid by done.
  by rewrite app_nil_r, rev_involutive.
Qed.

Lemma clean_elems_cons_empty r l : clean_elems r (EmptyString :: l) = clean_elems r l.
Proof. reflexivity. Qed.

Lemma clean_elems_snoc_empty r l : clean_elems r (l ++ [EmptyString]) = clean_elems r l.
Proof. unfold clean_elems. by rewrite foldl_app. Qed.

Lemma IsAbs_abs_of cs : IsAbs (abs_of cs) = true.
Proof. apply prefix_app. Qed.

Lemma IsAbs_app x y : IsAbs x = true -> IsAbs (x +:+ y) = true.
Proof.
  unfold IsAbs, HasPrefix. intros [z ->]%prefix_inv.
  rewrite sapp_assoc. apply prefix_app.
Qed.

Lemma split_sep_abs_of cs :
  Forall valid_name cs ->
  split_sep (abs_of cs) = EmptyString :: (if cs is [] then [EmptyString] else cs).
Proof.
  intros H. unfold abs_of, Sep. rewrite sapp_cons, sapp_nil_l. simpl.
  f_equal. destruct cs as [|c cs]; [done|].
  apply split_join_sep; [done|]. by apply valid_name_Count.
Qed.

Lemma clean_elems_abs_of cs :
  Forall valid_name cs -> clean_elems true (split_sep (abs_of cs)) = cs.
Proof.
  intros H. rewrite split_sep_abs_of by done. rewrite clean_elems_cons_empty.
  destruct cs as [|c cs]; [done|]. by apply clean_elems_valid.
Qed.

Lemma Clean_of_elems p cs :
  IsAbs p = true -> clean_elems true (split_sep p) = cs -> Clean p = abs_of cs.
Proof. intros Hp H. unfold Clean. by rewrite Hp, H. Qed.

Lemma Clean_abs_of cs : Forall valid_name cs -> Clean (abs_of cs) = abs_of cs.
Proof.
  intros H. apply Clean_of_elems; [apply IsAbs_abs_of|].
  by apply clean_elems_abs_of.
Qed.

Lemma abs_of_inj cs1 cs2 :
  Forall valid_name cs1 -> Forall valid_name cs2 ->
  abs_of cs1 = abs_of cs2 -> cs1 = cs2.
Proof.
  intros H1 H2 E. rewrite <- (clean_elems_abs_of cs1), <- (clean_elems_abs_of cs2) by done.
  by rewrite E.
Qed.

(** What Clean keeps of a rooted path is a list of valid names. *)
Lemma clean_step_rooted_valid stk c :
  Forall valid_name stk -> Count c = 0%nat ->
  Forall valid_name (clean_step true stk c).
Proof.
  intros Hs Hc. unfold clean_step.
  repeat case_bool_decide; try done.
  - destruct stk as [|top below]; [done|].
    inversion Hs as [|? ? Htop Hbelow]; subst.
    case_bool_decide; [|done]. by destruct Htop as (_ & _ & ? & _).
  - by constructor.
Qed.

Lemma foldl_clean_rooted_valid cs stk :
  Forall valid_name stk -> Forall (fun x => Count x = 0%nat) cs ->
  Forall valid_name (foldl (clean_step true) stk cs).
Proof.
  revert stk. induction cs as [|c cs IH]; intros stk Hs Hc; [done|].
  inversion Hc; subst. simpl. apply IH; [|done].
  by apply clean_step_rooted_valid.
Qed.

Lemma Clean_rooted p : IsAbs p = true -> clean_abs (Clean p).
Proof.
  intros Hp. exists (clean_elems true (split_sep p)). split.
  - unfold clean_elems. apply Forall_rev.
    apply foldl_clean_rooted_valid; [done|apply split_sep_Count].
  - by apply Clean_of_elems.
Qed.

Lemma is_clean_abs_spec p : is_clean_abs p = true <-> clean_abs p.
Proof.
  unfold is_clean_abs. rewrite andb_true_iff, bool_decide_eq_true. split.
  - intros [Hp E]. rewrite <- E. by apply Clean_rooted.
  - intros (cs & Hcs & ->). split; [apply IsAbs_abs_of|by apply Clean_abs_of].
Qed.

Lemma abs_of_snoc cs c :
  abs_of (cs ++ [c]) =
  (if cs is [] then EmptyString else abs_of cs) +:+ String PathSeparator c.
Proof.
  destruct cs as [|c0 cs]; [done|].
  unfold abs_of. rewrite join_sep_snoc by done. by rewrite sapp_assoc.
Qed.

Lemma dir_prefix_app x y :
  Count y = 0%nat ->
  dir_prefix (x +:+ String PathSeparator y) = x +:+ Sep.
Proof.
  intros Hy. induction x as [|c x IH].
  - rewrite !sapp_nil_l. simpl. by rewrite Hy.
  - rewrite !sapp_cons. simpl. rewrite IH, Count_sapp. simpl.
    by destruct (Count x + S (Count y))%nat eqn:E; [lia|].
Qed.

Lemma Dir_abs_of_snoc cs c :
  Forall valid_name cs -> valid_name c -> Dir (abs_of (cs ++ [c])) = abs_of cs.
Proof.
  intros Hcs Hc. unfold Dir, VolumeName. rewrite sapp_nil_l, abs_of_snoc.
  rewrite dir_prefix_app by apply Hc.
  destruct cs as [|c0 cs]; [reflexivity|].
  apply Clean_of_elems; [apply IsAbs_app; apply IsAbs_abs_of|].
  unfold Sep. rewrite split_sep_app, split_sep_abs_of by done.
  change (split_sep EmptyString) with [EmptyString].
  rewrite clean_elems_snoc_empty, clean_elems_cons_empty.
  by apply clean_elems_valid.
Qed.

Lemma Join_abs_of cs c :
  Forall valid_name cs -> valid_name c ->
  Join (abs_of cs) c = abs_of (cs ++ [c]).
Proof.
  intros Hcs Hc. unfold Join.
  rewrite bool_decide_eq_false_2 by done.
  apply Clean_of_elems; [apply IsAbs_app; apply IsAbs_abs_of|].
  unfold Sep. rewrite sapp_cons, sapp_nil_l.
  rewrite split_sep_app, split_sep_abs_of, split_sep_nosep by (done || apply Hc).
  assert (Forall valid_name (cs ++ [c])) as H by (apply Forall_app; auto).
  destruct cs as [|c0 cs].
  - change ((EmptyString :: [EmptyString]) ++ [c]) with (EmptyString :: EmptyString :: [c]).
    rewrite !clean_elems_cons_empty. by apply clean_elems_valid.
  - change ((EmptyString :: c0 :: cs) ++ [c]) with (EmptyString :: ((c0 :: cs) ++ [c])).
    rewrite clean_elems_cons_empty. by apply clean_elems_valid.
Qed.

Lemma Dir_root : Dir "/" = "/".
Proof. reflexivity. Qed.

Lemma length_abs_of_snoc cs c :
  c <> EmptyString -> (String.length (abs_of cs) < String.length (abs_of (cs ++ [c])))%nat.
Proof.
  intros Hc. rewrite abs_of_snoc, length_sapp. simpl.
  destruct c as [|a c]; [done|]. destruct cs; simpl; lia.
Qed.

Lemma Count_join_sep cs :
  Forall (fun x => Count x = 0%nat) cs -> Count (join_sep cs) = pred (length cs).
Proof.
  induction cs as [|c cs IH]; [done|]. intros H. inversion H; subst.
  destruct cs as [|c' cs]; [done|].
  rewrite join_sep_cons, Count_sapp. simpl. rewrite IH by done. simpl. lia.
Qed.

Lemma Count_abs_of cs :
  Forall valid_name cs -> Count (abs_of cs) = Nat.max 1 (length cs).
Proof.
  intros H. unfold abs_of, Sep. rewrite sapp_cons, sapp_nil_l. simpl.
  rewrite Count_join_sep by by apply valid_name_Count.
  destruct cs; simpl; lia.
Qed.

End PathFacts.

Module ParentFacts.
Import gostrings filepath StringFacts PathFacts.

Lemma clean_abs_root : clean_abs "/".
Proof. by exists []. Qed.

Lemma clean_abs_inv p :
  clean_abs p ->
  p = "/" \/ exists cs c, Forall valid_name cs /\ valid_name c /\ p = abs_of (cs ++ [c]).
Proof.
  intros (cs & Hcs & ->). destruct cs as [|c cs' _] using rev_ind.
  - by left.
  - right. apply Forall_app in Hcs as [H1 H2]. inversion H2; subst.
    by exists cs', c.
Qed.

Lemma clean_abs_Dir p : clean_abs p -> clean_abs (Dir p).
Proof.
  intros [->|(cs & c & Hcs & Hc & ->)]%clean_abs_inv.
  - apply clean_abs_root.
  - rewrite Dir_abs_of_snoc by done. by exists cs.
Qed.

Lemma Dir_length p :
  clean_abs p -> Dir p <> p -> (String.length (Dir p) < String.length p)%nat.
Proof.
  intros [->|(cs & c & Hcs & Hc & ->)]%clean_abs_inv Hne; [done|].
  rewrite Dir_abs_of_snoc by done. apply length_abs_of_snoc, Hc.
Qed.

Lemma Dir_fixed p : clean_abs p -> Dir p = p -> p = "/".
Proof.
  intros [->|(cs & c & Hcs & Hc & ->)]%clean_abs_inv E; [done|].
  rewrite Dir_abs_of_snoc in E by done.
  pose proof (length_abs_of_snoc cs c (proj1 Hc)) as Hlt.
  rewrite <- E in Hlt. lia.
Qed.

(** The parent of a path has one separator less, unless the parent is the
    root, which has as many separators as its children. *)
Lemma Dir_Count p :
  clean_abs p -> Dir p <> p -> Dir (Dir p) <> Dir p ->
  Count p = S (Count (Dir p)).
Proof.
  intros [->|(cs & c & Hcs & Hc & ->)]%clean_abs_inv Hne; [done|].
  rewrite Dir_abs_of_snoc by done. intros Hne'.
  rewrite !Count_abs_of by (done || (apply Forall_app; auto)).
  rewrite length_app. simpl. destruct cs; [done|]. simpl. lia.
Qed.

Lemma Join_clean_abs p c :
  clean_abs p -> valid_name c -> clean_abs (Join p c) /\ Dir (Join p c) = p.
Proof.
  intros (cs & Hcs & ->) Hc. rewrite Join_abs_of by done. split.
  - exists (cs ++ [c]). split; [|done]. apply Forall_app; auto.
  - by apply Dir_abs_of_snoc.
Qed.

Lemma Join_Count p c :
  clean_abs p -> valid_name c ->
  Count (Join p c) = if bool_decide (p = "/") then 1%nat else S (Count p).
Proof.
  intros (cs & Hcs & ->) Hc. rewrite Join_abs_of by done.
  rewrite !Count_abs_of by (done || (apply Forall_app; auto)).
  rewrite length_app. simpl. destruct cs as [|c0 cs]; [done|].
  rewrite bool_decide_eq_false_2; [simpl; lia|].
  intros E. apply (abs_of_inj (c0 :: cs) []) in E; done.
Qed.

(** The parent of a clean absolute path is a prefix of it, as a string. *)
Lemma Dir_string_prefix p : clean_abs p -> exists tail, p = Dir p +:+ tail.
Proof.
  intros [->|(cs & c & Hcs & Hc & ->)]%clean_abs_inv; [by exists EmptyString|].
  rewrite Dir_abs_of_snoc by done. rewrite abs_of_snoc.
  destruct cs as [|c0 cs]; [by exists c|]. by eexists.
Qed.

Lemma HasPrefix_app s pre tail :
  HasPrefix s pre = true -> HasPrefix (s +:+ tail) pre = true.
Proof.
  unfold HasPrefix. intros [z ->]%prefix_inv.
  rewrite sapp_assoc. apply prefix_app.
Qed.

(** What lies under the parent of a path, lies above the path. *)
Lemma path_under_child d q :
  clean_abs q -> Dir q <> q ->
  path_under d (Dir q) = true -> path_under d q = true.
Proof.
  intros Hq Hne. destruct (Dir_string_prefix q Hq) as [tail Htail].
  unfold path_under. intros H.
  assert (HasPrefix q (d +:+ Sep) = true \/
          (d = Sep /\ HasPrefix q d = true)) as [Hgoal|[Hd Hgoal]].
  { apply orb_true_iff in H as [H|H];
      [apply orb_true_iff in H as [E%bool_decide_eq_true|H]
      |apply andb_true_iff in H as [E%bool_decide_eq_true H]].
    - apply clean_abs_inv in Hq as [->|(cs & c & Hcs & Hc & ->)]; [done|].
      rewrite Dir_abs_of_snoc in E by done. subst d.
      destruct cs as [|c0 cs].
      + right. split; [done|]. apply IsAbs_abs_of.
      + left. rewrite abs_of_snoc. unfold Sep, HasPrefix.
        change (String PathSeparator c)
          with (String PathSeparator EmptyString +:+ c).
        rewrite <- sapp_assoc. apply prefix_app.
    - left. rewrite Htail. by apply HasPrefix_app.
    - right. split; [done|]. rewrite Htail. by apply HasPrefix_app. }
  - by rewrite Hgoal, orb_true_r.
  - by rewrite Hgoal, (bool_decide_eq_true_2 _ Hd), orb_true_r.
Qed.

End ParentFacts.

Module Int64Facts.

Lemma wrap64_in z : in_int64 (wrap64 z).
Proof.
  unfold in_int64, wrap64.
  pose proof (Z.mod_pos_bound (z + 2 ^ 63) (2 ^ 64) eq_refl). lia.
Qed.

Lemma wrap64_id z : in_int64 z -> wrap64 z = z.
Proof.
  unfold in_int64, wrap64. intros H.
  rewrite Z.mod_small by lia. lia.
Qed.

Lemma wrap64_add a b : wrap64 (wrap64 a + wrap64 b) = wrap64 (a + b).
Proof.
  unfold wrap64. f_equal.
  rewrite (Z.mod_eq (a + 2 ^ 63) (2 ^ 64)), (Z.mod_eq (b + 2 ^ 63) (2 ^ 64)) by done.
  set (qa := (a + 2 ^ 63) / 2 ^ 64). set (qb := (b + 2 ^ 63) / 2 ^ 64).
  replace (a + 2 ^ 63 - 2 ^ 64 * qa - 2 ^ 63 + (b + 2 ^ 63 - 2 ^ 64 * qb - 2 ^ 63) + 2 ^ 63)
    with (a + b + 2 ^ 63 + (- qa - qb) * 2 ^ 64) by lia.
  apply Z_mod_plus_full.
Qed.

Lemma in_int64_0 : in_int64 0.
Proof. unfold in_int64. lia. Qed.

End Int64Facts.

Module SumFacts.

Lemma sumZ_if_ext {A} (b1 b2 : A -> bool) f (l : list A) :
  (forall x, x ∈ l -> b1 x = b2 x) -> sumZ_if b1 f l = sumZ_if b2 f l.
Proof.
  induction l as [|x l IH]; intros H; [done|]. simpl.
  rewrite (H x) by left. rewrite IH; [done|].
  intros y Hy. apply H. by right.
Qed.

Lemma sumZ_if_disj {A} (b1 b2 : A -> bool) f (l : list A) :
  (forall x, x ∈ l -> b1 x && b2 x = false) ->
  sumZ_if (fun x => b1 x || b2 x) f l = sumZ_if b1 f l + sumZ_if b2 f l.
Proof.
  induction l as [|x l IH]; intros H; [done|]. simpl.
  rewrite IH by (intros y Hy; apply H; by right).
  specialize (H x ltac:(left)). destruct (b1 x), (b2 x); simpl in *; try done; lia.
Qed.

Lemma sumZ_if_perm {A} (b : A -> bool) f (l1 l2 : list A) :
  l1 ≡ₚ l2 -> sumZ_if b f l1 = sumZ_if b f l2.
Proof. induction 1; simpl; lia. Qed.

Lemma sumZ_if_single {A} `{EqDecision A} (a : A) f (l : list A) :
  NoDup l -> a ∈ l -> sumZ_if (fun x => bool_decide (x = a)) f l = f a.
Proof.
  induction l as [|x l IH]; intros Hnd Hin; [by apply elem_of_nil in Hin|].
  apply NoDup_cons in Hnd as [Hx Hnd]. simpl.
  apply elem_of_cons in Hin as [->|Hin].
  - rewrite bool_decide_eq_true_2 by done.
    rewrite (sumZ_if_ext _ (fun _ => false)).
    + assert (forall l' : list A, sumZ_if (fun _ => false) f l' = 0) as ->; [|lia].
      induction l' as [|? ? IHl']; simpl; [done|]. by rewrite IHl'.
    + intros y Hy. apply bool_decide_eq_false_2. by intros ->.
  - rewrite bool_decide_eq_false_2 by (by intros ->). rewrite IH by done. lia.
Qed.

End SumFacts.

(* ===================================================================== *)
(** * The accumulation loop of aggregateStats                             *)
(* ===================================================================== *)

Module AggregateFacts.
Import gostrings filepath StringFacts PathFacts ParentFacts Int64Facts SumFacts.

Section Feeds.
Variable m0 : gmap string DirStat.

Lemma feeds_mono done done' d q :
  (forall x, x ∈ done -> x ∈ done') ->
  feeds m0 done d q -> feeds m0 done' d q.
Proof.
  intros Hsub. induction 1 as [|q Hq Hc _ IH]; [constructor|].
  apply feeds_step; auto.
Qed.

Lemma feeds_inv done d q :
  feeds m0 done d q ->
  q = d \/ (q ∈ done /\ contributes m0 q /\ feeds m0 done d (Dir q)).
Proof. destruct 1; auto. Qed.

Lemma feeds_trans done a b q :
  feeds m0 done a q -> feeds m0 done b a -> feeds m0 done b q.
Proof.
  induction 1 as [|q Hq Hc _ IH]; [done|].
  intros Hb. apply feeds_step; auto.
Qed.

Lemma feeds_linear done a b q :
  feeds m0 done a q -> feeds m0 done b q ->
  feeds m0 done a b \/ feeds m0 done b a.
Proof.
  induction 1 as [|q Hq Hc Ha IH]; intros Hb; [by right|].
  apply feeds_inv in Hb as [->|(_ & _ & Hb)]; [|by apply IH].
  left. by apply feeds_step.
Qed.

Lemma feeds_nil d q : feeds m0 [] d q <-> q = d.
Proof.
  split; [|intros ->; constructor].
  intros [?|(H & _)]%feeds_inv; [done|]. by apply elem_of_nil in H.
Qed.

Lemma feeds_parent_stuck done c d :
  parent_pending m0 done c -> feeds m0 done d (Dir c) -> d = Dir c.
Proof.
  intros Hp [?|(H1 & H2 & _)]%feeds_inv; [done|]. by destruct Hp.
Qed.

Lemma feeds_add done c d q :
  parent_pending m0 done c ->
  feeds m0 (c :: done) d q <->
  feeds m0 done d q \/ (contributes m0 c /\ d = Dir c /\ feeds m0 done c q).
Proof.
  intros Hp. split.
  - induction 1 as [|q Hq Hc _ IH]; [left; constructor|].
    apply elem_of_cons in Hq as [->|Hq].
    + destruct IH as [IH|(_ & _ & IH)].
      * apply (feeds_parent_stuck _ _ _ Hp) in IH as ->.
        right. split; [done|]. split; [done|]. constructor.
      * apply (feeds_parent_stuck _ _ _ Hp) in IH.
        destruct Hc as [Hc _]. by rewrite <- IH in Hc.
    + destruct IH as [IH|(? & ? & IH)];
        [left|right; split; [done|]; split; [done|]]; by apply feeds_step.
  - intros [H|(Hc & -> & H)].
    + eapply feeds_mono; [|done]. intros x Hx. by right.
    + eapply feeds_trans.
      * eapply feeds_mono; [|done]. intros x Hx. by right.
      * apply feeds_step; [by left|done|constructor].
Qed.

Lemma feeds_add_disj done c q :
  c ∉ done -> contributes m0 c -> parent_pending m0 done c ->
  feeds m0 done (Dir c) q -> feeds m0 done c q -> False.
Proof.
  intros Hc [Hne _] Hp H1 H2.
  destruct (feeds_linear _ _ _ _ H1 H2) as [H|H].
  - apply feeds_inv in H as [?|(? & _)]; done.
  - apply (feeds_parent_stuck _ _ _ Hp) in H. done.
Qed.

(** The static subtree test agrees with [feeds] once every key is
    processed. *)
Lemma reaches_feeds paths d :
  (forall p, p ∈ paths <-> is_Some (m0 !! p)) ->
  (forall p, is_Some (m0 !! p) -> clean_abs p) ->
  forall fuel q, q ∈ paths -> (String.length q <= fuel)%nat ->
    reaches m0 fuel d q = true <-> feeds m0 paths d q.
Proof.
  intros Hkeys Hclean. induction fuel as [|fuel IH]; intros q Hq Hlen.
  - assert (q = EmptyString) as -> by (apply StringFacts.length_zero; lia).
    apply Hkeys, Hclean in Hq. by destruct Hq as (cs & _ & ?).
  - simpl. rewrite orb_true_iff, !andb_true_iff, negb_true_iff,
      bool_decide_eq_true, bool_decide_eq_true, bool_decide_eq_false.
    assert (clean_abs q) as Hcq by by apply Hclean, Hkeys.
    split.
    + intros [<-|[[Hne Hin] Hr]]; [constructor|].
      apply feeds_step; [done|by split|].
      apply IH; [by apply Hkeys| |done].
      pose proof (Dir_length q Hcq Hne). lia.
    + intros [?|(_ & [Hne Hin] & Hf)]%feeds_inv; [by left|].
      right. repeat split; try done.
      apply IH; [by apply Hkeys| |done].
      pose proof (Dir_length q Hcq Hne). lia.
Qed.


Lemma in_subtree_feeds paths d q :
  (forall p, p ∈ paths <-> is_Some (m0 !! p)) ->
  (forall p, is_Some (m0 !! p) -> clean_abs p) ->
  q ∈ paths ->
  in_subtree m0 d q = true <-> feeds m0 paths d q.
Proof. intros. by apply reaches_feeds. Qed.

End Feeds.
End AggregateFacts.

Module AggregateInv.
Import gostrings filepath StringFacts PathFacts ParentFacts Int64Facts SumFacts.
Import AggregateFacts.

Section Fed.
Variable m0 : gmap string DirStat.

(** [f] is one of the two counters, as the loop updates it. *)
Variable f : DirStat -> Z.
Hypothesis f_bubble : forall ps cs,
  f (mkDirStat (Path ps) (wrap64 (TotalSize ps + TotalSize cs))
       (wrap64 (FileCount ps + FileCount cs)) (Depth ps))
  = wrap64 (f ps + f cs).
Hypothesis f_int64 : forall p s, m0 !! p = Some s -> in_int64 (f s).

Lemma shape_refl : shape m0 m0.
Proof. intros d. by destruct (m0 !! d). Qed.

Lemma shape_lookup m d :
  shape m0 m -> is_Some (m !! d) <-> is_Some (m0 !! d).
Proof.
  intros H. specialize (H d).
  destruct (m !! d), (m0 !! d); try done; split; intros [? ?]; done.
Qed.

Lemma sum_own_key d s :
  m0 !! d = Some s ->
  sumZ_if (fun kv => bool_decide (kv.1 = d)) (fun kv => f kv.2)
    (map_to_list m0) = f s.
Proof.
  intros Hd.
  rewrite (sumZ_if_ext _ (fun kv => bool_decide (kv = (d, s)))).
  - rewrite (sumZ_if_single (d, s) (fun kv => f kv.2)); [done| |].
    + apply NoDup_map_to_list.
    + by apply elem_of_map_to_list.
  - intros [k v] Hkv%elem_of_map_to_list. simpl.
    apply bool_decide_ext. split; [|by intros [= -> ->]].
    intros ->. congruence.
Qed.

Lemma fed_init : fed m0 f [] m0.
Proof.
  intros d s Hd. exists (fun kv => bool_decide (kv.1 = d)). split.
  - intros kv _. by rewrite bool_decide_eq_true, feeds_nil.
  - rewrite (sum_own_key d s Hd). symmetry. apply wrap64_id. by eapply f_int64.
Qed.

Lemma fed_proper done done' m :
  (forall x, x ∈ done <-> x ∈ done') -> fed m0 f done m -> fed m0 f done' m.
Proof.
  intros Heq H d s Hd. destruct (H d s Hd) as (ind & Hind & Hsum).
  exists ind. split; [|done]. intros kv Hkv. rewrite (Hind kv Hkv).
  split; apply feeds_mono; intros x; apply Heq.
Qed.

(** One turn of the loop. *)
Lemma bubble_fed done m c :
  shape m0 m -> fed m0 f done m ->
  is_Some (m0 !! c) -> c ∉ done -> parent_pending m0 done c ->
  exists m', bubble m c = Some m' /\ shape m0 m' /\ fed m0 f (c :: done) m'.
Proof.
  intros Hshape Hfed Hc Hnew Hp. unfold bubble.
  assert (~ contributes m0 c -> fed m0 f (c :: done) m) as Hsame.
  { intros Hn d s Hd. destruct (Hfed d s Hd) as (ind & Hind & Hsum).
    exists ind. split; [|done]. intros kv Hkv.
    rewrite (Hind kv Hkv), (feeds_add m0 done c) by done. tauto. }
  case_bool_decide as Hpar.
  { exists m. split; [done|]. split; [done|]. apply Hsame. by intros [? _]. }
  destruct (m !! Dir c) as [ps|] eqn:Hps; cycle 1.
  { exists m. split; [done|]. split; [done|]. apply Hsame. intros [_ Hin].
    apply (shape_lookup m) in Hin; [|done]. rewrite Hps in Hin.
    by destruct Hin. }
  assert (contributes m0 c) as Hcon.
  { split; [done|]. apply (shape_lookup m); [done|]. by rewrite Hps. }
  apply (shape_lookup m) in Hc as [cs Hcs]; [|done]. rewrite Hcs.
  eexists. split; [done|]. split.
  - intros d. destruct (decide (d = Dir c)) as [->|Hd].
    + rewrite lookup_insert_eq. specialize (Hshape (Dir c)).
      rewrite Hps in Hshape. by destruct (m0 !! Dir c).
    + rewrite lookup_insert_ne by done. apply Hshape.
  - intros d s Hd. destruct (decide (d = Dir c)) as [->|Hne].
    + rewrite lookup_insert_eq in Hd. injection Hd as <-.
      destruct (Hfed _ _ Hps) as (ind1 & Hind1 & Hsum1).
      destruct (Hfed _ _ Hcs) as (ind2 & Hind2 & Hsum2).
      exists (fun kv => ind1 kv || ind2 kv). split.
      * intros kv Hkv.
        rewrite orb_true_iff, (Hind1 kv Hkv), (Hind2 kv Hkv),
          (feeds_add m0 done c) by done.
        tauto.
      * rewrite f_bubble, Hsum1, Hsum2, wrap64_add. f_equal.
        symmetry. apply sumZ_if_disj. intros kv Hkv.
        destruct (ind1 kv) eqn:E1, (ind2 kv) eqn:E2; try done.
        apply (Hind1 kv Hkv) in E1. apply (Hind2 kv Hkv) in E2.
        by destruct (feeds_add_disj m0 done c kv.1).
    + rewrite lookup_insert_ne in Hd by done.
      destruct (Hfed d s Hd) as (ind & Hind & Hsum).
      exists ind. split; [|done]. intros kv Hkv.
      rewrite (Hind kv Hkv), (feeds_add m0 done c) by done.
      split; [by left|]. by intros [?|(_ & ? & _)].
Qed.

(** The whole loop, started after [done] was processed. *)
Lemma bubble_up_fed todo : forall done m,
  shape m0 m -> fed m0 f done m ->
  (forall c, c ∈ todo -> is_Some (m0 !! c)) ->
  NoDup (done ++ todo) ->
  (forall l1 c l2, todo = l1 ++ c :: l2 -> parent_pending m0 (done ++ l1) c) ->
  exists m', bubble_up todo m = Some m' /\ shape m0 m' /\ fed m0 f (done ++ todo) m'.
Proof.
  induction todo as [|c todo IH]; intros done m Hshape Hfed Hkeys Hnd Hord.
  - exists m. by rewrite app_nil_r.
  - destruct (bubble_fed done m c) as (m1 & Hb & Hshape1 & Hfed1); try done.
    + apply Hkeys. by left.
    + apply NoDup_app in Hnd as (_ & Hnd & _). intros Hin.
      apply (Hnd c Hin). by left.
    + specialize (Hord [] c todo eq_refl). by rewrite app_nil_r in Hord.
    + destruct (IH (done ++ [c]) m1) as (m' & Hb' & Hshape' & Hfed'); try done.
      * eapply fed_proper; [|done]. intros x.
        rewrite elem_of_cons, elem_of_app, list_elem_of_singleton. tauto.
      * intros x Hx. apply Hkeys. by right.
      * by rewrite <- app_assoc.
      * intros l1 x l2 ->. rewrite <- app_assoc. by apply (Hord (c :: l1) x l2).
      * exists m'. simpl. rewrite Hb. simpl. split; [done|]. split; [done|].
        by rewrite <- app_assoc in Hfed'.
Qed.

(** aggregateStats establishes conservation for the counter [f]. *)
Lemma bubble_up_conserves paths :
  (forall p, is_Some (m0 !! p) -> clean_abs p) ->
  NoDup paths -> (forall p, p ∈ paths <-> is_Some (m0 !! p)) ->
  parent_after m0 paths ->
  exists m', bubble_up paths m0 = Some m' /\ shape m0 m' /\
    forall d s, m' !! d = Some s -> f s = wrap64 (subtree_sum f m0 d).
Proof.
  intros Hclean Hnd Hkeys Hord.
  destruct (bubble_up_fed paths [] m0) as (m' & Hb & Hshape & Hfed).
  - apply shape_refl.
  - apply fed_init.
  - intros c Hc. by apply Hkeys.
  - done.
  - intros l1 c l2 E [Hin Hcon]. simpl in Hin.
    destruct (decide (contributes m0 c)) as [Hc|Hc].
    + by apply (Hord l1 c l2 E).
    + (* the parent cannot be folded unless it is a key; then c is too *)
      apply Hc. split.
      * intros Efix. destruct Hcon as [Hne _]. by rewrite Efix in Hne.
      * apply Hkeys. rewrite E. apply elem_of_app. by left.
  - exists m'. split; [done|]. split; [done|]. intros d s Hd.
    destruct (Hfed d s Hd) as (ind & Hind & ->). f_equal.
    apply sumZ_if_ext. intros kv Hkv. simpl in Hind.
    apply eq_true_iff_eq. rewrite (Hind kv Hkv).
    symmetry. apply (in_subtree_feeds m0 paths); try done.
    apply Hkeys. destruct kv as [k v]. apply elem_of_map_to_list in Hkv.
    simpl. by rewrite Hkv.
Qed.

End Fed.
End AggregateInv.

Module OrderFacts.
Import gostrings filepath StringFacts PathFacts ParentFacts Int64Facts SumFacts.
Import AggregateFacts AggregateInv.

Lemma sorted_desc_app {A} (key : A -> Z) l1 c l2 :
  gosort.sorted_desc key (l1 ++ c :: l2) = true ->
  forall x, x ∈ l1 -> key c <= key x.
Proof.
  induction l1 as [|y l1 IH]; intros H x Hx; [by apply elem_of_nil in Hx|].
  simpl in H. apply andb_true_iff in H as [Hy Hs].
  apply elem_of_cons in Hx as [->|Hx]; [|by apply IH].
  rewrite forallb_forall in Hy. apply Z.leb_le, Hy.
  apply list_elem_of_In, elem_of_app. right. by left.
Qed.

Lemma insert_desc_perm {A} (key : A -> Z) x l :
  Permutation (x :: l) (gosort.insert_desc key x l).
Proof.
  induction l as [|y l IH]; simpl; [done|].
  destruct (key x <? key y); [|done].
  rewrite perm_swap. by constructor.
Qed.

Lemma sort_desc_perm {A} (key : A -> Z) l :
  Permutation l (gosort.sort_desc key l).
Proof.
  induction l as [|x l IH]; simpl; [done|].
  rewrite <- insert_desc_perm. by constructor.
Qed.

Lemma insert_desc_sorted {A} (key : A -> Z) x l :
  gosort.sorted_desc key l = true ->
  gosort.sorted_desc key (gosort.insert_desc key x l) = true.
Proof.
  induction l as [|y l IH]; simpl; [done|].
  intros [Hy Hs]%andb_true_iff.
  destruct (key x <? key y) eqn:E.
  - simpl. rewrite IH by done. rewrite andb_true_r.
    rewrite forallb_forall in *. intros z Hz.
    apply list_elem_of_In in Hz. rewrite <- insert_desc_perm in Hz.
    apply elem_of_cons in Hz as [->|Hz]; [lia|].
    apply Hy. by apply list_elem_of_In.
  - simpl. rewrite Hy, Hs, !andb_true_r.
    apply andb_true_iff. split; [apply Z.leb_le; lia|].
    rewrite forallb_forall in *. intros z Hz. specialize (Hy z Hz). lia.
Qed.

Lemma sort_desc_sorted {A} (key : A -> Z) l :
  gosort.sorted_desc key (gosort.sort_desc key l) = true.
Proof.
  induction l as [|x l IH]; simpl; [done|]. by apply insert_desc_sorted.
Qed.

(** The insertion sort is one possible outcome of sort.Slice. *)
Lemma sort_desc_Slice {A} (key : A -> Z) l :
  gosort.Slice_desc key l (gosort.sort_desc key l).
Proof. split; [apply sort_desc_perm|apply sort_desc_sorted]. Qed.

Lemma range_keys_spec m keys :
  range_keys m keys ->
  NoDup keys /\ forall p, p ∈ keys <-> is_Some (m !! p).
Proof.
  unfold range_keys. intros H. split.
  - rewrite <- H. apply NoDup_fst_map_to_list.
  - intros p. rewrite <- H, list_elem_of_fmap. split.
    + intros ([k v] & -> & Hkv%elem_of_map_to_list). by exists v.
    + intros [v Hv]. exists (p, v). split; [done|]. by apply elem_of_map_to_list.
Qed.

Lemma order_keys_spec (key : string -> Z) m paths :
  (exists keys, range_keys m keys /\ gosort.Slice_desc key keys paths) ->
  NoDup paths /\ (forall p, p ∈ paths <-> is_Some (m !! p)) /\
  gosort.sorted_desc key paths = true.
Proof.
  intros (keys & [Hnd Hk]%range_keys_spec & Hperm & Hs).
  split; [by rewrite <- Hperm|]. split; [|done].
  intros p. by rewrite <- Hperm.
Qed.

(** Descending length puts every directory before its parent. *)
Lemma len_sorted_parent_after m paths :
  stats_wf m -> (forall p, p ∈ paths -> is_Some (m !! p)) ->
  gosort.sorted_desc len paths = true -> parent_after m paths.
Proof.
  intros Hwf Hkeys Hs l1 c l2 -> [Hne _] _ Hin.
  pose proof (sorted_desc_app len l1 c l2 Hs _ Hin) as Hle.
  destruct (Hkeys c) as [s Hc]; [apply elem_of_app; right; by left|].
  apply Hwf in Hc as [Hc _].
  pose proof (Dir_length c Hc Hne). unfold len in Hle. lia.
Qed.

(** So does descending depth, for the parents that are folded further:
    the root has as many separators as its children, and is folded into
    nothing. *)
Lemma depth_sorted_parent_after m paths :
  stats_wf m -> (forall p, p ∈ paths -> is_Some (m !! p)) ->
  gosort.sorted_desc depth_of paths = true -> parent_after m paths.
Proof.
  intros Hwf Hkeys Hs l1 c l2 -> [Hne _] [Hne' _] Hin.
  pose proof (sorted_desc_app depth_of l1 c l2 Hs _ Hin) as Hle.
  destruct (Hkeys c) as [s Hc]; [apply elem_of_app; right; by left|].
  apply Hwf in Hc as [Hc _].
  pose proof (Dir_Count c Hc Hne Hne'). unfold depth_of in Hle. lia.
Qed.

Lemma TotalSize_bubble ps cs :
  TotalSize (mkDirStat (Path ps) (wrap64 (TotalSize ps + TotalSize cs))
         (wrap64 (FileCount ps + FileCount cs)) (Depth ps))
  = wrap64 (TotalSize ps + TotalSize cs).
Proof. reflexivity. Qed.

Lemma FileCount_bubble ps cs :
  FileCount (mkDirStat (Path ps) (wrap64 (TotalSize ps + TotalSize cs))
         (wrap64 (FileCount ps + FileCount cs)) (Depth ps))
  = wrap64 (FileCount ps + FileCount cs).
Proof. reflexivity. Qed.

(** What the loop computes, for any order that puts children first. *)
Lemma bubble_up_result m paths :
  stats_wf m -> NoDup paths -> (forall p, p ∈ paths <-> is_Some (m !! p)) ->
  parent_after m paths ->
  exists m', bubble_up paths m = Some m' /\
    forall d, match m' !! d, m !! d with
              | Some s, Some s0 =>
                  s = mkDirStat (Path s0) (wrap64 (subtree_sum TotalSize m d))
                        (wrap64 (subtree_sum FileCount m d)) (Depth s0)
              | None, None => True
              | _, _ => False
              end.
Proof.
  intros Hwf Hnd Hkeys Hord.
  assert (forall p, is_Some (m !! p) -> clean_abs p) as Hclean.
  { intros p [s Hs]. by apply Hwf in Hs as [? _]. }
  destruct (bubble_up_conserves m TotalSize TotalSize_bubble) with (paths := paths)
    as (m1 & Hb1 & Hshape1 & Hsize); try done.
  { intros p s Hs. by apply Hwf in Hs as (_ & ? & _). }
  destruct (bubble_up_conserves m FileCount FileCount_bubble) with (paths := paths)
    as (m2 & Hb2 & _ & Hcount); try done.
  { intros p s Hs. by apply Hwf in Hs as (_ & _ & ?). }
  assert (m2 = m1) as -> by congruence.
  exists m1. split; [done|]. intros d. specialize (Hshape1 d).
  destruct (m1 !! d) as [s|] eqn:E, (m !! d) as [s0|]; try done.
  specialize (Hsize d s E). specialize (Hcount d s E).
  destruct s as [p t c dp], Hshape1 as [Hp Hd]. simpl in *. by subst.
Qed.

End OrderFacts.

(* ===================================================================== *)
(** * The walk of scanDirectory                                           *)
(* ===================================================================== *)

Module WalkFacts.
Import gostrings filepath StringFacts PathFacts ParentFacts Int64Facts.

(** Induction on a tree, with the hypothesis for every entry of a
    directory. *)
Lemma entry_rect_forall (P : entry -> Prop) :
  (forall n i, P (File n i)) ->
  (forall n r es, Forall P es -> P (Directory n r es)) ->
  forall d, P d.
Proof.
  intros HF HD. fix IH 1. intros [n i|n r es]; [apply HF|].
  apply HD. induction es as [|e es IHes]; constructor; [apply IH|apply IHes].
Qed.

Lemma walkDir_unfold {S} (fn : string -> visit -> S -> S * option walk_error)
    path d st :
  walkDir fn path d st =
  match fn path (Visit d) st with
  | (st1, Some e) => (st1, skipdir_to_nil (IsDir d) e)
  | (st1, None) =>
      match d with
      | File _ _ => (st1, None)
      | Directory _ readErr dirs =>
          let '(st2, err) :=
            if readErr then fn path (VisitErr (Some d)) st1 else (st1, None) in
          match err with
          | Some e => (st2, skipdir_to_nil true e)
          | None => walkEntries fn path dirs st2
          end
      end
  end.
Proof.
  destruct d as [n i|n r es]; [reflexivity|]. simpl.
  destruct (fn path (Visit (Directory n r es)) st) as [st1 [e|]]; [done|].
  destruct (if r then _ else _) as [st2 [e|]]; [done|].
  revert st2. induction es as [|e es IH]; intros st2; simpl; [done|].
  destruct (walkDir fn (Join path (Name e)) e st2) as [st' [[]|]]; try done.
Qed.

Lemma walkEntries_cons {S} (fn : string -> visit -> S -> S * option walk_error)
    path d1 rest st :
  walkEntries fn path (d1 :: rest) st =
  match walkDir fn (Join path (Name d1)) d1 st with
  | (st', None) => walkEntries fn path rest st'
  | (st', Some SkipDir) => (st', None)
  | (st', Some e) => (st', Some e)
  end.
Proof. reflexivity. Qed.

Section Scan.
Variable cfg : config.
Variable rd : Z.

(** The walk function answers nil, or SkipDir on a directory that it
    leaves unrecorded. *)
Lemma scan_fn_Visit path d st :
  (scan_fn cfg rd path (Visit d) st).2 = None \/
  (scan_fn cfg rd path (Visit d) st = (st, Some SkipDir) /\ IsDir d = true).
Proof.
  unfold scan_fn. destruct d as [n [z|]|n r es]; simpl;
    repeat match goal with |- context [if ?b then _ else _] => destruct b end;
    auto.
Qed.

Lemma scan_fn_VisitErr path d st :
  scan_fn cfg rd path (VisitErr d) st =
  (if verbose cfg
   then mkScan (dirStats st) (count st) (printed st ++ [WarnAccess path])
   else st, None).
Proof. reflexivity. Qed.

Lemma walkEntries_record es : forall path st,
  Forall (fun e => forall path st,
            walkDir (scan_fn cfg rd) path e st = (record cfg rd path e st, None)) es ->
  walkEntries (scan_fn cfg rd) path es st =
  (foldl (fun st e => record cfg rd (Join path (Name e)) e st) st es, None).
Proof.
  induction es as [|e es IH]; intros path st H; [done|].
  inversion H as [|? ? He Hes]; subst. simpl. rewrite He. by apply IH.
Qed.

(** The walk never stops early and returns no error. *)
Lemma walkDir_record d : forall path st,
  walkDir (scan_fn cfg rd) path d st = (record cfg rd path d st, None).
Proof.
  induction d as [n i|n r es IH] using entry_rect_forall; intros path st;
    rewrite walkDir_unfold.
  - destruct (scan_fn_Visit path (File n i) st) as [H|[_ H]]; [|done].
    change (record cfg rd path (File n i) st)
      with ((scan_fn cfg rd path (Visit (File n i)) st).1).
    by destruct (scan_fn cfg rd path (Visit (File n i)) st) as [st1 [e|]].
  - change (record cfg rd path (Directory n r es) st) with
      (match scan_fn cfg rd path (Visit (Directory n r es)) st with
       | (st1, Some _) => st1
       | (st1, None) =>
           foldl (fun st e => record cfg rd (Join path (Name e)) e st)
             (if r then (scan_fn cfg rd path
                           (VisitErr (Some (Directory n r es))) st1).1
              else st1) es
       end).
    destruct (scan_fn_Visit path (Directory n r es) st) as [H|[H _]].
    + destruct (scan_fn cfg rd path (Visit (Directory n r es)) st) as [st1 [e|]];
        [done|].
      rewrite scan_fn_VisitErr. destruct r; simpl; by apply walkEntries_record.
    + by rewrite H.
Qed.

Lemma WalkDir_scan fs root st :
  WalkDir (scan_fn cfg rd) fs root st =
  (match Lstat fs root with
   | Some d => record cfg rd root d st
   | None => (scan_fn cfg rd root (VisitErr None) st).1
   end, None).
Proof.
  unfold WalkDir. destruct (Lstat fs root) as [d|].
  - by rewrite walkDir_record.
  - by rewrite scan_fn_VisitErr.
Qed.

End Scan.

Lemma scanDirectory_record cfg fs root m out :
  scanDirectory cfg fs root m out =
  let st := match Lstat fs root with
            | Some d => record cfg (depth_of root) root d (mkScan m 0 out)
            | None => (scan_fn cfg (depth_of root) root (VisitErr None)
                         (mkScan m 0 out)).1
            end in
  (dirStats st, printed st, count st).
Proof. unfold scanDirectory. by rewrite WalkDir_scan. Qed.

End WalkFacts.

Module ScanFacts.
Import gostrings filepath StringFacts PathFacts ParentFacts Int64Facts WalkFacts.

Section Record.
Variable cfg : config.
Variable rd : Z.

Lemma record_File path n i st :
  record cfg rd path (File n i) st =
  if too_deep cfg rd path then st
  else match i with
       | Some size =>
           mkScan (record_file (Dir path) size (dirStats st))
             (wrap64 (count st + 1)) (printed st)
       | None => st
       end.
Proof.
  unfold too_deep. simpl. unfold scan_fn. simpl.
  destruct (negb _ && _); [done|]. by destruct i.
Qed.

Lemma record_Directory path n r es st :
  record cfg rd path (Directory n r es) st =
  if excluded cfg path || too_deep cfg rd path then st
  else foldl (fun st e => record cfg rd (Join path (Name e)) e st)
         (let st1 := mkScan (getDirStat path (dirStats st)) (count st)
                       (printed st) in
          if r then warn_access cfg path st1 else st1)
         es.
Proof.
  unfold too_deep, excluded.
  change (record cfg rd path (Directory n r es) st) with
    (match scan_fn cfg rd path (Visit (Directory n r es)) st with
     | (st1, Some _) => st1
     | (st1, None) =>
         foldl (fun st e => record cfg rd (Join path (Name e)) e st)
           (if r then (scan_fn cfg rd path
                         (VisitErr (Some (Directory n r es))) st1).1
            else st1) es
     end).
  unfold scan_fn at 1. simpl.
  destruct (default false (excludeMap cfg !! path)); [done|]. simpl.
  by destruct (negb _ && _).
Qed.

(** ** Exclusion *)

Lemma Name_prune path d : Name (prune cfg path d) = Name d.
Proof. by destruct d. Qed.

Lemma IsDir_prune path d : IsDir (prune cfg path d) = IsDir d.
Proof. by destruct d. Qed.

Lemma record_excluded path d st :
  IsDir d = true -> excluded cfg path = true -> record cfg rd path d st = st.
Proof.
  destruct d as [|n r es]; [done|]. intros _ H.
  by rewrite record_Directory, H.
Qed.

Lemma record_prune d : forall path st,
  record cfg rd path (prune cfg path d) st = record cfg rd path d st.
Proof.
  induction d as [n i|n r es IH] using entry_rect_forall; intros path st;
    [done|].
  simpl prune. rewrite !record_Directory.
  destruct (excluded cfg path || too_deep cfg rd path); [done|].
  generalize (let st1 := mkScan (getDirStat path (dirStats st)) (count st)
                       (printed st) in
              if r then warn_access cfg path st1 else st1).
  induction es as [|e es IHes]; intros st0; [done|].
  inversion IH as [|? ? He Hes]; subst. simpl.
  destruct (IsDir e && excluded cfg (Join path (Name e))) eqn:E.
  - apply andb_true_iff in E as [E1 E2].
    rewrite (record_excluded _ e) by done. by apply IHes.
  - simpl. rewrite Name_prune, He. by apply IHes.
Qed.

(** ** Well-formedness of the collection *)

Lemma getDirStat_wf p m : stats_wf m -> clean_abs p -> stats_wf (getDirStat p m).
Proof.
  intros Hm Hp. unfold getDirStat. destruct (m !! p) eqn:E; [done|].
  intros q s. destruct (decide (q = p)) as [->|Hne].
  - rewrite lookup_insert_eq. intros [= <-]. simpl.
    split; [done|]. split; apply in_int64_0.
  - rewrite lookup_insert_ne by done. apply Hm.
Qed.

Lemma record_file_wf p size m :
  stats_wf m -> clean_abs p -> stats_wf (record_file p size m).
Proof.
  intros Hm Hp. unfold record_file.
  pose proof (getDirStat_wf p m Hm Hp) as Hg.
  destruct (getDirStat p m !! p) as [s|] eqn:E; [|done].
  intros q s'. destruct (decide (q = p)) as [->|Hne].
  - rewrite lookup_insert_eq. intros [= <-]. simpl.
    split; [done|]. split; apply wrap64_in.
  - rewrite lookup_insert_ne by done. apply Hg.
Qed.

Lemma warn_access_dirStats path st :
  dirStats (warn_access cfg path st) = dirStats st.
Proof. unfold warn_access. by destruct (verbose cfg). Qed.

Lemma record_wf d : forall path st,
  valid_tree d = true -> clean_abs path ->
  stats_wf (dirStats st) -> stats_wf (dirStats (record cfg rd path d st)).
Proof.
  induction d as [n i|n r es IH] using entry_rect_forall;
    intros path st Hv Hp Hst.
  - rewrite record_File. destruct (too_deep cfg rd path); [done|].
    destruct i; [|done]. simpl. apply record_file_wf; [done|].
    by apply clean_abs_Dir.
  - rewrite record_Directory.
    destruct (excluded cfg path || too_deep cfg rd path); [done|].
    assert (stats_wf (dirStats
      (let st1 := mkScan (getDirStat path (dirStats st)) (count st)
                       (printed st) in
       if r then warn_access cfg path st1 else st1))) as H0.
    { destruct r; simpl; rewrite ?warn_access_dirStats; by apply getDirStat_wf. }
    revert H0. generalize (let st1 := mkScan (getDirStat path (dirStats st)) (count st)
                       (printed st) in
              if r then warn_access cfg path st1 else st1).
    simpl in Hv. induction es as [|e es IHes]; intros st0 H0; [done|].
    inversion IH as [|? ? He Hes]; subst. simpl in Hv.
    apply andb_true_iff in Hv as [[Hn Hve]%andb_true_iff Hv].
    apply bool_decide_eq_true in Hn.
    simpl. apply IHes; [done|done|].
    apply He; [done| |done]. by apply Join_clean_abs.
Qed.

End Record.

Lemma resolve_valid comps : forall d e,
  valid_tree d = true -> resolve comps d = Some e -> valid_tree e = true.
Proof.
  induction comps as [|c comps IH]; intros d e Hv; simpl.
  - by intros [= <-].
  - destruct d as [|n r es]; [done|].
    destruct (find _ es) as [e'|] eqn:E; [|done].
    apply IH. simpl in Hv. rewrite forallb_forall in Hv.
    apply find_some in E as [Hin _]. specialize (Hv e' Hin).
    by apply andb_true_iff in Hv as [_ ?].
Qed.

Lemma Abs_clean_abs cfg p a :
  cwd_rooted cfg -> Abs (cwd cfg) p = Some a -> clean_abs a.
Proof.
  intros Hcwd. unfold Abs. destruct (IsAbs p) eqn:Hp.
  - intros [= <-]. by apply Clean_rooted.
  - destruct (cwd cfg) as [wd|] eqn:Hwd; [|done]. intros [= <-].
    specialize (Hcwd wd Hwd). unfold Join.
    case_bool_decide as Hwd0; [by subst|].
    apply Clean_rooted. by apply IsAbs_app.
Qed.

Lemma stats_wf_empty : stats_wf ∅.
Proof. intros p s. by rewrite lookup_empty. Qed.

Lemma scanDirectory_wf cfg fs root m out :
  valid_tree fs = true -> clean_abs root -> stats_wf m ->
  stats_wf (scanDirectory cfg fs root m out).1.1.
Proof.
  intros Hfs Hroot Hm. rewrite scanDirectory_record. simpl.
  destruct (Lstat fs root) as [d|] eqn:E.
  - apply record_wf; try done. by eapply resolve_valid.
  - unfold warn_access. simpl. by destruct (verbose cfg).
Qed.

Lemma scan_step_wf cfg fs acc root :
  valid_tree fs = true -> cwd_rooted cfg ->
  stats_wf acc.1.1 -> stats_wf (scan_step cfg fs acc root).1.1.
Proof.
  intros Hfs Hcwd. destruct acc as [[m out] total]. simpl. intros Hm.
  destruct (Abs (cwd cfg) root) as [absRoot|] eqn:E; [|done].
  pose proof (scanDirectory_wf cfg fs absRoot m out Hfs
                (Abs_clean_abs _ _ _ Hcwd E) Hm) as H.
  by destruct (scanDirectory cfg fs absRoot m out) as [[m' out'] n].
Qed.

(** The traversal leaves a well-formed collection. *)
Lemma scan_roots_wf cfg fs targetPaths :
  valid_tree fs = true -> cwd_rooted cfg ->
  stats_wf (scan_roots cfg fs targetPaths).1.1.
Proof.
  intros Hfs Hcwd. unfold scan_roots.
  assert (stats_wf (∅ : gmap string DirStat, [] : list diagnostic, 0).1.1)
    as H by apply stats_wf_empty.
  revert H. generalize (∅ : gmap string DirStat, [] : list diagnostic, 0).
  induction targetPaths as [|r rs IH]; intros acc Hacc; [done|].
  simpl. apply IH. by apply scan_step_wf.
Qed.

Lemma stats_wf_check_sound m : stats_wf_check m = true -> stats_wf m.
Proof.
  unfold stats_wf_check. rewrite forallb_forall. intros H p s Hps.
  specialize (H (p, s)). simpl in H.
  rewrite !andb_true_iff in H.
  destruct H as [[[[H1 H2] H3] H4] H5].
  { apply list_elem_of_In. by apply elem_of_map_to_list. }
  apply is_clean_abs_spec in H1. unfold in_int64.
  repeat split; try done; lia.
Qed.

End ScanFacts.

(* ===================================================================== *)
(** * removeSubdirectories                                                *)
(* ===================================================================== *)

Module NormalizeFacts.
Import gostrings filepath StringFacts PathFacts ParentFacts ScanFacts.

Lemma insert_string_elem x l y :
  y ∈ gosort.insert_string x l <-> y = x \/ y ∈ l.
Proof.
  induction l as [|z l IH]; simpl.
  - rewrite list_elem_of_singleton, elem_of_nil. tauto.
  - destruct (String.leb x z); rewrite !elem_of_cons; [tauto|].
    rewrite IH. tauto.
Qed.

Lemma Strings_elem l y : y ∈ gosort.Strings l <-> y ∈ l.
Proof.
  induction l as [|x l IH]; simpl; [done|].
  rewrite insert_string_elem, elem_of_cons, IH. tauto.
Qed.

Lemma insert_string_sorted x l :
  StronglySorted String.le l ->
  StronglySorted String.le (gosort.insert_string x l).
Proof.
  induction 1 as [|y l Hs IH Hy]; simpl; [repeat constructor|].
  destruct (String.leb x y) eqn:E.
  - constructor; [by constructor|].
    assert (String.le x y) as Hxy by (unfold String.le; by rewrite E).
    constructor; [done|]. eapply Forall_impl; [exact Hy|].
    intros z Hz. by etrans.
  - constructor; [done|]. apply Forall_forall. intros z Hz.
    apply insert_string_elem in Hz as [->|Hz].
    + destruct (total String.le x y) as [H|H]; [|done].
      unfold String.le in H. by rewrite E in H.
    + rewrite Forall_forall in Hy. by apply Hy.
Qed.

Lemma Strings_sorted l : StronglySorted String.le (gosort.Strings l).
Proof.
  induction l as [|x l IH]; simpl; [constructor|]. by apply insert_string_sorted.
Qed.

(** Sorting a sorted list changes nothing. *)
Lemma Strings_sorted_id l :
  StronglySorted String.le l -> gosort.Strings l = l.
Proof.
  induction 1 as [|x l Hs IH Hx]; [done|]. simpl. rewrite IH.
  destruct l as [|y l]; [done|]. simpl.
  inversion Hx as [|? ? Hxy _]; subst. unfold String.le in Hxy.
  by destruct (String.leb x y).
Qed.

Lemma sweep_sweep_from l : forall clean,
  sweep clean l = clean ++ sweep_from (last clean) l.
Proof.
  induction l as [|p rest IH]; intros clean; simpl; [by rewrite app_nil_r|].
  destruct (last clean) as [lst|] eqn:E.
  - destruct (covered_by lst p).
    + by rewrite IH, E.
    + by rewrite IH, last_snoc, <- app_assoc.
  - by rewrite IH, last_snoc, <- app_assoc.
Qed.

Lemma sweep_from_elem l : forall lst x, x ∈ sweep_from lst l -> x ∈ l.
Proof.
  induction l as [|p rest IH]; intros lst x; simpl; [done|].
  destruct lst as [lst|]; [destruct (covered_by lst p)|];
    rewrite ?elem_of_cons; intros H; try (right; by eapply IH);
    destruct H as [->|H]; [by left|right; by eapply IH|by left|right; by eapply IH].
Qed.

Lemma sweep_from_sorted l : forall lst,
  StronglySorted String.le l -> StronglySorted String.le (sweep_from lst l).
Proof.
  induction l as [|p rest IH]; intros lst Hs; simpl; [constructor|].
  apply StronglySorted_inv in Hs as [Hs Hp].
  assert (StronglySorted String.le (p :: sweep_from (Some p) rest)) as Hkeep.
  { constructor; [by apply IH|]. apply Forall_forall. intros x Hx.
    rewrite Forall_forall in Hp. apply Hp. by eapply sweep_from_elem. }
  destruct lst as [lst|]; [|done]. destruct (covered_by lst p); [by apply IH|done].
Qed.

(** A path accepted by the sweep is accepted again. *)
Lemma sweep_from_idem l : forall lst,
  sweep_from lst (sweep_from lst l) = sweep_from lst l.
Proof.
  induction l as [|p rest IH]; intros lst; simpl; [done|].
  destruct lst as [lst|].
  - destruct (covered_by lst p) eqn:E; [by apply IH|].
    simpl. by rewrite E, IH.
  - simpl. by rewrite IH.
Qed.

Lemma Abs_fixed cwd p : clean_abs p -> Abs cwd p = Some p.
Proof.
  intros (cs & Hcs & ->). unfold Abs.
  by rewrite IsAbs_abs_of, Clean_abs_of.
Qed.

Lemma absolute_paths_fixed cwd l :
  Forall clean_abs l -> absolute_paths cwd l = l.
Proof.
  unfold absolute_paths. induction 1 as [|p l Hp _ IH]; [done|].
  simpl. rewrite Abs_fixed by done. simpl. f_equal. exact IH.
Qed.

Lemma absolute_paths_clean cwd l :
  getwd_rooted cwd -> Forall clean_abs (absolute_paths cwd l).
Proof.
  intros Hcwd. apply Forall_forall. intros a Ha.
  apply list_elem_of_omap in Ha as (p & _ & Ha).
  by apply (Abs_clean_abs (mkConfig ∅ 0 0 false cwd) p a).
Qed.

Lemma removeSubdirectories_eq cwd l :
  removeSubdirectories cwd l =
  sweep_from None (gosort.Strings (absolute_paths cwd l)).
Proof. destruct l; [done|]. unfold removeSubdirectories. by rewrite sweep_sweep_from. Qed.

Lemma removeSubdirectories_clean cwd l :
  getwd_rooted cwd -> Forall clean_abs (removeSubdirectories cwd l).
Proof.
  intros Hcwd. rewrite removeSubdirectories_eq. apply Forall_forall.
  intros x Hx. apply sweep_from_elem in Hx. rewrite Strings_elem in Hx.
  pose proof (absolute_paths_clean cwd l Hcwd) as H.
  rewrite Forall_forall in H. by apply H.
Qed.

Lemma insert_string_perm x l : Permutation (x :: l) (gosort.insert_string x l).
Proof.
  induction l as [|y l IH]; simpl; [done|].
  destruct (String.leb x y); [done|].
  rewrite perm_swap. by constructor.
Qed.

Lemma Strings_perm l : Permutation l (gosort.Strings l).
Proof.
  induction l as [|x l IH]; simpl; [done|].
  rewrite <- insert_string_perm. by constructor.
Qed.

(** The test of the sweep is the test [path_under]. *)
Lemma covered_by_path_under lst p : covered_by lst p = path_under lst p.
Proof.
  unfold covered_by, path_under, VolumeName. rewrite sapp_nil_l.
  destruct (bool_decide (p = lst)); [done|]. simpl.
  destruct (HasPrefix p (lst +:+ Sep)); [done|]. simpl.
  by destruct (bool_decide (lst = Sep) && HasPrefix p lst).
Qed.

(** The sweep keeps a list in which no path covers a later one. *)
Lemma sweep_from_keep l : forall lst,
  (forall q, lst = Some q -> Forall (fun p => covered_by q p = false) l) ->
  StronglySorted (fun q p => covered_by q p = false) l ->
  sweep_from lst l = l.
Proof.
  induction l as [|p rest IH]; intros lst Hlst Hs; [done|].
  apply StronglySorted_inv in Hs as [Hs Hp]. simpl.
  assert (p :: sweep_from (Some p) rest = p :: rest) as Hkeep.
  { f_equal. apply IH; [|done]. by intros q [= <-]. }
  destruct lst as [q|]; [|done].
  specialize (Hlst q eq_refl). inversion Hlst as [|? ? Hq _]; subst.
  by rewrite Hq.
Qed.

Lemma independent_sorted (l : list string) :
  NoDup l ->
  (forall x y, x ∈ l -> y ∈ l -> path_under x y = true -> x = y) ->
  StronglySorted (fun q p => covered_by q p = false) l.
Proof.
  induction l as [|x l IH]; intros Hnd Hind; [constructor|].
  apply NoDup_cons in Hnd as [Hx Hnd]. constructor.
  - apply IH; [done|]. intros y z Hy Hz. apply Hind; by right.
  - apply Forall_forall. intros y Hy.
    destruct (covered_by x y) eqn:E; [|done].
    rewrite covered_by_path_under in E.
    apply Hind in E; [by subst|by left|by right].
Qed.

End NormalizeFacts.

Module DepthFacts.
Import gostrings filepath StringFacts PathFacts ParentFacts ScanFacts WalkFacts.

(** An entry one level below a root other than "/" is at depth 1. *)
Lemma child_depth root c :
  clean_abs root -> root <> "/" -> valid_name c ->
  depth_of (Join root c) - depth_of root = 1.
Proof.
  intros Hr Hne Hc. unfold depth_of. rewrite Join_Count by done.
  rewrite bool_decide_eq_false_2 by done. lia.
Qed.

Lemma record_too_deep cfg rd path d st :
  too_deep cfg rd path = true -> record cfg rd path d st = st.
Proof.
  intros H. destruct d as [n i|n r es].
  - by rewrite record_File, H.
  - by rewrite record_Directory, H, orb_true_r.
Qed.

Lemma foldl_record_too_deep cfg root es : forall st,
  maxDepth cfg = 0 -> clean_abs root -> root <> "/" ->
  forallb (fun e => bool_decide (valid_name (Name e)) && valid_tree e) es = true ->
  foldl (fun st e => record cfg (depth_of root) (Join root (Name e)) e st) st es
  = st.
Proof.
  intros st Hmax Hr Hne. revert st.
  induction es as [|e es IH]; intros st Hv; [done|].
  simpl in Hv. apply andb_true_iff in Hv as [[Hn _]%andb_true_iff Hv].
  apply bool_decide_eq_true in Hn. simpl.
  rewrite record_too_deep; [by apply IH|].
  unfold too_deep. rewrite Hmax, child_depth by done. done.
Qed.

End DepthFacts.

Module TableFacts.

Lemma rows_take (l : list DirStat) (n : nat) :
  (n <= length l)%nat ->
  mapM (fun i => l !! Z.to_nat i) (seqZ 0 (Z.of_nat n)) = Some (take n l).
Proof.
  intros Hn. apply mapM_Some_2, Forall2_same_length_lookup_2.
  - rewrite length_seqZ, length_take. lia.
  - intros i x y Hx Hy. apply lookup_seqZ in Hx as [-> Hi].
    rewrite lookup_take_lt in Hy by lia.
    by rewrite Z.add_0_l, Nat2Z.id.
Qed.

Lemma printTable_take topN (l : list DirStat) :
  0 <= topN -> printTable topN l = Some (take (Z.to_nat topN) l).
Proof.
  intros H. unfold printTable. destruct (Z.ltb_spec (Z.of_nat (length l)) topN).
  - rewrite rows_take by done. rewrite !firstn_all2; [done|lia|lia].
  - rewrite <- (Z2Nat.id topN) at 1 by done. apply rows_take. lia.
Qed.

End TableFacts.

Import gostrings filepath StringFacts PathFacts ParentFacts Int64Facts SumFacts.
Import AggregateFacts AggregateInv OrderFacts WalkFacts ScanFacts.
Import NormalizeFacts DepthFacts TableFacts.

(* ===================================================================== *)
(** * The properties of the specification                                 *)
(* ===================================================================== *)

Lemma aggregate_order_result m paths :
  stats_wf m -> aggregate_order m paths ->
  exists m', bubble_up paths m = Some m' /\
    forall d, match m' !! d, m !! d with
              | Some s, Some s0 =>
                  s = mkDirStat (Path s0) (wrap64 (subtree_sum TotalSize m d))
                        (wrap64 (subtree_sum FileCount m d)) (Depth s0)
              | None, None => True
              | _, _ => False
              end.
Proof.
  intros Hwf (Hnd & Hkeys & Hs)%order_keys_spec.
  apply bubble_up_result; try done.
  apply len_sorted_parent_after; try done. intros p. apply Hkeys.
Qed.

Lemma depth_order_result m paths :
  stats_wf m -> depth_order m paths ->
  exists m', bubble_up paths m = Some m' /\
    forall d, match m' !! d, m !! d with
              | Some s, Some s0 =>
                  s = mkDirStat (Path s0) (wrap64 (subtree_sum TotalSize m d))
                        (wrap64 (subtree_sum FileCount m d)) (Depth s0)
              | None, None => True
              | _, _ => False
              end.
Proof.
  intros Hwf (Hnd & Hkeys & Hs)%order_keys_spec.
  apply bubble_up_result; try done.
  apply depth_sorted_parent_after; try done. intros p. apply Hkeys.
Qed.

Lemma aggregateStats_runs m :
  aggregate_order m (gosort.sort_desc len (map_to_list m).*1).
Proof.
  exists (map_to_list m).*1. split; [apply Permutation_refl|].
  apply sort_desc_Slice.
Qed.

Lemma scenario_stats_wf : stats_wf Scenario.stats.
Proof. apply stats_wf_check_sound. vm_compute. reflexivity. Qed.


(** C2, as the code has it: the paths are ordered by descending string
    length, and every directory comes before its parent. *)
Theorem aggregate_order_children_first m paths :
  stats_wf m -> aggregate_order m paths ->
  gosort.sorted_desc len paths = true /\
  forall l1 c l2, paths = l1 ++ c :: l2 -> Dir c <> c -> Dir c ∉ l1.
Proof.
  intros Hwf (Hnd & Hkeys & Hs)%order_keys_spec. split; [done|].
  intros l1 c l2 -> Hne Hin.
  pose proof (sorted_desc_app len l1 c l2 Hs _ Hin) as Hle.
  destruct (proj1 (Hkeys c)) as [s Hc]; [apply elem_of_app; right; by left|].
  apply Hwf in Hc as [Hc _].
  pose proof (Dir_length c Hc Hne). unfold len in Hle. lia.
Qed.

Lemma aggregate_order_children_first_witness :
  stats_wf Scenario.stats /\
  aggregate_order Scenario.stats
    (gosort.sort_desc len (map_to_list Scenario.stats).*1) /\
  gosort.sorted_desc len
    (gosort.sort_desc len (map_to_list Scenario.stats).*1) = true /\
  forall l1 c l2,
    gosort.sort_desc len (map_to_list Scenario.stats).*1 = l1 ++ c :: l2 ->
    Dir c <> c -> Dir c ∉ l1.
Proof.
  split; [exact scenario_stats_wf|]. split; [apply aggregateStats_runs|].
  apply (aggregate_order_children_first Scenario.stats).
  - exact scenario_stats_wf.
  - apply aggregateStats_runs.
Defined.

(** C2, as stated, fails: for the directories "/", "/aaaa", "/b", "/b/c"
    the order of the code starts with "/aaaa" (one separator), before
    "/b/c" (two separators). *)
Lemma aggregate_order_not_by_depth :
  ~ (forall paths, aggregate_order Scenario.uneven_stats paths ->
       gosort.sorted_desc depth_of paths = true).
Proof.
  intros H. specialize (H _ (aggregateStats_runs Scenario.uneven_stats)).
  vm_compute in H. discriminate.
Qed.

(** C3, as the code has it: with maxDepth = 0 and a root directory other
    than "/", no file is counted, neither below a subdirectory nor directly
    in the root; only the root itself is recorded. *)
Theorem scanDirectory_maxDepth0 cfg fs root n r es m out :
  maxDepth cfg = 0 -> valid_tree fs = true ->
  clean_abs root -> root <> "/" ->
  Lstat fs root = Some (Directory n r es) ->
  (scanDirectory cfg fs root m out).1.1
    = (if excluded cfg root then m else getDirStat root m) /\
  (scanDirectory cfg fs root m out).2 = 0.
Proof.
  intros Hmax Hfs Hr Hne Hl. rewrite scanDirectory_record, Hl.
  cbv zeta. cbn [fst snd]. rewrite record_Directory.
  assert (too_deep cfg (depth_of root) root = false) as ->.
  { unfold too_deep. rewrite Hmax, Z.sub_diag. done. }
  rewrite orb_false_r. destruct (excluded cfg root); [done|].
  rewrite foldl_record_too_deep; try done.
  - destruct r; simpl; unfold warn_access; by destruct (verbose cfg).
  - by apply (resolve_valid _ _ _ Hfs Hl).
Qed.

Lemma scanDirectory_maxDepth0_witness :
  (scanDirectory Scenario.depth0_config Scenario.shallow_tree "/root" ∅ []).1.1
    = (if excluded Scenario.depth0_config "/root" then ∅
       else getDirStat "/root" ∅) /\
  (scanDirectory Scenario.depth0_config Scenario.shallow_tree "/root" ∅ []).2 = 0.
Proof.
  apply (scanDirectory_maxDepth0 Scenario.depth0_config Scenario.shallow_tree
           "/root" "root" false
           [File "f" (Some 100); Directory "sub" false [File "g" (Some 7)]]).
  - reflexivity.
  - vm_compute. reflexivity.
  - apply is_clean_abs_spec. vm_compute. reflexivity.
  - discriminate.
  - vm_compute. reflexivity.
Defined.

(** C3, as stated, fails: /root holds the file f of 100 bytes, and with
    maxDepth = 0 the scan of /root counts nothing for /root. *)
Lemma maxDepth0_skips_direct_files :
  let res := scanDirectory Scenario.depth0_config Scenario.shallow_tree
               "/root" ∅ [] in
  res.2 = 0 /\
  res.1.1 !! "/root" = Some (mkDirStat "/root" 0 0 0) /\
  ~ (exists s, res.1.1 !! "/root" = Some s /\
               TotalSize s = 100 /\ FileCount s = 1).
Proof.
  split; [vm_compute; reflexivity|].
  assert ((scanDirectory Scenario.depth0_config Scenario.shallow_tree
             "/root" ∅ []).1.1 !! "/root" = Some (mkDirStat "/root" 0 0 0)) as E
    by (vm_compute; reflexivity).
  split; [exact E|]. intros (s & Hs & Ht & _).
  cbv zeta in Hs. rewrite E in Hs. injection Hs as <-. discriminate.
Qed.

(** C4 fails on the code: removeSubdirectories keeps "/a/b" next to "/a"
    when "/a-b" sorts between them, and the file below /a/b is then counted
    twice.  For the inputs "/a" and "/a/b" alone the result is "/a". *)
Theorem removeSubdirectories_keeps_nested_root :
  let targetPaths := removeSubdirectories (Some "/") Scenario.overlap_roots in
  targetPaths = ["/a"; "/a-b"; "/a/b"] /\
  path_under "/a" "/a/b" = true /\ "/a/b" <> "/a" /\
  (exists m',
     aggregateStats
       (scan_roots default_config Scenario.overlap_tree targetPaths).1.1
     = Some m' /\
     m' !! "/a" = Some (mkDirStat "/a" 20 2 0)) /\
  removeSubdirectories (Some "/") ["/a"; "/a/b"] = ["/a"].
Proof.
  cbv zeta. split; [vm_compute; reflexivity|].
  split; [vm_compute; reflexivity|]. split; [discriminate|].
  split; [|vm_compute; reflexivity].
  match goal with |- context [aggregateStats ?X] =>
    assert ((fun m : gmap string DirStat => m !! "/a") <$> aggregateStats X
            = Some (Some (mkDirStat "/a" 20 2 0))) as H
      by (vm_compute; reflexivity);
    destruct (aggregateStats X) as [m'|]; [|discriminate]
  end.
  exists m'. split; [done|]. by injection H.
Qed.

(** C5, as the code has it: a directory whose path is on the exclusion
    list is not recorded and not descended into, so the walk leaves the
    same collection as on the tree without the excluded directories. *)
Theorem excluded_directory_pruned cfg rd :
  (forall path d st, IsDir d = true -> excluded cfg path = true ->
     walkDir (scan_fn cfg rd) path d st = (st, None)) /\
  (forall path d st,
     walkDir (scan_fn cfg rd) path (prune cfg path d) st
     = walkDir (scan_fn cfg rd) path d st) /\
  (forall fs fs' root d m out,
     Lstat fs root = Some d -> Lstat fs' root = Some (prune cfg root d) ->
     scanDirectory cfg fs' root m out = scanDirectory cfg fs root m out).
Proof.
  split; [|split].
  - intros path d st Hd He. by rewrite walkDir_record, record_excluded.
  - intros path d st. by rewrite !walkDir_record, record_prune.
  - intros fs fs' root d m out H H'.
    by rewrite !scanDirectory_record, H, H', record_prune.
Qed.

Lemma excluded_directory_pruned_witness :
  walkDir (scan_fn default_config 1) "/proc"
    (Directory "proc" false [File "meminfo" (Some 5)]) (mkScan ∅ 0 [])
  = (mkScan ∅ 0 [], None).
Proof.
  apply (proj1 (excluded_directory_pruned default_config 1)).
  - reflexivity.
  - vm_compute. reflexivity.
Defined.

(** C5, as stated, fails for a file: "/run" is on the exclusion list, and
    a regular file at "/run" is counted for "/". *)
Lemma excluded_file_is_counted :
  let res := scanDirectory default_config Scenario.run_file_tree "/" ∅ [] in
  excluded default_config "/run" = true /\
  res.2 = 1 /\ res.1.1 !! "/" = Some (mkDirStat "/" 7 1 0).
Proof. repeat split; vm_compute; reflexivity. Qed.

(** C6: on a collection produced by the traversal, the sweep in an order
    of descending string length and the sweep in an order of descending
    separator count both run to the end and leave the same collection. *)
Theorem length_order_same_totals cfg fs targetPaths paths_len paths_depth :
  valid_tree fs = true -> cwd_rooted cfg ->
  aggregate_order (scan_roots cfg fs targetPaths).1.1 paths_len ->
  depth_order (scan_roots cfg fs targetPaths).1.1 paths_depth ->
  is_Some (aggregateStats_with paths_len (scan_roots cfg fs targetPaths).1.1) /\
  aggregateStats_with paths_len (scan_roots cfg fs targetPaths).1.1
  = aggregateStats_with paths_depth (scan_roots cfg fs targetPaths).1.1.
Proof.
  intros Hfs Hcwd Hlen Hdepth.
  pose proof (scan_roots_wf cfg fs targetPaths Hfs Hcwd) as Hwf.
  destruct (aggregate_order_result _ _ Hwf Hlen) as (m1 & Hb1 & H1).
  destruct (depth_order_result _ _ Hwf Hdepth) as (m2 & Hb2 & H2).
  unfold aggregateStats_with. rewrite Hb1, Hb2. split; [done|].
  f_equal. apply map_eq. intros d. specialize (H1 d). specialize (H2 d).
  destruct (m1 !! d), (m2 !! d), ((scan_roots cfg fs targetPaths).1.1 !! d);
    try done. by subst.
Qed.

Lemma length_order_same_totals_witness :
  let m := (scan_roots default_config Scenario.uneven_tree ["/"]).1.1 in
  is_Some (aggregateStats_with (gosort.sort_desc len (map_to_list m).*1) m) /\
  aggregateStats_with (gosort.sort_desc len (map_to_list m).*1) m
  = aggregateStats_with (gosort.sort_desc depth_of (map_to_list m).*1) m.
Proof.
  apply (length_order_same_totals default_config Scenario.uneven_tree ["/"]).
  - vm_compute. reflexivity.
  - intros wd H. injection H as <-. reflexivity.
  - apply aggregateStats_runs.
  - eexists. split; [apply Permutation_refl|]. apply sort_desc_Slice.
Defined.

(** C7: no error stops the run.  The walk of a root never returns an
    error; a file whose Info fails is skipped and its siblings are walked;
    a directory that cannot be read is recorded, warned about when verbose,
    and the entries that were read are walked; a root that cannot be
    resolved or opened leaves the collection as it is; and the loop goes
    on with the roots after it. *)
Theorem scan_errors_not_fatal cfg fs :
  (forall rd root st, (WalkDir (scan_fn cfg rd) fs root st).2 = None) /\
  (forall rd path n rest st,
     walkEntries (scan_fn cfg rd) path (File n None :: rest) st
     = walkEntries (scan_fn cfg rd) path rest st) /\
  (forall rd path n es st,
     excluded cfg path || too_deep cfg rd path = false ->
     walkDir (scan_fn cfg rd) path (Directory n true es) st
     = walkEntries (scan_fn cfg rd) path es
         (warn_access cfg path
            (mkScan (getDirStat path (dirStats st)) (count st) (printed st)))) /\
  (forall m out total root,
     Abs (cwd cfg) root = None \/
     (exists a, Abs (cwd cfg) root = Some a /\ Lstat fs a = None) ->
     (scan_step cfg fs (m, out, total) root).1.1 = m /\
     (in_int64 total -> (scan_step cfg fs (m, out, total) root).2 = total)) /\
  (forall pre root post,
     scan_roots cfg fs (pre ++ root :: post)
     = foldl (scan_step cfg fs)
         (scan_step cfg fs (scan_roots cfg fs pre) root) post).
Proof.
  repeat split.
  - intros rd root st. by rewrite WalkDir_scan.
  - intros rd path n rest st.
    rewrite walkEntries_cons, walkDir_record, record_File.
    by destruct (too_deep cfg rd _).
  - intros rd path n es st H.
    rewrite walkDir_record, record_Directory, H.
    pose proof (walkEntries_record cfg rd es path) as Hw.
    rewrite Hw; [done|]. apply Forall_forall. intros e _ p s.
    apply walkDir_record.
  - destruct H as [H|(a & H & Hl)]; simpl; rewrite H; [done|].
    rewrite scanDirectory_record, Hl. simpl. unfold warn_access.
    by destruct (verbose cfg).
  - intros Ht. destruct H as [H|(a & H & Hl)]; simpl; rewrite H; [done|].
    rewrite scanDirectory_record, Hl. simpl. unfold warn_access.
    destruct (verbose cfg); simpl; rewrite Z.add_0_r; by apply wrap64_id.
  - intros pre root post. unfold scan_roots. by rewrite foldl_app.
Qed.

Lemma scan_errors_not_fatal_witness :
  (scan_step default_config Scenario.tree (Scenario.stats, [], 2) "/missing").1.1
    = Scenario.stats /\
  (in_int64 2 ->
   (scan_step default_config Scenario.tree (Scenario.stats, [], 2) "/missing").2
     = 2).
Proof.
  apply (proj1 (proj2 (proj2 (proj2
           (scan_errors_not_fatal default_config Scenario.tree))))).
  right. exists "/missing". split; vm_compute; reflexivity.
Defined.

(** C8: normalising the result of the normaliser changes nothing; and a
    list of clean absolute roots that already has the invariant (no
    duplicate, no root under another) is returned with the same elements,
    in sorted order. *)
Theorem removeSubdirectories_idempotent cwd paths :
  getwd_rooted cwd ->
  removeSubdirectories cwd (removeSubdirectories cwd paths)
  = removeSubdirectories cwd paths /\
  (Forall clean_abs paths -> NoDup paths ->
   (forall x y, x ∈ paths -> y ∈ paths -> path_under x y = true -> x = y) ->
   removeSubdirectories cwd paths = gosort.Strings paths /\
   Permutation paths (removeSubdirectories cwd paths)).
Proof.
  intros Hcwd. split.
  - rewrite (removeSubdirectories_eq cwd (removeSubdirectories cwd paths)).
    rewrite absolute_paths_fixed by by apply removeSubdirectories_clean.
    rewrite removeSubdirectories_eq.
    rewrite Strings_sorted_id by apply sweep_from_sorted, Strings_sorted.
    apply sweep_from_idem.
  - intros Hclean Hnd Hind.
    assert (removeSubdirectories cwd paths = gosort.Strings paths) as E.
    { rewrite removeSubdirectories_eq, absolute_paths_fixed by done.
      apply sweep_from_keep; [done|].
      apply independent_sorted.
      - by rewrite <- Strings_perm.
      - intros x y Hx Hy. rewrite Strings_elem in Hx, Hy. by apply Hind. }
    split; [done|]. rewrite E. apply Strings_perm.
Qed.

Lemma removeSubdirectories_idempotent_witness :
  removeSubdirectories (Some "/home/u")
    (removeSubdirectories (Some "/home/u") ["/var"; "/home/u/docs"])
  = removeSubdirectories (Some "/home/u") ["/var"; "/home/u/docs"] /\
  removeSubdirectories (Some "/home/u") ["/var"; "/home/u/docs"]
  = gosort.Strings ["/var"; "/home/u/docs"] /\
  Permutation ["/var"; "/home/u/docs"]
    (removeSubdirectories (Some "/home/u") ["/var"; "/home/u/docs"]).
Proof.
  destruct (removeSubdirectories_idempotent (Some "/home/u")
              ["/var"; "/home/u/docs"]) as [H1 H2].
  - intros wd H. injection H as <-. reflexivity.
  - split; [exact H1|]. apply H2.
    + repeat constructor; apply is_clean_abs_spec; vm_compute; reflexivity.
    + apply (bool_decide_eq_true_1 (NoDup ["/var"; "/home/u/docs"])).
      vm_compute. reflexivity.
    + intros x y Hx Hy. apply list_elem_of_In in Hx, Hy. simpl in Hx, Hy.
      destruct Hx as [<-|[<-|[]]], Hy as [<-|[<-|[]]]; vm_compute;
        intros; congruence.
Defined.

(** C9 fails on the code: with the roots "/a/b" (a directory) and
    "/a/bc/f" (a file), the collection holds "/a/bc", the parent of the
    second root; isUnderTargets accepts it because its string starts with
    "/a/b", and it is printed in both tables although it is under neither
    root. *)
Theorem isUnderTargets_accepts_sibling_prefix :
  let cwd := Some "/" in
  let targetPaths := removeSubdirectories cwd Scenario.sibling_roots in
  targetPaths = ["/a/b"; "/a/bc/f"] /\
  forallb (fun root => negb (path_under root "/a/bc")) targetPaths = true /\
  isUnderTargets cwd targetPaths "/a/bc" = true /\
  (scan_roots default_config Scenario.sibling_tree targetPaths).1.1 !! "/a/bc"
  = Some (mkDirStat "/a/bc" 10 1 0) /\
  main default_config Scenario.sibling_tree Scenario.sibling_roots
  = Some ([mkDirStat "/a/bc" 10 1 0; mkDirStat "/a/b" 0 0 0],
          [mkDirStat "/a/bc" 10 1 0; mkDirStat "/a/b" 0 0 0]).
Proof. cbv zeta. repeat split; vm_compute; reflexivity. Qed.

(** C10: printTable prints the first topN entries of the view it is
    given, all of them when the view is shorter; with topN = 0 both tables
    of a run are empty, whatever the tree holds. *)
Theorem printTable_truncates :
  (forall topN (view : list DirStat), 0 <= topN ->
     printTable topN view = Some (take (Z.to_nat topN) view)) /\
  (forall cfg fs paths, topN cfg = 0 -> valid_tree fs = true -> cwd_rooted cfg ->
     main cfg fs paths = Some ([], [])).
Proof.
  split; [apply printTable_take|].
  intros cfg fs paths Htop Hfs Hcwd. unfold main.
  pose proof (scan_roots_wf cfg fs (removeSubdirectories (cwd cfg) paths)
                Hfs Hcwd) as Hwf.
  destruct (scan_roots cfg fs (removeSubdirectories (cwd cfg) paths))
    as [[m out] total]. simpl in Hwf.
  destruct (aggregate_order_result m _ Hwf (aggregateStats_runs m))
    as (m' & Hb & _).
  unfold aggregateStats, aggregateStats_with. rewrite Hb. simpl.
  rewrite Htop, !printTable_take by done. done.
Qed.

Lemma printTable_truncates_witness :
  printTable 1 [mkDirStat "/a" 9 1 0; mkDirStat "/b" 3 2 0]
    = Some (take (Z.to_nat 1) [mkDirStat "/a" 9 1 0; mkDirStat "/b" 3 2 0]) /\
  main (mkConfig (make_excludeMap excludePaths) 1000000 0 false (Some "/"))
    Scenario.tree ["/root"] = Some ([], []).
Proof.
  split.
  - apply (proj1 printTable_truncates 1). lia.
  - apply (proj2 printTable_truncates).
    + reflexivity.
    + vm_compute. reflexivity.
    + intros wd H. injection H as <-. reflexivity.
Defined.

(* ===================================================================== *)
(** * Facts for the further properties                                   *)
(* ===================================================================== *)

(* ===================================================================== *)
(** * Further facts about removeSubdirectories and isUnderTargets         *)
(* ===================================================================== *)

Module RootFacts.

Lemma covered_by_refl q : covered_by q q = true.
Proof. unfold covered_by. by rewrite bool_decide_eq_true_2. Qed.

Lemma string_lt_NoDup l : StronglySorted string_lt l -> NoDup l.
Proof.
  induction 1 as [|x l Hs IH Hx]; constructor; [|done].
  intros Hin. rewrite Forall_forall in Hx. by destruct (Hx x Hin).
Qed.

(** The paths that the sweep keeps increase strictly. *)
Lemma sweep_from_strict l : forall lst,
  StronglySorted String.le l ->
  (forall q, lst = Some q -> Forall (String.le q) l) ->
  StronglySorted string_lt (sweep_from lst l) /\
  (forall q, lst = Some q -> Forall (string_lt q) (sweep_from lst l)).
Proof.
  induction l as [|p rest IH]; intros lst Hs Hlst; simpl.
  - split; [constructor|]. by intros.
  - apply StronglySorted_inv in Hs as [Hs Hp].
    destruct (IH (Some p) Hs) as [IH1 IH2]; [by intros q [= <-]|].
    specialize (IH2 p eq_refl).
    destruct lst as [q|].
    + specialize (Hlst q eq_refl). inversion Hlst as [|? ? Hqp Hqrest]; subst.
      destruct (covered_by q p) eqn:E.
      * destruct (IH (Some q) Hs) as [IH1' IH2']; [by intros ? [= <-]|].
        split; [done|]. intros q' [= <-]. by apply IH2'.
      * split; [by constructor|]. intros q' [= <-].
        assert (string_lt q p) as Hlt.
        { split; [done|]. intros ->. by rewrite covered_by_refl in E. }
        constructor; [done|]. eapply Forall_impl; [exact IH2|].
        intros x [Hx1 Hx2]. split; [by etrans|].
        intros ->. apply Hx2. apply (anti_symm String.le); [done|].
        apply Hlt.
    + split; [by constructor|]. by intros.
Qed.

(** Every path of the input is covered by a path that is kept. *)
Lemma sweep_from_covers l : forall lst a,
  a ∈ l ->
  exists r, (lst = Some r \/ r ∈ sweep_from lst l) /\ covered_by r a = true.
Proof.
  induction l as [|p rest IH]; intros lst a Ha; [by apply elem_of_nil in Ha|].
  simpl. apply elem_of_cons in Ha as [->|Ha].
  - destruct lst as [q|].
    + destruct (covered_by q p) eqn:E.
      * exists q. split; [by left|done].
      * exists p. split; [right; by left|apply covered_by_refl].
    + exists p. split; [right; by left|apply covered_by_refl].
  - assert (exists r, r ∈ p :: sweep_from (Some p) rest /\ covered_by r a = true)
      as Hkeep.
    { destruct (IH (Some p) a Ha) as (r & [Hr|Hr] & Hc).
      - injection Hr as <-. exists p. split; [by left|done].
      - exists r. split; [by right|done]. }
    destruct lst as [q|].
    + destruct (covered_by q p); [by apply IH|].
      destruct Hkeep as (r & Hr & Hc). exists r. split; [by right|done].
    + destruct Hkeep as (r & Hr & Hc). exists r. split; [by right|done].
Qed.

(** A path that is kept is not covered by the path kept before it. *)
Lemma sweep_from_adjacent l : forall lst,
  Sorted (fun a b => covered_by a b = false) (sweep_from lst l) /\
  (forall q, lst = Some q ->
     HdRel (fun a b => covered_by a b = false) q (sweep_from lst l)).
Proof.
  induction l as [|p rest IH]; intros lst; simpl.
  - split; [constructor|]. intros; constructor.
  - destruct (IH (Some p)) as [IH1 IH2]. specialize (IH2 p eq_refl).
    destruct lst as [q|].
    + destruct (covered_by q p) eqn:E.
      * destruct (IH (Some q)) as [IH1' IH2']. split; [done|].
        intros q' [= <-]. by apply IH2'.
      * split; [by constructor|]. intros q' [= <-]. by constructor.
    + split; [by constructor|]. by intros.
Qed.

Lemma Abs_is_Some_again cwd p r : Abs cwd p = Some r -> is_Some (Abs cwd r).
Proof.
  unfold Abs. destruct (IsAbs p) eqn:Hp.
  - intros [= <-]. destruct (Clean_rooted p Hp) as (cs & Hcs & ->).
    rewrite IsAbs_abs_of. by eexists.
  - destruct cwd as [wd|]; [|done]. intros _.
    destruct (IsAbs r); by eexists.
Qed.

Lemma removeSubdirectories_from cwd paths r :
  r ∈ removeSubdirectories cwd paths ->
  exists p, p ∈ paths /\ Abs cwd p = Some r.
Proof.
  rewrite removeSubdirectories_eq. intros Hr.
  apply sweep_from_elem in Hr. rewrite Strings_elem in Hr.
  by apply list_elem_of_omap in Hr.
Qed.

(** HasPrefix on a path under a root *)
Lemma path_under_HasPrefix r p : path_under r p = true -> HasPrefix p r = true.
Proof.
  unfold path_under. rewrite !orb_true_iff, andb_true_iff, bool_decide_eq_true.
  intros [[->|H]|[_ H]]; [|  |done].
  - unfold HasPrefix. rewrite <- (sapp_nil_r r) at 2. apply prefix_app.
  - unfold HasPrefix in *. apply prefix_inv in H as [z ->].
    rewrite sapp_assoc. apply prefix_app.
Qed.

Lemma isUnderTargets_intro cwd targetPaths root a p :
  root ∈ targetPaths -> Abs cwd root = Some a -> HasPrefix p a = true ->
  isUnderTargets cwd targetPaths p = true.
Proof.
  intros Hin Ha Hp. unfold isUnderTargets. apply existsb_exists.
  exists root. split; [by apply list_elem_of_In|]. by rewrite Ha.
Qed.

End RootFacts.

(* ===================================================================== *)
(** * Invariants of the traversal                                         *)
(* ===================================================================== *)

Module ScanInvariants.

(** Induction over the walk: a property of the state that the three
    updates of the walk function keep is kept by the walk. *)
Lemma record_preserves (P : scan_state -> Prop) cfg rd :
  (forall path st, P st ->
     P (mkScan (getDirStat path (dirStats st)) (count st) (printed st))) ->
  (forall path size st, P st ->
     P (mkScan (record_file path size (dirStats st)) (wrap64 (count st + 1))
          (printed st))) ->
  (forall path st, P st -> P (warn_access cfg path st)) ->
  forall d path st, P st -> P (record cfg rd path d st).
Proof.
  intros Hdir Hfile Hwarn.
  induction d as [n i|n r es IH] using entry_rect_forall; intros path st Hst.
  - rewrite record_File. destruct (too_deep cfg rd path); [done|].
    destruct i; [|done]. by apply Hfile.
  - rewrite record_Directory.
    destruct (excluded cfg path || too_deep cfg rd path); [done|].
    assert (P (let st1 := mkScan (getDirStat path (dirStats st)) (count st)
                            (printed st) in
               if r then warn_access cfg path st1 else st1)) as H0.
    { destruct r; simpl; [apply Hwarn|]; by apply Hdir. }
    revert H0.
    generalize (let st1 := mkScan (getDirStat path (dirStats st)) (count st)
                             (printed st) in
                if r then warn_access cfg path st1 else st1).
    induction es as [|e es IHes]; intros st0 H0; [done|].
    inversion IH as [|? ? He Hes]; subst. simpl.
    apply IHes; [done|]. by apply He.
Qed.

Lemma scanDirectory_preserves (P : scan_state -> Prop) cfg fs root m out :
  (forall path st, P st ->
     P (mkScan (getDirStat path (dirStats st)) (count st) (printed st))) ->
  (forall path size st, P st ->
     P (mkScan (record_file path size (dirStats st)) (wrap64 (count st + 1))
          (printed st))) ->
  (forall path st, P st -> P (warn_access cfg path st)) ->
  P (mkScan m 0 out) ->
  P (mkScan (scanDirectory cfg fs root m out).1.1
       (scanDirectory cfg fs root m out).2
       (scanDirectory cfg fs root m out).1.2).
Proof.
  intros Hdir Hfile Hwarn H0. rewrite scanDirectory_record.
  cbv zeta. cbn [fst snd].
  destruct (Lstat fs root) as [d|].
  - pose proof (record_preserves P cfg (depth_of root) Hdir Hfile Hwarn d root _ H0) as H.
    by destruct (record cfg (depth_of root) root d (mkScan m 0 out)).
  - rewrite scan_fn_VisitErr. cbn [fst].
    pose proof (Hwarn root _ H0) as H. unfold warn_access in *.
    by destruct (verbose cfg).
Qed.

(** ** Keys and the fields Path and Depth *)

Lemma getDirStat_lookup p m q :
  getDirStat p m !! q =
  if decide (q = p)
  then Some (default (mkDirStat p 0 0 0) (m !! p))
  else m !! q.
Proof.
  unfold getDirStat. destruct (decide (q = p)) as [->|Hne].
  - destruct (m !! p) eqn:E; simpl; [done|]. by rewrite lookup_insert_eq.
  - destruct (m !! p); [done|]. by rewrite lookup_insert_ne.
Qed.

Lemma record_file_lookup p size m q :
  record_file p size m !! q =
  if decide (q = p)
  then let s := default (mkDirStat p 0 0 0) (m !! p) in
       Some (mkDirStat (Path s) (wrap64 (TotalSize s + size))
               (wrap64 (FileCount s + 1)) (Depth s))
  else m !! q.
Proof.
  unfold record_file. rewrite (getDirStat_lookup p m p).
  rewrite decide_True by done. destruct (decide (q = p)) as [->|Hne].
  - by rewrite lookup_insert_eq.
  - rewrite lookup_insert_ne by done. rewrite getDirStat_lookup.
    by rewrite decide_False.
Qed.

Lemma getDirStat_keyed p m : keyed m -> keyed (getDirStat p m).
Proof.
  intros Hm k s. rewrite getDirStat_lookup. case_decide as E; [|apply Hm].
  subst k. destruct (m !! p) as [s0|] eqn:E; simpl; intros [= <-]; [|done].
  by apply Hm.
Qed.

Lemma record_file_keyed p size m : keyed m -> keyed (record_file p size m).
Proof.
  intros Hm k s. rewrite record_file_lookup. case_decide as E; [|apply Hm].
  subst k. destruct (m !! p) as [s0|] eqn:E; simpl; intros [= <-]; simpl;
    [|done].
  by apply Hm.
Qed.

Lemma scan_roots_keyed cfg fs targetPaths :
  keyed (scan_roots cfg fs targetPaths).1.1.
Proof.
  unfold scan_roots.
  assert (keyed (∅ : gmap string DirStat, [] : list diagnostic, 0).1.1) as H.
  { simpl. intros k s. by rewrite lookup_empty. }
  revert H. generalize (∅ : gmap string DirStat, [] : list diagnostic, 0).
  induction targetPaths as [|r rs IH]; intros acc Hacc; [done|].
  simpl. apply IH. destruct acc as [[m out] total]. simpl in *.
  destruct (Abs (cwd cfg) r) as [a|]; [|done].
  pose proof (scanDirectory_preserves (fun st => keyed (dirStats st))
                cfg fs a m out) as H. simpl in H.
  destruct (scanDirectory cfg fs a m out) as [[m' out'] n]. simpl in *.
  apply H; try done.
  - intros path st. apply getDirStat_keyed.
  - intros path size st. apply record_file_keyed.
  - intros path st. unfold warn_access. by destruct (verbose cfg).
Qed.

Lemma bubble_keyed m p m' : keyed m -> bubble m p = Some m' -> keyed m'.
Proof.
  intros Hm. unfold bubble. case_bool_decide; [by intros [= <-]|].
  destruct (m !! Dir p) as [ps|] eqn:Eps; [|by intros [= <-]].
  destruct (m !! p) as [cs|]; [|done]. intros [= <-] k s.
  destruct (decide (k = Dir p)) as [->|Hne].
  - rewrite lookup_insert_eq. intros [= <-]. simpl. by apply Hm.
  - rewrite lookup_insert_ne by done. apply Hm.
Qed.

Lemma bubble_dom m p m' q :
  bubble m p = Some m' -> is_Some (m' !! q) <-> is_Some (m !! q).
Proof.
  unfold bubble. case_bool_decide; [by intros [= <-]|].
  destruct (m !! Dir p) as [ps|] eqn:Eps; [|by intros [= <-]].
  destruct (m !! p) as [cs|]; [|done]. intros [= <-].
  destruct (decide (q = Dir p)) as [->|Hne].
  - rewrite lookup_insert_eq, Eps. split; by eexists.
  - by rewrite lookup_insert_ne.
Qed.

Lemma bubble_up_keyed paths : forall m m',
  keyed m -> bubble_up paths m = Some m' ->
  keyed m' /\ forall q, is_Some (m' !! q) <-> is_Some (m !! q).
Proof.
  induction paths as [|p paths IH]; intros m m' Hm; simpl.
  - by intros [= <-].
  - destruct (bubble m p) as [m1|] eqn:E; [|done]. simpl. intros H.
    destruct (IH m1 m' (bubble_keyed _ _ _ Hm E) H) as [H1 H2].
    split; [done|]. intros q. rewrite H2. by eapply bubble_dom.
Qed.

End ScanInvariants.

Module CountFacts.
Import ScanInvariants.

Lemma wrap64_wrap a : wrap64 (wrap64 a) = wrap64 a.
Proof. apply wrap64_id, wrap64_in. Qed.

Lemma wrap64_add_r a b : wrap64 (a + wrap64 b) = wrap64 (a + b).
Proof. by rewrite <- wrap64_add, wrap64_wrap, wrap64_add. Qed.

Lemma wrap64_add_l a b : wrap64 (wrap64 a + b) = wrap64 (a + b).
Proof. by rewrite Z.add_comm, wrap64_add_r, Z.add_comm. Qed.

Lemma wrap64_congr a b c : wrap64 a = wrap64 b -> wrap64 (a + c) = wrap64 (b + c).
Proof. intros H. by rewrite <- (wrap64_add_l a), H, wrap64_add_l. Qed.

Lemma total_of_empty f : total_of f ∅ = 0.
Proof. unfold total_of. by rewrite map_to_list_empty. Qed.

Lemma total_of_insert_None f (m : gmap string DirStat) k s :
  m !! k = None -> total_of f (<[k:=s]> m) = f s + total_of f m.
Proof.
  intros H. unfold total_of.
  by rewrite (sumZ_if_perm _ _ _ _ (map_to_list_insert m k s H)).
Qed.

Lemma total_of_insert_Some f (m : gmap string DirStat) k s old :
  m !! k = Some old -> total_of f (<[k:=s]> m) = f s - f old + total_of f m.
Proof.
  intros H. rewrite <- (insert_delete_id m k old H) at 2.
  rewrite <- (insert_delete_eq m k s).
  rewrite !total_of_insert_None by apply lookup_delete_eq. lia.
Qed.

Lemma getDirStat_total f p m :
  f (mkDirStat p 0 0 0) = 0 -> total_of f (getDirStat p m) = total_of f m.
Proof.
  intros Hf. unfold getDirStat. destruct (m !! p) eqn:E; [done|].
  rewrite total_of_insert_None by done. lia.
Qed.

Lemma record_file_total f g p size m :
  f (mkDirStat p 0 0 0) = 0 ->
  (forall s, f (mkDirStat (Path s) (wrap64 (TotalSize s + size))
                  (wrap64 (FileCount s + 1)) (Depth s))
             = wrap64 (f s + g)) ->
  wrap64 (total_of f (record_file p size m)) = wrap64 (total_of f m + g).
Proof.
  intros Hf0 Hf. unfold record_file.
  destruct (getDirStat p m !! p) as [s|] eqn:E.
  - rewrite (total_of_insert_Some f _ p _ s E), Hf, getDirStat_total by done.
    replace (wrap64 (f s + g) - f s + total_of f m)
      with ((total_of f m - f s) + wrap64 (f s + g)) by lia.
    rewrite wrap64_add_r. f_equal. lia.
  - rewrite getDirStat_lookup, decide_True in E by done. done.
Qed.

(** The walk adds to the counter what it adds to the file counts. *)
Lemma scanDirectory_count cfg fs root m out :
  wrap64 (total_of FileCount (scanDirectory cfg fs root m out).1.1)
  = wrap64 (total_of FileCount m + (scanDirectory cfg fs root m out).2).
Proof.
  pose proof (scanDirectory_preserves
    (fun st => wrap64 (total_of FileCount (dirStats st))
               = wrap64 (total_of FileCount m + count st)) cfg fs root m out)
    as H.
  simpl in H. apply H.
  - intros path st Hst. by rewrite getDirStat_total.
  - intros path size st Hst.
    rewrite (record_file_total FileCount 1) by done.
    rewrite (wrap64_congr _ _ 1 Hst), wrap64_add_r. f_equal. lia.
  - intros path st. unfold warn_access. by destruct (verbose cfg).
  - f_equal. lia.
Qed.

End CountFacts.

Module ClosedFacts.
Import RootFacts ScanInvariants CountFacts.

Lemma getDirStat_is_Some p m q :
  is_Some (getDirStat p m !! q) <-> is_Some (m !! q) \/ q = p.
Proof.
  rewrite getDirStat_lookup. case_decide as E.
  - split; [by right|]. intros _. by eexists.
  - split; [by left|]. by intros [?|?].
Qed.

Lemma record_file_is_Some p size m q :
  is_Some (record_file p size m !! q) <-> is_Some (m !! q) \/ q = p.
Proof.
  rewrite record_file_lookup. case_decide as E.
  - split; [by right|]. intros _. by eexists.
  - split; [by left|]. by intros [?|?].
Qed.

(** The walk never removes a directory from the collection. *)
Lemma record_keeps_keys cfg rd d path st k :
  is_Some (dirStats st !! k) ->
  is_Some (dirStats (record cfg rd path d st) !! k).
Proof.
  apply (record_preserves (fun st => is_Some (dirStats st !! k))).
  - intros p st0 H. simpl. apply getDirStat_is_Some. by left.
  - intros p z st0 H. simpl. apply record_file_is_Some. by left.
  - intros p st0. unfold warn_access. by destruct (verbose cfg).
Qed.

Lemma Join_longer p c :
  clean_abs p -> valid_name c ->
  (String.length p < String.length (Join p c))%nat.
Proof.
  intros (cs & Hcs & ->) Hc. rewrite Join_abs_of by done.
  apply length_abs_of_snoc, Hc.
Qed.

Lemma HasPrefix_length p r :
  HasPrefix p r = true -> (String.length r <= String.length p)%nat.
Proof.
  unfold HasPrefix. intros [z ->]%prefix_inv. rewrite length_sapp. lia.
Qed.

Lemma path_under_refl r : path_under r r = true.
Proof. unfold path_under. by rewrite bool_decide_eq_true_2. Qed.

Lemma grown_same_keys root m0 m m' :
  (forall q, is_Some (m' !! q) <-> is_Some (m !! q)) ->
  grown_under root m0 m -> grown_under root m0 m'.
Proof.
  intros Hk H q Hq. apply Hk in Hq.
  destruct (H q Hq) as [?|(Hu & [?|(Hne & Hd)])]; [by left|right..].
  - split; [done|]. by left.
  - split; [done|]. right. split; [done|]. by apply Hk.
Qed.

Lemma grown_add root m0 m m' p :
  (forall q, is_Some (m' !! q) <-> is_Some (m !! q) \/ q = p) ->
  path_under root p = true ->
  p = root \/ (Dir p <> p /\ is_Some (m !! Dir p)) ->
  grown_under root m0 m -> grown_under root m0 m'.
Proof.
  intros Hk Hu Hp H q Hq. apply Hk in Hq as [Hq| ->].
  - destruct (H q Hq) as [?|(Hu' & [?|(Hne & Hd)])]; [by left|right..].
    + split; [done|]. by left.
    + split; [done|]. right. split; [done|]. apply Hk. by left.
  - right. split; [done|]. destruct Hp as [?|[Hne Hd]]; [by left|].
    right. split; [done|]. apply Hk. by left.
Qed.

Lemma record_grown cfg rd root m0 d : forall path st,
  valid_tree d = true -> clean_abs path -> path_under root path = true ->
  path = root \/ (Dir path <> path /\ is_Some (dirStats st !! Dir path)) ->
  IsDir d = true \/ path <> root ->
  grown_under root m0 (dirStats st) ->
  grown_under root m0 (dirStats (record cfg rd path d st)).
Proof.
  induction d as [n i|n r es IH] using entry_rect_forall;
    intros path st Hv Hc Hu Hp Hd Hst.
  - rewrite record_File. destruct (too_deep cfg rd path); [done|].
    destruct i as [z|]; [|done]. simpl.
    destruct Hd as [?|Hne]; [done|]. destruct Hp as [?|[_ Hpar]]; [done|].
    eapply grown_same_keys; [|done]. intros q.
    rewrite record_file_is_Some. split; [|by left].
    intros [?| ->]; done.
  - rewrite record_Directory.
    destruct (excluded cfg path || too_deep cfg rd path); [done|].
    set (st1 := let st1 := mkScan (getDirStat path (dirStats st)) (count st)
                             (printed st) in
                if r then warn_access cfg path st1 else st1).
    assert (dirStats st1 = getDirStat path (dirStats st)) as E1.
    { unfold st1. destruct r; simpl; [|done]. apply warn_access_dirStats. }
    assert (grown_under root m0 (dirStats st1) /\
            is_Some (dirStats st1 !! path)) as H1.
    { rewrite E1. split.
      - eapply (grown_add root m0 (dirStats st) _ path); try done.
        intros q. apply getDirStat_is_Some.
      - apply getDirStat_is_Some. by right. }
    clearbody st1. clear E1 Hd. revert st1 H1. simpl in Hv.
    induction es as [|e es IHes]; intros st1 [HK Hin]; [done|].
    inversion IH as [|? ? He Hes]; subst. simpl in Hv.
    apply andb_true_iff in Hv as [[Hn Hve]%andb_true_iff Hv].
    apply bool_decide_eq_true in Hn.
    destruct (Join_clean_abs path (Name e) Hc Hn) as [Hcc Hdir].
    pose proof (Join_longer path (Name e) Hc Hn) as Hlen.
    simpl. apply IHes; [done|done|]. split.
    + apply He; try done.
      * apply path_under_child; [done| |by rewrite Hdir].
        rewrite Hdir. intros E. rewrite <- E in Hlen. lia.
      * right. rewrite Hdir. split; [|done].
        intros E. rewrite <- E in Hlen. lia.
      * right. intros E. apply path_under_HasPrefix, HasPrefix_length in Hu.
        rewrite E in Hlen. lia.
    + by apply record_keeps_keys.
Qed.

(** Scanning a directory root adds only the root and directories below
    it, each one after its parent. *)
Lemma scanDirectory_grown cfg fs root n r es m out :
  valid_tree fs = true -> clean_abs root ->
  Lstat fs root = Some (Directory n r es) ->
  grown_under root m (scanDirectory cfg fs root m out).1.1.
Proof.
  intros Hfs Hroot Hl. rewrite scanDirectory_record, Hl.
  cbv zeta. cbn [fst].
  apply record_grown; try done.
  - by apply (resolve_valid _ _ _ Hfs Hl).
  - apply path_under_refl.
  - by left.
  - by left.
  - intros q Hq. by left.
Qed.

(** From every directory of a parent-closed collection, the climb through
    recorded parents arrives at the root. *)
Lemma closed_reaches m root :
  stats_wf m -> parent_closed root m ->
  forall q, is_Some (m !! q) -> in_subtree m root q = true.
Proof.
  intros Hwf Hclosed.
  destruct (range_keys_spec m (map_to_list m).*1 (Permutation_refl _))
    as [_ Hkeys].
  assert (forall p, is_Some (m !! p) -> clean_abs p) as Hclean.
  { intros p [s Hs]. by apply (Hwf p s). }
  assert (forall n q, (String.length q <= n)%nat -> is_Some (m !! q) ->
            feeds m (map_to_list m).*1 root q) as Hfeeds.
  { induction n as [|n IH]; intros q Hlen Hq.
    - destruct (Hclean q Hq) as (cs & _ & ->). simpl in Hlen. lia.
    - destruct (Hclosed q Hq) as [->|[Hne Hd]]; [constructor|].
      apply feeds_step; [by apply Hkeys|by split|].
      apply IH; [|done]. pose proof (Dir_length q (Hclean q Hq) Hne). lia. }
  intros q Hq. apply (in_subtree_feeds m (map_to_list m).*1); try done.
  - by apply Hkeys.
  - by apply (Hfeeds (String.length q)).
Qed.

Lemma closed_subtree_total f m root :
  stats_wf m -> parent_closed root m ->
  subtree_sum f m root = total_of f m.
Proof.
  intros Hwf Hclosed. unfold subtree_sum, total_of.
  apply sumZ_if_ext. intros [k v] Hkv. simpl.
  apply closed_reaches; try done. apply elem_of_map_to_list in Hkv. by eexists.
Qed.

Lemma scanDirectory_count_int64 cfg fs root m out :
  in_int64 (scanDirectory cfg fs root m out).2.
Proof.
  pose proof (scanDirectory_preserves (fun st => in_int64 (count st))
                cfg fs root m out) as H.
  simpl in H. apply H.
  - done.
  - intros. apply wrap64_in.
  - intros path st. unfold warn_access. by destruct (verbose cfg).
  - apply in_int64_0.
Qed.

End ClosedFacts.

Module FormatFacts.

Lemma pow1024_pos k : 0 <= k -> 0 < 1024 ^ k.
Proof. intros. by apply Z.pow_pos_nonneg. Qed.

Lemma pow1024_succ k : 0 <= k -> 1024 ^ (k + 1) = 1024 ^ k * 1024.
Proof. intros. by rewrite Z.pow_add_r, Z.pow_1_r by lia. Qed.

(** A power of 1024 that fits an int64 has an exponent below 7. *)
Lemma pow1024_int64 k : 0 <= k -> 1024 ^ k < 2 ^ 63 -> k < 7.
Proof.
  intros Hk H. destruct (Z.lt_ge_cases k 7) as [|Hge]; [done|].
  pose proof (Z.pow_le_mono_r 1024 7 k) as Hm.
  assert (1024 ^ 7 <= 1024 ^ k) by (apply Hm; lia).
  assert (2 ^ 63 < 1024 ^ 7) by (vm_compute; reflexivity). lia.
Qed.

(** The loop of formatBytes: from a quotient [n] of at least 1 it stops
    after [k] turns, where 1024^k <= n < 1024^(k+1), when no product
    leaves the int64 range. *)
Lemma unit_loop_spec fuel : forall n e,
  0 <= e -> 1 <= n -> n < 1024 ^ (Z.of_nat fuel + 1) ->
  1024 ^ (e + 1) * n < 2 ^ 63 ->
  exists k, 0 <= k /\
    unit_loop fuel n (1024 ^ (e + 1)) e = Some (1024 ^ (e + 1 + k), e + k) /\
    1024 ^ k <= n < 1024 ^ (k + 1).
Proof.
  induction fuel as [|fuel IH]; intros n e He Hn Hfuel Hfit.
  - exists 0. simpl in Hfuel. split; [done|]. split.
    + unfold unit_loop, unit. destruct (Z.leb_spec 1024 n); [lia|].
      by rewrite Z.add_0_r, Z.add_0_r.
    + simpl. lia.
  - cbn [unit_loop]. unfold unit. destruct (Z.leb_spec 1024 n) as [Hge|Hlt].
    + pose proof (pow1024_pos (e + 1) ltac:(lia)) as Hpos.
      assert (e + 1 < 7) as He7.
      { apply pow1024_int64; [lia|]. nia. }
      rewrite Z.quot_div_nonneg by lia.
      pose proof (Z.mul_div_le n 1024 ltac:(lia)) as Hle.
      pose proof (Z.mul_succ_div_gt n 1024 ltac:(lia)) as Hgt.
      assert (1 <= n / 1024) as Hq by (apply Z.div_le_lower_bound; lia).
      rewrite <- pow1024_succ by lia.
      rewrite (wrap64_id (1024 ^ (e + 1 + 1))).
      2:{ split; [pose proof (pow1024_pos (e + 1 + 1) ltac:(lia)); lia|].
          rewrite pow1024_succ by lia. nia. }
      rewrite (wrap64_id (e + 1)) by (unfold in_int64; lia).
      destruct (IH (n / 1024) (e + 1)) as (k & Hk & Hres & Hlo & Hhi).
      * lia.
      * done.
      * apply Z.div_lt_upper_bound; [lia|].
        rewrite Nat2Z.inj_succ in Hfuel.
        replace (Z.succ (Z.of_nat fuel) + 1) with (Z.of_nat fuel + 1 + 1)
          in Hfuel by lia.
        rewrite pow1024_succ in Hfuel by lia. lia.
      * rewrite pow1024_succ by lia. nia.
      * exists (k + 1). split; [lia|]. split.
        -- rewrite Hres. do 2 f_equal; [f_equal|]; lia.
        -- rewrite (pow1024_succ (k + 1)), (pow1024_succ k) in * by lia.
           pose proof (pow1024_pos k Hk). nia.
    + exists 0. split; [done|]. split.
      * by rewrite !Z.add_0_r.
      * simpl. lia.
Qed.

Lemma unit_letter_Some k :
  0 <= k <= 5 -> exists c, unit_letter k = Some c /\
    String.get (Z.to_nat k) "KMGTPE" = Some c.
Proof.
  intros Hk. unfold unit_letter. destruct (Z.ltb_spec k 0); [lia|].
  assert (k = 0 \/ k = 1 \/ k = 2 \/ k = 3 \/ k = 4 \/ k = 5)
    as [->|[->|[->|[->|[->| ->]]]]] by lia; simpl; by eexists.
Qed.

Lemma formatBytes_scaled b :
  1024 <= b < 2 ^ 63 ->
  exists k c, 0 <= k <= 5 /\
    formatBytes b = Some (Scaled b (1024 ^ (k + 1)) c) /\
    String.get (Z.to_nat k) "KMGTPE" = Some c /\
    1024 ^ (k + 1) <= b < 1024 ^ (k + 2).
Proof.
  intros [Hlo Hhi]. unfold formatBytes, unit.
  destruct (Z.ltb_spec b 1024); [lia|].
  rewrite Z.quot_div_nonneg by lia.
  pose proof (Z.mul_div_le b 1024 ltac:(lia)) as Hle.
  pose proof (Z.mul_succ_div_gt b 1024 ltac:(lia)) as Hgt.
  assert (1 <= b / 1024) as Hq by (apply Z.div_le_lower_bound; lia).
  destruct (unit_loop_spec 64 (b / 1024) 0) as (k & Hk & Hres & Hklo & Hkhi).
  - done.
  - done.
  - apply Z.div_lt_upper_bound; [lia|].
    assert (2 ^ 63 < 1024 * 1024 ^ (Z.of_nat 64 + 1)) by (vm_compute; reflexivity).
    lia.
  - change (1024 ^ (0 + 1)) with 1024. lia.
  - change (1024 ^ (0 + 1)) with 1024 in Hres.
    rewrite Z.add_0_l in Hres. rewrite Hres. cbn -[unit_letter Z.pow].
    rewrite (pow1024_succ k) in Hkhi by lia.
    pose proof (pow1024_pos k Hk) as Hpos.
    assert (k + 1 < 7) as Hk7.
    { apply pow1024_int64; [lia|]. rewrite pow1024_succ by lia. lia. }
    destruct (unit_letter_Some k ltac:(lia)) as (c & Hc & Hget).
    exists k, c. split; [lia|]. rewrite (Z.add_0_l k), Hc. cbn -[Z.pow].
    split; [by rewrite (Z.add_comm 1 k)|]. split; [exact Hget|].
    replace (k + 2) with (k + 1 + 1) by lia.
    rewrite (pow1024_succ (k + 1)), (pow1024_succ k) by lia. lia.
Qed.

Lemma formatBytes_is_Some b : in_int64 b -> is_Some (formatBytes b).
Proof.
  intros [Hlo Hhi]. destruct (Z.lt_ge_cases b 1024) as [Hlt|Hge].
  - unfold formatBytes, unit. destruct (Z.ltb_spec b 1024); [by eexists|lia].
  - destruct (formatBytes_scaled b) as (k & c & _ & -> & _); [lia|by eexists].
Qed.

End FormatFacts.

Module DisplayFacts.
Import StringFacts.

Lemma length_slice_from n : forall s,
  String.length (slice_from n s) = (String.length s - n)%nat.
Proof.
  induction n as [|n IH]; intros s; simpl; [lia|].
  destruct s as [|c s]; simpl; [done|]. apply IH.
Qed.

(** s[n:] is what is left of s after its first n bytes. *)
Lemma slice_from_suffix n : forall s,
  (n <= String.length s)%nat ->
  exists pre, String.length pre = n /\ s = pre +:+ slice_from n s.
Proof.
  induction n as [|n IH]; intros s Hn.
  - exists EmptyString. split; [done|]. by rewrite sapp_nil_l.
  - destruct s as [|c s]; simpl in Hn; [lia|].
    destruct (IH s) as (pre & Hlen & Heq); [lia|].
    exists (String c pre). split; [simpl; lia|].
    rewrite sapp_cons. simpl. by rewrite <- Heq.
Qed.

Lemma displayPath_length p : len (displayPath p) <= 80.
Proof.
  unfold displayPath, len. destruct (Z.ltb_spec 80 (Z.of_nat (String.length p))).
  - rewrite length_sapp, length_slice_from. simpl. lia.
  - lia.
Qed.

End DisplayFacts.

Module ParseFacts.
Import strconv.

Lemma Atoi_in_int64 s v : Atoi s = Some v -> in_int64 v.
Proof.
  unfold Atoi. intros H. destruct s as [|c r]; [done|]. cbv zeta in H.
  assert (forall body, (n ← digits body 0;
            let v := if bool_decide (c = "-"%char) then - n else n in
            if (- 2 ^ 63 <=? v) && (v <? 2 ^ 63) then Some v else None)
            = Some v -> in_int64 v) as Hin.
  { intros body (n & _ & Hn)%bind_Some. cbv zeta in Hn.
    destruct (_ && _) eqn:E; [|done]. injection Hn as <-.
    apply andb_true_iff in E as [?%Z.leb_le ?%Z.ltb_lt]. by split. }
  destruct (bool_decide (c = "-"%char) || bool_decide (c = "+"%char)).
  - destruct r; [done|]. by eapply Hin.
  - by eapply Hin.
Qed.

Lemma parse_loop_path_nil fl : parse_loop ["--path"] fl = Parsed fl.
Proof. reflexivity. Qed.

(** One turn of the inner loop of the "--path" case *)
Lemma parse_loop_path_cons v l fl :
  parse_loop ("--path" :: v :: l) fl =
  if HasPrefix v "--" then parse_loop (v :: l) fl
  else parse_loop ("--path" :: l) (add_path fl v).
Proof. by destruct (HasPrefix v "--") eqn:E; cbn [parse_loop]; simpl; rewrite E. Qed.

Lemma parse_loop_path_run vs : forall rest fl,
  Forall (fun a => HasPrefix a "--" = false) vs ->
  rest = [] \/ (exists a r, rest = a :: r /\ HasPrefix a "--" = true) ->
  parse_loop ("--path" :: vs ++ rest) fl = parse_loop rest (foldl add_path fl vs).
Proof.
  induction vs as [|v vs IH]; intros rest fl Hvs Hrest.
  - simpl app. destruct Hrest as [->|(a & r & -> & Ha)]; [done|].
    by rewrite parse_loop_path_cons, Ha.
  - inversion Hvs as [|? ? Hv Hvs']; subst.
    change ((v :: vs) ++ rest) with (v :: (vs ++ rest)).
    rewrite parse_loop_path_cons, Hv. by apply IH.
Qed.

(** What holds of the variables at the start and is kept by each case of
    the switch holds when parseArgs returns. *)
Lemma parse_loop_inv (Q : string -> Prop) (P : flags -> Prop) :
  (forall fl p, Q p -> HasPrefix p "--" = false -> P fl -> P (add_path fl p)) ->
  (forall fl s v, Atoi s = Some v -> P fl ->
     P (mkFlags (fl_targetPaths fl) v (fl_topN fl) (fl_verbose fl)
          (fl_displayRuntime fl))) ->
  (forall fl s v, Atoi s = Some v -> P fl ->
     P (mkFlags (fl_targetPaths fl) (fl_maxDepth fl) v (fl_verbose fl)
          (fl_displayRuntime fl))) ->
  (forall fl, P fl ->
     P (mkFlags (fl_targetPaths fl) (fl_maxDepth fl) (fl_topN fl) true
          (fl_displayRuntime fl))) ->
  (forall fl, P fl ->
     P (mkFlags (fl_targetPaths fl) (fl_maxDepth fl) (fl_topN fl)
          (fl_verbose fl) true)) ->
  forall args fl fl',
    Forall Q args -> parse_loop args fl = Parsed fl' -> P fl -> P fl'.
Proof.
  intros Hpath Hdepth Htop Hverb Hrun args.
  remember (length args) as n eqn:Hn.
  assert (length args <= n)%nat as Hle by lia. clear Hn. revert args Hle.
  induction n as [|n IH]; intros args Hle fl fl' HQ Hres HP.
  - destruct args; simpl in Hle; [|lia]. by injection Hres as <-.
  - destruct args as [|arg rest]; [by injection Hres as <-|].
    simpl in Hle. inversion HQ as [|? ? Harg HQrest]; subst.
    destruct (decide (arg = "--path")) as [->|Hne1].
    { destruct rest as [|v l]; [by injection Hres as <-|].
      rewrite parse_loop_path_cons in Hres.
      inversion HQrest as [|? ? Hv HQl]; subst.
      destruct (HasPrefix v "--") eqn:Ev.
      - apply (IH (v :: l)) with (fl := fl); [simpl in *; lia|done..].
      - apply (IH ("--path" :: l)) with (fl := add_path fl v);
          [simpl in *; lia|by constructor|done|by apply Hpath]. }
    cbn [parse_loop] in Hres. rewrite bool_decide_eq_false_2 in Hres by done.
    case_bool_decide as E2.
    { destruct rest as [|v l]; [by injection Hres as <-|].
      destruct (Atoi v) as [val|] eqn:Ev; [|done].
      inversion HQrest; subst.
      eapply (IH l); [simpl in *; lia|done|exact Hres|]. by eapply Hdepth. }
    case_bool_decide as E3.
    { destruct rest as [|v l]; [by injection Hres as <-|].
      destruct (Atoi v) as [val|] eqn:Ev; [|done].
      inversion HQrest; subst.
      eapply (IH l); [simpl in *; lia|done|exact Hres|]. by eapply Htop. }
    case_bool_decide as E4.
    { eapply (IH rest); [lia|done|exact Hres|]. by apply Hverb. }
    case_bool_decide as E5.
    { eapply (IH rest); [lia|done|exact Hres|]. by apply Hrun. }
    case_bool_decide as E6; [done|].
    by destruct (bool_decide (arg = "-h") || bool_decide (arg = "--help")).
Qed.

End ParseFacts.

Module TableMore.
Import OrderFacts TableFacts.

(** printTable indexes inside the list for every topN: a negative limit
    prints no row. *)
Lemma printTable_all topN (l : list DirStat) :
  printTable topN l = Some (take (Z.to_nat topN) l).
Proof.
  destruct (Z.lt_ge_cases topN 0) as [Hneg|Hpos]; [|by apply printTable_take].
  unfold printTable. destruct (Z.ltb_spec (Z.of_nat (length l)) topN); [lia|].
  destruct topN as [|p|p]; try lia. done.
Qed.

Lemma sorted_desc_take {A} (key : A -> Z) n : forall l,
  gosort.sorted_desc key l = true -> gosort.sorted_desc key (take n l) = true.
Proof.
  induction n as [|n IH]; intros l H; [done|].
  destruct l as [|x l]; [done|]. simpl in *.
  apply andb_true_iff in H as [Hx Hl]. apply andb_true_iff. split; [|by apply IH].
  rewrite forallb_forall in *. intros y Hy. apply Hx.
  apply list_elem_of_In. apply list_elem_of_In in Hy.
  by apply (subseteq_take n l).
Qed.

Lemma sorted_desc_split {A} (key : A -> Z) n l r s :
  gosort.sorted_desc key l = true ->
  r ∈ take n l -> s ∈ drop n l -> key s <= key r.
Proof.
  intros Hs Hr Hd. apply list_elem_of_split in Hd as (d1 & d2 & Hd).
  rewrite <- (take_drop n l), Hd, app_assoc in Hs.
  apply (sorted_desc_app key _ _ _ Hs). apply elem_of_app. by left.
Qed.

End TableMore.

Module DepthMore.
Import DepthFacts ClosedFacts.

(** With a limit below -1 the root itself is deeper than the limit. *)
Lemma scanDirectory_below cfg fs root m out :
  maxDepth cfg < -1 ->
  (scanDirectory cfg fs root m out).1.1 = m /\
  (scanDirectory cfg fs root m out).2 = 0.
Proof.
  intros Hmax. rewrite scanDirectory_record. cbv zeta.
  destruct (Lstat fs root) as [d|].
  - rewrite record_too_deep; [done|]. unfold too_deep.
    destruct (Z.eqb_spec (maxDepth cfg) (-1)); [lia|].
    destruct (Z.ltb_spec (maxDepth cfg) (depth_of root - depth_of root)); [done|lia].
  - simpl. by destruct (verbose cfg).
Qed.

Lemma scan_roots_below cfg fs targetPaths :
  maxDepth cfg < -1 ->
  (scan_roots cfg fs targetPaths).1.1 = ∅ /\ (scan_roots cfg fs targetPaths).2 = 0.
Proof.
  intros Hmax. unfold scan_roots.
  assert ((∅ : gmap string DirStat, [] : list diagnostic, 0).1.1 = ∅ /\
          (∅ : gmap string DirStat, [] : list diagnostic, 0).2 = 0) as H by done.
  revert H. generalize (∅ : gmap string DirStat, [] : list diagnostic, 0).
  induction targetPaths as [|root l IH]; intros acc Hacc; [done|].
  simpl. apply IH. destruct acc as [[m out] total]. simpl in Hacc.
  destruct Hacc as [-> ->]. unfold scan_step.
  destruct (Abs (cwd cfg) root) as [a|]; [|done].
  destruct (scanDirectory_below cfg fs a ∅ out Hmax) as [H1 H2].
  destruct (scanDirectory cfg fs a ∅ out) as [[m' out'] n]. simpl in *.
  by subst.
Qed.

(** A child of the root directory "/" is at depth 0 of the root "/". *)
Lemma slash_child_depth c :
  valid_name c -> depth_of (Join "/" c) - depth_of "/" = 0.
Proof.
  intros Hc. unfold depth_of. rewrite Join_Count by (done || apply clean_abs_root).
  rewrite bool_decide_eq_true_2 by done. done.
Qed.

Lemma foldl_record_below cfg rd path es : forall st,
  maxDepth cfg = 0 -> clean_abs path -> path <> "/" ->
  depth_of path - rd = 0 ->
  forallb (fun e => bool_decide (valid_name (Name e)) && valid_tree e) es = true ->
  foldl (fun st e => record cfg rd (Join path (Name e)) e st) st es = st.
Proof.
  intros st Hmax Hp Hne Hd. revert st.
  induction es as [|e es IH]; intros st Hv; [done|].
  simpl in Hv. apply andb_true_iff in Hv as [[Hn _]%andb_true_iff Hv].
  apply bool_decide_eq_true in Hn. simpl.
  rewrite record_too_deep; [by apply IH|].
  unfold too_deep. rewrite Hmax. unfold depth_of in *.
  rewrite Join_Count by done. rewrite bool_decide_eq_false_2 by done.
  simpl negb. rewrite andb_true_l. apply Z.ltb_lt. lia.
Qed.

Lemma record_slash_child cfg e st :
  maxDepth cfg = 0 -> valid_name (Name e) -> valid_tree e = true ->
  record cfg (depth_of "/") (Join "/" (Name e)) e st
  = record_entry_flat cfg "/" st e.
Proof.
  intros Hmax Hn Hv.
  destruct (Join_clean_abs "/" (Name e) clean_abs_root Hn) as [Hc Hdir].
  pose proof (Join_longer "/" (Name e) clean_abs_root Hn) as Hlen.
  assert (too_deep cfg (depth_of "/") (Join "/" (Name e)) = false) as Hd.
  { unfold too_deep. rewrite slash_child_depth, Hmax by done. done. }
  destruct e as [n i|n r es]; simpl Name in *.
  - rewrite record_File, Hd, Hdir. done.
  - rewrite record_Directory, Hd, orb_false_r. unfold record_entry_flat.
    destruct (excluded cfg (Join "/" n)); [done|].
    apply foldl_record_below; try done.
    + intros E. rewrite E in Hlen. simpl in Hlen. lia.
    + by apply slash_child_depth.
Qed.

End DepthMore.

Module RowFacts.
Import FormatFacts DisplayFacts TableMore.

(** Every row of a list of int64 sizes renders. *)
Lemma mapM_table_row isSize (l : list DirStat) :
  Forall (fun s => in_int64 (TotalSize s)) l ->
  exists rows, mapM (table_row isSize) l = Some rows /\
    rows.*2 = (fun s => displayPath (Path s)) <$> l /\
    Forall (fun row : cell * string => len row.2 <= 80) rows.
Proof.
  induction l as [|s l IH]; intros Hl.
  - exists []. by repeat split.
  - inversion Hl as [|? ? Hs Hl']; subst.
    destruct (IH Hl') as (rows & Hrows & Hpaths & Hlen).
    assert (exists c, table_row isSize s = Some (c, displayPath (Path s)))
      as [c Hc].
    { unfold table_row. destruct isSize; [|by eexists].
      destruct (formatBytes_is_Some (TotalSize s) Hs) as [f ->]. by eexists. }
    exists ((c, displayPath (Path s)) :: rows). split; [|split].
    + cbn [mapM]. rewrite Hc, Hrows. done.
    + cbn [fmap list_fmap]. simpl. f_equal. exact Hpaths.
    + constructor; [apply displayPath_length|done].
Qed.

End RowFacts.

Module CumulativeFacts.
Import ClosedFacts CountFacts.

Lemma sumZ_if_mono {A} (b1 b2 : A -> bool) f (l : list A) :
  (forall x, x ∈ l -> b1 x = true -> b2 x = true) ->
  (forall x, x ∈ l -> 0 <= f x) ->
  sumZ_if b1 f l <= sumZ_if b2 f l.
Proof.
  induction l as [|x l IH]; intros Hb Hf; [done|].
  assert (sumZ_if b1 f l <= sumZ_if b2 f l) as Hl.
  { apply IH; intros y Hy; [apply Hb|apply Hf]; by right. }
  pose proof (Hf x ltac:(by left)) as Hx.
  pose proof (Hb x ltac:(by left)) as Hbx.
  unfold sumZ_if in *. simpl.
  destruct (b1 x); [rewrite Hbx by done; lia|]. destruct (b2 x); lia.
Qed.

Lemma sumZ_if_nonneg {A} (b : A -> bool) f (l : list A) :
  (forall x, x ∈ l -> 0 <= f x) -> 0 <= sumZ_if b f l.
Proof.
  induction l as [|x l IH]; intros Hf; [done|].
  assert (0 <= sumZ_if b f l) as Hl.
  { apply IH. intros y Hy. apply Hf. by right. }
  pose proof (Hf x ltac:(by left)) as Hx. unfold sumZ_if in *. simpl.
  destruct (b x); lia.
Qed.

Lemma nonneg_check_sound m : nonneg_check m = true -> nonneg_stats m.
Proof.
  unfold nonneg_check. rewrite forallb_forall. intros H k s Hks.
  specialize (H (k, s)). simpl in H. rewrite andb_true_iff in H.
  destruct H as [H1 H2].
  { apply list_elem_of_In. by apply elem_of_map_to_list. }
  split; lia.
Qed.

Lemma in_subtree_self m q : in_subtree m q q = true.
Proof.
  unfold in_subtree. destruct (String.length q); simpl;
    by rewrite bool_decide_eq_true_2.
Qed.

Section Cumulative.
Variable m : gmap string DirStat.
Variable f : DirStat -> Z.
Hypothesis Hwf : stats_wf m.
Hypothesis Hf : forall k s, m !! k = Some s -> 0 <= f s.

Lemma entries_nonneg :
  forall kv : string * DirStat, kv ∈ map_to_list m -> 0 <= f kv.2.
Proof. intros [k s] Hkv. apply elem_of_map_to_list in Hkv. by apply (Hf k). Qed.

Lemma subtree_sum_bounds q : 0 <= subtree_sum f m q <= total_of f m.
Proof.
  split.
  - apply sumZ_if_nonneg, entries_nonneg.
  - apply sumZ_if_mono; [done|apply entries_nonneg].
Qed.

Lemma subtree_sum_own q s0 : m !! q = Some s0 -> f s0 <= subtree_sum f m q.
Proof.
  intros Hq.
  pose proof (sumZ_if_single (q, s0) (fun kv => f kv.2) (map_to_list m)
                (NoDup_map_to_list m)) as Hs.
  simpl in Hs. rewrite <- Hs by (by apply elem_of_map_to_list).
  apply sumZ_if_mono; [|apply entries_nonneg].
  intros kv _ ->%bool_decide_eq_true. apply in_subtree_self.
Qed.

Lemma subtree_sum_parent q :
  is_Some (m !! q) -> contributes m q ->
  subtree_sum f m q <= subtree_sum f m (Dir q).
Proof.
  intros Hq Hc.
  destruct (range_keys_spec m (map_to_list m).*1 (Permutation_refl _))
    as [_ Hkeys].
  assert (forall p, is_Some (m !! p) -> clean_abs p) as Hclean.
  { intros p [s Hs]. by apply (Hwf p s). }
  apply sumZ_if_mono; [|apply entries_nonneg].
  intros [k s] Hk. simpl. apply elem_of_map_to_list in Hk.
  assert (k ∈ (map_to_list m).*1) as Hin by (apply Hkeys; by eexists).
  rewrite !(in_subtree_feeds m (map_to_list m).*1) by done.
  intros Hfeed. apply (feeds_trans m _ q); [done|].
  apply feeds_step; [by apply Hkeys|done|constructor].
Qed.

End Cumulative.

Lemma foldl_record_keeps_keys cfg rd path k es : forall st,
  is_Some (dirStats st !! k) ->
  is_Some (dirStats (foldl (fun st e => record cfg rd (Join path (Name e)) e st)
                       st es) !! k).
Proof.
  induction es as [|e es IH]; intros st H; [done|].
  simpl. apply IH. by apply record_keeps_keys.
Qed.

(** A directory root that is neither excluded nor beyond the depth limit
    is in the collection after its scan. *)
Lemma scanDirectory_root_recorded cfg fs root n r es m out :
  Lstat fs root = Some (Directory n r es) ->
  excluded cfg root = false -> -1 <= maxDepth cfg ->
  is_Some ((scanDirectory cfg fs root m out).1.1 !! root).
Proof.
  intros Hl Hex Hmax. rewrite scanDirectory_record, Hl. cbv zeta. cbn [fst].
  rewrite record_Directory, Hex.
  assert (too_deep cfg (depth_of root) root = false) as ->.
  { unfold too_deep. rewrite Z.sub_diag.
    destruct (Z.eqb_spec (maxDepth cfg) (-1)); [done|].
    destruct (Z.ltb_spec (maxDepth cfg) 0); [lia|done]. }
  simpl orb. cbv iota. apply foldl_record_keeps_keys.
  assert (is_Some (getDirStat root m !! root)) as H.
  { apply getDirStat_is_Some. by right. }
  destruct r; [|done]. by rewrite warn_access_dirStats.
Qed.

Lemma grown_from_empty root m :
  grown_under root ∅ m -> parent_closed root m.
Proof.
  intros H q Hq. destruct (H q Hq) as [[s Hs]|[_ Hp]]; [|done].
  by rewrite lookup_empty in Hs.
Qed.

End CumulativeFacts.

Import RootFacts ScanInvariants CountFacts ClosedFacts FormatFacts DisplayFacts.
Import ParseFacts TableMore DepthMore RowFacts CumulativeFacts.

(* ===================================================================== *)
(** * Further properties of the code                                      *)
(* ===================================================================== *)

(** ** The roots *)

(** X1: the list of roots that removeSubdirectories returns is strictly
    ascending in byte order; no root occurs in it twice. *)
Theorem removeSubdirectories_strictly_ascending cwd paths :
  StronglySorted string_lt (removeSubdirectories cwd paths) /\
  NoDup (removeSubdirectories cwd paths).
Proof.
  rewrite removeSubdirectories_eq.
  destruct (sweep_from_strict (gosort.Strings (absolute_paths cwd paths)) None)
    as [H _].
  - apply Strings_sorted.
  - intros q Hq. discriminate Hq.
  - split; [exact H|]. by apply string_lt_NoDup.
Qed.

(** X2: no input is lost by the normalisation: every path given that
    filepath.Abs resolves is one of the roots returned or lies below
    one. *)
Theorem removeSubdirectories_covers_inputs cwd paths p a :
  p ∈ paths -> Abs cwd p = Some a ->
  exists r, r ∈ removeSubdirectories cwd paths /\ path_under r a = true.
Proof.
  intros Hp Ha. rewrite removeSubdirectories_eq.
  destruct (sweep_from_covers (gosort.Strings (absolute_paths cwd paths))
              None a) as (r & [Hr|Hr] & Hc).
  - apply Strings_elem. unfold absolute_paths.
    apply list_elem_of_omap. by exists p.
  - discriminate Hr.
  - exists r. split; [exact Hr|]. by rewrite <- covered_by_path_under.
Qed.

Lemma removeSubdirectories_covers_inputs_witness :
  exists r,
    r ∈ removeSubdirectories (Some "/home/u") ["/a/b/../b/c"; "x"; "/a/b"] /\
    path_under r "/a/b/c" = true.
Proof.
  apply (removeSubdirectories_covers_inputs (Some "/home/u")
           ["/a/b/../b/c"; "x"; "/a/b"] "/a/b/../b/c" "/a/b/c").
  - constructor.
  - vm_compute. reflexivity.
Defined.

(** X3: in the list returned, no root is equal to or below the root just
    before it. *)
Theorem removeSubdirectories_adjacent_not_nested cwd paths :
  Sorted (fun a b => path_under a b = false) (removeSubdirectories cwd paths).
Proof.
  rewrite removeSubdirectories_eq.
  destruct (sweep_from_adjacent (gosort.Strings (absolute_paths cwd paths)) None)
    as [H _].
  induction H as [|a l Hl IH Hhd]; constructor; [exact IH|].
  destruct Hhd as [|b l' Hab]; constructor.
  by rewrite <- covered_by_path_under.
Qed.

(** X4: every root returned is the absolute form of a path given, is a
    clean absolute path, and filepath.Abs maps it to itself: the later
    calls of filepath.Abs on the roots in main and isUnderTargets return
    them unchanged and without error. *)
Theorem removeSubdirectories_roots_resolve cwd paths r :
  getwd_rooted cwd -> r ∈ removeSubdirectories cwd paths ->
  (exists p, p ∈ paths /\ Abs cwd p = Some r) /\
  clean_abs r /\ Abs cwd r = Some r.
Proof.
  intros Hcwd Hr. split; [by apply removeSubdirectories_from|].
  pose proof (removeSubdirectories_clean cwd paths Hcwd) as Hc.
  rewrite Forall_forall in Hc.
  assert (clean_abs r) as Hclean by (by apply Hc).
  split; [exact Hclean|]. by apply Abs_fixed.
Qed.

Lemma removeSubdirectories_roots_resolve_witness :
  (exists p, p ∈ ["docs"; "/var/"] /\ Abs (Some "/home/u") p = Some "/home/u/docs") /\
  clean_abs "/home/u/docs" /\
  Abs (Some "/home/u") "/home/u/docs" = Some "/home/u/docs".
Proof.
  apply (removeSubdirectories_roots_resolve (Some "/home/u") ["docs"; "/var/"]
           "/home/u/docs").
  - intros wd H. injection H as <-. reflexivity.
  - vm_compute. constructor.
Defined.

(** ** The scan *)

(** X5: every directory that the scan of a directory root adds to the
    collection is the root or lies below it, and passes the filter of main
    for any list of targets that holds the root. *)
Theorem scanned_directories_pass_filter cfg fs root n r es m out wd targetPaths k :
  valid_tree fs = true -> clean_abs root ->
  Lstat fs root = Some (Directory n r es) ->
  root ∈ targetPaths ->
  is_Some ((scanDirectory cfg fs root m out).1.1 !! k) ->
  is_Some (m !! k) \/
  (path_under root k = true /\ isUnderTargets wd targetPaths k = true).
Proof.
  intros Hfs Hroot Hl Hin Hk.
  destruct (scanDirectory_grown cfg fs root n r es m out Hfs Hroot Hl k Hk)
    as [Hm|[Hu _]]; [by left|right].
  split; [exact Hu|].
  apply (isUnderTargets_intro wd targetPaths root root).
  - exact Hin.
  - by apply Abs_fixed.
  - by apply path_under_HasPrefix.
Qed.

Lemma scanned_directories_pass_filter_witness :
  is_Some ((∅ : gmap string DirStat) !! "/root/b/c") \/
  (path_under "/root" "/root/b/c" = true /\
   isUnderTargets None ["/var"; "/root"] "/root/b/c" = true).
Proof.
  apply (scanned_directories_pass_filter default_config Scenario.tree "/root"
           "root" false
           [Directory "a" false [File "f1" (Some 100)];
            Directory "b" false [Directory "c" false [File "f2" (Some 50)]]]
           ∅ [] None ["/var"; "/root"] "/root/b/c").
  - reflexivity.
  - apply is_clean_abs_spec. vm_compute. reflexivity.
  - vm_compute. reflexivity.
  - constructor. constructor.
  - vm_compute. eexists. reflexivity.
Defined.

(** X6: the number of files that the scan loop of main returns is the sum
    of the direct file counts of the collection, as a 64-bit int. *)
Theorem scan_roots_total_files cfg fs targetPaths :
  (scan_roots cfg fs targetPaths).2
  = wrap64 (total_of FileCount (scan_roots cfg fs targetPaths).1.1).
Proof.
  unfold scan_roots.
  assert (in_int64 (∅ : gmap string DirStat, [] : list diagnostic, 0).2 /\
          wrap64 (∅ : gmap string DirStat, [] : list diagnostic, 0).2
          = wrap64 (total_of FileCount
                      (∅ : gmap string DirStat, [] : list diagnostic, 0).1.1))
    as H.
  { simpl. rewrite total_of_empty. split; [apply in_int64_0|done]. }
  revert H. generalize (∅ : gmap string DirStat, [] : list diagnostic, 0).
  induction targetPaths as [|r rs IH]; intros acc [Hin Hacc]; simpl.
  - by rewrite <- Hacc, wrap64_id.
  - apply IH. destruct acc as [[m out] total]. simpl in *.
    destruct (Abs (cwd cfg) r) as [a|]; [|done].
    pose proof (scanDirectory_count cfg fs a m out) as H.
    destruct (scanDirectory cfg fs a m out) as [[m' out'] n]. simpl in *.
    split; [apply wrap64_in|].
    rewrite wrap64_wrap, H. symmetry. by apply wrap64_congr.
Qed.

(** X7: in the collection after the scan and after the aggregation, in
    whatever order it ran, every entry carries its own key as Path; the
    aggregation neither adds nor removes a directory. *)
Theorem aggregation_keeps_directories cfg fs targetPaths paths m' :
  aggregateStats_with paths (scan_roots cfg fs targetPaths).1.1 = Some m' ->
  (forall k s, m' !! k = Some s -> Path s = k) /\
  (forall q, is_Some (m' !! q)
             <-> is_Some ((scan_roots cfg fs targetPaths).1.1 !! q)).
Proof.
  intros Hrun.
  destruct (bubble_up_keyed paths _ m' (scan_roots_keyed cfg fs targetPaths)
              Hrun) as [Hkeyed Hdom].
  split; [|exact Hdom].
  intros k s Hs. by destruct (Hkeyed k s Hs).
Qed.

Lemma aggregation_keeps_directories_witness :
  exists m',
    aggregateStats_with (gosort.sort_desc len (map_to_list Scenario.stats).*1)
      Scenario.stats = Some m' /\
    (forall k s, m' !! k = Some s -> Path s = k) /\
    (forall q, is_Some (m' !! q) <-> is_Some (Scenario.stats !! q)).
Proof.
  destruct (aggregate_order_result Scenario.stats _ scenario_stats_wf
              (aggregateStats_runs Scenario.stats)) as (m' & Hrun & _).
  exists m'. split; [exact Hrun|].
  apply (aggregation_keeps_directories default_config Scenario.tree ["/root"]
           (gosort.sort_desc len (map_to_list Scenario.stats).*1) m').
  exact Hrun.
Defined.

(** X8: a run on one directory root, end to end.  After the scan of a
    directory root that is neither excluded nor cut by the depth limit and
    the aggregation, the entry of the root holds the number of files that
    scanDirectory returned and the sum of all sizes recorded. *)
Theorem scanDirectory_root_total cfg fs root n r es out paths :
  valid_tree fs = true -> clean_abs root ->
  Lstat fs root = Some (Directory n r es) ->
  excluded cfg root = false -> -1 <= maxDepth cfg ->
  aggregate_order (scanDirectory cfg fs root ∅ out).1.1 paths ->
  exists m' s,
    aggregateStats_with paths (scanDirectory cfg fs root ∅ out).1.1 = Some m' /\
    m' !! root = Some s /\
    FileCount s = (scanDirectory cfg fs root ∅ out).2 /\
    TotalSize s
    = wrap64 (total_of TotalSize (scanDirectory cfg fs root ∅ out).1.1).
Proof.
  intros Hfs Hroot Hl Hex Hmax Hord.
  pose proof (scanDirectory_wf cfg fs root ∅ out Hfs Hroot stats_wf_empty) as Hwf.
  pose proof (grown_from_empty _ _
                (scanDirectory_grown cfg fs root n r es ∅ out Hfs Hroot Hl))
    as Hclosed.
  destruct (scanDirectory_root_recorded cfg fs root n r es ∅ out Hl Hex Hmax)
    as [s0 Hs0].
  pose proof (scanDirectory_count cfg fs root ∅ out) as Hcount.
  pose proof (scanDirectory_count_int64 cfg fs root ∅ out) as Hint.
  destruct (aggregate_order_result _ paths Hwf Hord) as (m' & Hrun & Hres).
  specialize (Hres root). rewrite Hs0 in Hres.
  destruct (m' !! root) as [s|] eqn:Hs; [|done].
  exists m', s. split; [exact Hrun|]. split; [done|].
  subst s. simpl. rewrite !closed_subtree_total by done.
  split; [|done].
  rewrite Hcount, total_of_empty, Z.add_0_l. by apply wrap64_id.
Qed.

Lemma scanDirectory_root_total_witness :
  let m := (scanDirectory default_config Scenario.tree "/root" ∅ []).1.1 in
  exists m' s,
    aggregateStats_with (gosort.sort_desc len (map_to_list m).*1) m = Some m' /\
    m' !! "/root" = Some s /\
    FileCount s = (scanDirectory default_config Scenario.tree "/root" ∅ []).2 /\
    TotalSize s = wrap64 (total_of TotalSize m).
Proof.
  apply (scanDirectory_root_total default_config Scenario.tree "/root"
           "root" false
           [Directory "a" false [File "f1" (Some 100)];
            Directory "b" false [Directory "c" false [File "f2" (Some 50)]]]
           []).
  - reflexivity.
  - apply is_clean_abs_spec. vm_compute. reflexivity.
  - vm_compute. reflexivity.
  - vm_compute. reflexivity.
  - vm_compute. discriminate.
  - apply aggregateStats_runs.
Defined.

(** X9: a target that is a regular file.  Its size is recorded for its
    parent directory and the file is counted, but the parent is not below
    the target, so the filter of main drops the only entry and both tables
    are empty. *)
Theorem file_root_not_reported cfg fs root n size :
  clean_abs root -> root <> "/" ->
  Lstat fs root = Some (File n (Some size)) ->
  -1 <= maxDepth cfg ->
  (scan_roots cfg fs [root]).1.1
    = {[ Dir root := mkDirStat (Dir root) (wrap64 size) 1 0 ]} /\
  (scan_roots cfg fs [root]).2 = 1 /\
  isUnderTargets (cwd cfg) [root] (Dir root) = false /\
  main cfg fs [root] = Some ([], []).
Proof.
  intros Hroot Hne Hl Hmax.
  assert (Dir root <> root) as Hdir.
  { intros E. by apply Hne, Dir_fixed. }
  assert (HasPrefix (Dir root) root = false) as Hpre.
  { destruct (HasPrefix (Dir root) root) eqn:E; [|done].
    apply HasPrefix_length in E.
    pose proof (Dir_length root Hroot Hdir). lia. }
  assert (isUnderTargets (cwd cfg) [root] (Dir root) = false) as Hfilter.
  { unfold isUnderTargets. simpl. rewrite Abs_fixed by done. simpl.
    by rewrite Hpre. }
  assert (scan_roots cfg fs [root]
          = ({[ Dir root := mkDirStat (Dir root) (wrap64 size) 1 0 ]}, [], 1))
    as Hscan.
  { unfold scan_roots. simpl. rewrite Abs_fixed by done.
    rewrite scanDirectory_record, Hl. cbv zeta. rewrite record_File.
    assert (too_deep cfg (depth_of root) root = false) as ->.
    { unfold too_deep. rewrite Z.sub_diag.
      destruct (Z.eqb_spec (maxDepth cfg) (-1)); [done|].
      destruct (Z.ltb_spec (maxDepth cfg) 0); [lia|done]. }
    simpl. unfold record_file, getDirStat. rewrite lookup_empty.
    rewrite lookup_insert_eq. simpl. rewrite insert_insert_eq.
    rewrite insert_empty. done. }
  rewrite Hscan. repeat split; try done.
  unfold main.
  assert (removeSubdirectories (cwd cfg) [root] = [root]) as ->.
  { rewrite removeSubdirectories_eq. unfold absolute_paths. simpl.
    by rewrite Abs_fixed. }
  rewrite Hscan. unfold aggregateStats, aggregateStats_with.
  rewrite map_to_list_singleton. simpl.
  assert (bubble {[ Dir root := mkDirStat (Dir root) (wrap64 size) 1 0 ]}
            (Dir root)
          = Some {[ Dir root := mkDirStat (Dir root) (wrap64 size) 1 0 ]}) as ->.
  { unfold bubble. case_bool_decide as E; [done|].
    by rewrite lookup_singleton_ne. }
  simpl. rewrite map_to_list_singleton. unfold select_stats.
  cbn [fmap list_fmap snd].
  rewrite filter_cons_False by (cbn [Path]; by rewrite Hfilter).
  rewrite filter_nil. simpl. rewrite !printTable_all.
  by rewrite take_nil.
Qed.

Lemma file_root_not_reported_witness :
  (scan_roots default_config Scenario.sibling_tree ["/a/bc/f"]).1.1
    = {[ Dir "/a/bc/f" := mkDirStat (Dir "/a/bc/f") (wrap64 10) 1 0 ]} /\
  (scan_roots default_config Scenario.sibling_tree ["/a/bc/f"]).2 = 1 /\
  isUnderTargets (cwd default_config) ["/a/bc/f"] (Dir "/a/bc/f") = false /\
  main default_config Scenario.sibling_tree ["/a/bc/f"] = Some ([], []).
Proof.
  apply (file_root_not_reported default_config Scenario.sibling_tree
           "/a/bc/f" "f" 10).
  - apply is_clean_abs_spec. vm_compute. reflexivity.
  - discriminate.
  - vm_compute. reflexivity.
  - vm_compute. discriminate.
Defined.

(** X10: a depth limit below -1 (parseArgs accepts any int) puts the root
    itself beyond the limit: no scan records or counts anything, and the
    run prints two empty tables. *)
Theorem maxDepth_below_minus1_scans_nothing cfg fs paths :
  maxDepth cfg < -1 ->
  (forall root m out,
     (scanDirectory cfg fs root m out).1.1 = m /\
     (scanDirectory cfg fs root m out).2 = 0) /\
  main cfg fs paths = Some ([], []).
Proof.
  intros Hmax. split; [intros root m out; by apply scanDirectory_below|].
  unfold main.
  destruct (scan_roots_below cfg fs (removeSubdirectories (cwd cfg) paths) Hmax)
    as [Hm _].
  destruct (scan_roots cfg fs (removeSubdirectories (cwd cfg) paths))
    as [[m out] total]. simpl in Hm. subst m.
  unfold aggregateStats, aggregateStats_with.
  rewrite map_to_list_empty. simpl. rewrite map_to_list_empty.
  unfold select_stats. simpl.
  rewrite !printTable_all. by rewrite take_nil.
Qed.

Lemma maxDepth_below_minus1_scans_nothing_witness :
  (forall root m out,
     (scanDirectory (mkConfig (make_excludeMap excludePaths) (-2) 20 false None)
        Scenario.tree root m out).1.1 = m /\
     (scanDirectory (mkConfig (make_excludeMap excludePaths) (-2) 20 false None)
        Scenario.tree root m out).2 = 0) /\
  main (mkConfig (make_excludeMap excludePaths) (-2) 20 false None)
    Scenario.tree ["/root"] = Some ([], []).
Proof.
  apply (maxDepth_below_minus1_scans_nothing
           (mkConfig (make_excludeMap excludePaths) (-2) 20 false None)
           Scenario.tree ["/root"]).
  simpl. lia.
Defined.

(** X11: the root "/" with maxDepth 0.  The path "/" holds one separator,
    as many as each of its children, so the children of "/" are at depth 0:
    the scan records "/", the files directly in it and every directory
    directly in it that is not excluded, and nothing below those. *)
Theorem slash_root_maxDepth0 cfg n r es m out :
  maxDepth cfg = 0 -> valid_tree (Directory n r es) = true ->
  excluded cfg "/" = false ->
  scanDirectory cfg (Directory n r es) "/" m out =
  let st1 := mkScan (getDirStat "/" m) 0 out in
  let st := foldl (record_entry_flat cfg "/")
              (if r then warn_access cfg "/" st1 else st1) es in
  (dirStats st, printed st, count st).
Proof.
  intros Hmax Hv Hex. rewrite scanDirectory_record.
  change (Lstat (Directory n r es) "/") with (Some (Directory n r es)).
  cbv beta iota zeta. rewrite record_Directory, Hex.
  assert (too_deep cfg (depth_of "/") "/" = false) as ->.
  { unfold too_deep. by rewrite Hmax. }
  simpl orb. cbv iota. cbn [dirStats count printed].
  set (st1 := if r then _ else _). clearbody st1. simpl in Hv.
  assert (foldl (fun st e => record cfg (depth_of "/") (Join "/" (Name e)) e st)
            st1 es = foldl (record_entry_flat cfg "/") st1 es) as ->; [|done].
  revert st1. induction es as [|e es IH]; intros st1; [done|].
  simpl in Hv. apply andb_true_iff in Hv as [[Hn He]%andb_true_iff Hv].
  apply bool_decide_eq_true in Hn.
  simpl. rewrite record_slash_child by done. by apply IH.
Qed.

Lemma slash_root_maxDepth0_witness :
  scanDirectory Scenario.depth0_config
    (Directory "/" false
       [File "f" (Some 5); Directory "d" false [File "g" (Some 7)]]) "/" ∅ []
  = ({[ "/" := mkDirStat "/" 5 1 0; "/d" := mkDirStat "/d" 0 0 0 ]}, [], 1).
Proof.
  rewrite (slash_root_maxDepth0 Scenario.depth0_config "/" false
             [File "f" (Some 5); Directory "d" false [File "g" (Some 7)]] ∅ []).
  - vm_compute. reflexivity.
  - reflexivity.
  - vm_compute. reflexivity.
  - vm_compute. reflexivity.
Defined.

(** ** The aggregation *)

(** X12: when no recorded size or count is negative and their sums fit
    an int64, the aggregation leaves every directory with at least what
    was recorded for it directly, every parent with at least as much as
    each of its recorded children, and nobody with more than the sum of
    everything recorded. *)
Theorem cumulative_monotone m paths :
  stats_wf m -> nonneg_stats m ->
  total_of TotalSize m < 2 ^ 63 -> total_of FileCount m < 2 ^ 63 ->
  aggregate_order m paths ->
  exists m', aggregateStats_with paths m = Some m' /\
    forall q s, m' !! q = Some s ->
      (forall s0, m !! q = Some s0 ->
         TotalSize s0 <= TotalSize s /\ FileCount s0 <= FileCount s) /\
      (forall sp, Dir q <> q -> m' !! Dir q = Some sp ->
         TotalSize s <= TotalSize sp /\ FileCount s <= FileCount sp) /\
      TotalSize s <= total_of TotalSize m /\
      FileCount s <= total_of FileCount m.
Proof.
  intros Hwf Hnn Hsize Hcount Hord.
  destruct (aggregate_order_result m paths Hwf Hord) as (m' & Hrun & Hres).
  exists m'. split; [exact Hrun|].
  assert (forall k s, m !! k = Some s -> 0 <= TotalSize s) as HnnT.
  { intros k s Hs. by destruct (Hnn k s Hs). }
  assert (forall k s, m !! k = Some s -> 0 <= FileCount s) as HnnC.
  { intros k s Hs. by destruct (Hnn k s Hs). }
  assert (forall d, wrap64 (subtree_sum TotalSize m d)
                    = subtree_sum TotalSize m d) as HwT.
  { intros d. apply wrap64_id.
    pose proof (subtree_sum_bounds m TotalSize HnnT d). unfold in_int64. lia. }
  assert (forall d, wrap64 (subtree_sum FileCount m d)
                    = subtree_sum FileCount m d) as HwC.
  { intros d. apply wrap64_id.
    pose proof (subtree_sum_bounds m FileCount HnnC d). unfold in_int64. lia. }
  intros q s Hs. pose proof (Hres q) as Hq. rewrite Hs in Hq.
  destruct (m !! q) as [s0|] eqn:Hs0; [|done]. subst s. simpl.
  rewrite HwT, HwC. split; [|split].
  - intros s1 [= <-]. split.
    + by apply (subtree_sum_own m TotalSize HnnT q).
    + by apply (subtree_sum_own m FileCount HnnC q).
  - intros sp Hne Hsp. pose proof (Hres (Dir q)) as Hp. rewrite Hsp in Hp.
    destruct (m !! Dir q) as [sp0|] eqn:Hsp0; [|done]. subst sp. simpl.
    rewrite HwT, HwC.
    assert (contributes m q) as Hc by (split; [done|by eexists]).
    split.
    + apply (subtree_sum_parent m TotalSize Hwf HnnT q); [by eexists|done].
    + apply (subtree_sum_parent m FileCount Hwf HnnC q); [by eexists|done].
  - split.
    + apply (subtree_sum_bounds m TotalSize HnnT q).
    + apply (subtree_sum_bounds m FileCount HnnC q).
Qed.

Lemma cumulative_monotone_witness :
  exists m',
    aggregateStats_with (gosort.sort_desc len (map_to_list Scenario.stats).*1)
      Scenario.stats = Some m' /\
    forall q s, m' !! q = Some s ->
      (forall s0, Scenario.stats !! q = Some s0 ->
         TotalSize s0 <= TotalSize s /\ FileCount s0 <= FileCount s) /\
      (forall sp, Dir q <> q -> m' !! Dir q = Some sp ->
         TotalSize s <= TotalSize sp /\ FileCount s <= FileCount sp) /\
      TotalSize s <= total_of TotalSize Scenario.stats /\
      FileCount s <= total_of FileCount Scenario.stats.
Proof.
  apply (cumulative_monotone Scenario.stats).
  - exact scenario_stats_wf.
  - apply nonneg_check_sound. vm_compute. reflexivity.
  - vm_compute. reflexivity.
  - vm_compute. reflexivity.
  - apply aggregateStats_runs.
Defined.

(** ** The tables *)

(** X13: printTable prints for every limit and every list whose sizes are
    int64 values: no index leaves the list or the unit letters, a negative
    limit prints no row, and each row shows the path of its entry cut to
    at most 80 bytes. *)
Theorem printTable_rows_total topN l isSize :
  Forall (fun s => in_int64 (TotalSize s)) l ->
  exists rows, printTable_rows topN l isSize = Some rows /\
    rows.*2 = (fun s => displayPath (Path s)) <$> take (Z.to_nat topN) l /\
    Forall (fun row : cell * string => len row.2 <= 80) rows.
Proof.
  intros Hl. unfold printTable_rows. rewrite printTable_all.
  assert (Forall (fun s => in_int64 (TotalSize s)) (take (Z.to_nat topN) l))
    as Htake.
  { rewrite Forall_forall in *. intros s Hs. apply Hl.
    by apply (subseteq_take (Z.to_nat topN) l). }
  destruct (mapM_table_row isSize _ Htake) as (rows & Hrows & Hpaths & Hlen).
  exists rows. split; [exact Hrows|]. by split.
Qed.

Lemma printTable_rows_total_witness :
  exists rows,
    printTable_rows (-3)
      [mkDirStat "/a" (2 ^ 63 - 1) 1 0; mkDirStat "/b" 2048 2 0] true
    = Some rows /\
    rows.*2 = (fun s => displayPath (Path s))
              <$> take (Z.to_nat (-3))
                    [mkDirStat "/a" (2 ^ 63 - 1) 1 0; mkDirStat "/b" 2048 2 0] /\
    Forall (fun row : cell * string => len row.2 <= 80) rows.
Proof.
  apply (printTable_rows_total (-3)
           [mkDirStat "/a" (2 ^ 63 - 1) 1 0; mkDirStat "/b" 2048 2 0] true).
  repeat constructor; vm_compute; discriminate.
Defined.

(** X14: the rows of a table are the largest entries.  For any outcome of
    sort.Slice with the descending comparison, the rows that printTable
    prints are a prefix of the sorted list, in descending order, and no
    entry left out has a larger key than a row printed. *)
Theorem printTable_shows_largest (key : DirStat -> Z) topN input sorted rows :
  gosort.Slice_desc key input sorted ->
  printTable topN sorted = Some rows ->
  exists rest,
    sorted = rows ++ rest /\ Permutation input (rows ++ rest) /\
    gosort.sorted_desc key rows = true /\
    forall r s, r ∈ rows -> s ∈ rest -> key s <= key r.
Proof.
  intros [Hperm Hsorted]. rewrite printTable_all. intros [= <-].
  exists (drop (Z.to_nat topN) sorted).
  rewrite take_drop. split; [done|]. split; [exact Hperm|]. split.
  - by apply sorted_desc_take.
  - intros r s Hr Hs. by apply (sorted_desc_split key (Z.to_nat topN) sorted).
Qed.

Lemma printTable_shows_largest_witness :
  exists rest,
    gosort.sort_desc TotalSize
      [mkDirStat "/a" 3 1 0; mkDirStat "/b" 9 2 0; mkDirStat "/c" 5 0 0]
    = [mkDirStat "/b" 9 2 0; mkDirStat "/c" 5 0 0] ++ rest /\
    Permutation
      [mkDirStat "/a" 3 1 0; mkDirStat "/b" 9 2 0; mkDirStat "/c" 5 0 0]
      ([mkDirStat "/b" 9 2 0; mkDirStat "/c" 5 0 0] ++ rest) /\
    gosort.sorted_desc TotalSize [mkDirStat "/b" 9 2 0; mkDirStat "/c" 5 0 0]
    = true /\
    forall r s, r ∈ [mkDirStat "/b" 9 2 0; mkDirStat "/c" 5 0 0] ->
                s ∈ rest -> TotalSize s <= TotalSize r.
Proof.
  apply (printTable_shows_largest TotalSize 2
           [mkDirStat "/a" 3 1 0; mkDirStat "/b" 9 2 0; mkDirStat "/c" 5 0 0]).
  - apply sort_desc_Slice.
  - vm_compute. reflexivity.
Defined.

(** X15: the path column.  A path of at most 80 bytes is shown as it is;
    a longer one is shown as three dots and its last 77 bytes, 80 bytes in
    all. *)
Theorem displayPath_keeps_tail p :
  len (displayPath p) <= 80 /\
  (len p <= 80 -> displayPath p = p) /\
  (80 < len p ->
   exists pre tail, p = pre +:+ tail /\ len tail = 77 /\
     displayPath p = "..." +:+ tail /\ len (displayPath p) = 80).
Proof.
  split; [apply displayPath_length|]. unfold displayPath, len. split.
  - intros H. destruct (Z.ltb_spec 80 (Z.of_nat (String.length p))); [lia|done].
  - intros H. destruct (Z.ltb_spec 80 (Z.of_nat (String.length p))); [|lia].
    destruct (slice_from_suffix (String.length p - 77) p) as (pre & Hpre & Heq);
      [lia|].
    exists pre, (slice_from (String.length p - 77) p).
    rewrite length_sapp, length_slice_from. simpl.
    repeat split; [exact Heq|lia|lia].
Qed.

Lemma displayPath_keeps_tail_witness :
  len (displayPath "/home/user/projects/analysis/data/2025/archive/very/long/directory/name/that/keeps/going/on/and/on")
  <= 80 /\
  exists pre tail,
    "/home/user/projects/analysis/data/2025/archive/very/long/directory/name/that/keeps/going/on/and/on"
    = pre +:+ tail /\ len tail = 77 /\
    displayPath "/home/user/projects/analysis/data/2025/archive/very/long/directory/name/that/keeps/going/on/and/on"
    = "..." +:+ tail /\
    len (displayPath "/home/user/projects/analysis/data/2025/archive/very/long/directory/name/that/keeps/going/on/and/on")
    = 80.
Proof.
  destruct (displayPath_keeps_tail "/home/user/projects/analysis/data/2025/archive/very/long/directory/name/that/keeps/going/on/and/on")
    as (Hlen & _ & Hlong).
  split; [exact Hlen|]. apply Hlong. vm_compute. reflexivity.
Defined.

(** X16: formatBytes.  A value below 1024 (a negative one too) is printed
    as a plain number of bytes; any other int64 value b is divided by the
    power 1024^(k+1) with 1024^(k+1) <= b < 1024^(k+2), and the letter is
    the k-th of "KMGTPE": the index never leaves the string and the
    divisor never overflows. *)
Theorem formatBytes_unit b :
  in_int64 b ->
  (b < 1024 -> formatBytes b = Some (PlainBytes b)) /\
  (1024 <= b ->
   exists k c, 0 <= k <= 5 /\
     formatBytes b = Some (Scaled b (1024 ^ (k + 1)) c) /\
     String.get (Z.to_nat k) "KMGTPE" = Some c /\
     1024 ^ (k + 1) <= b < 1024 ^ (k + 2)).
Proof.
  intros [Hlo Hhi]. split.
  - intros Hlt. unfold formatBytes, unit.
    destruct (Z.ltb_spec b 1024); [done|lia].
  - intros Hge. apply formatBytes_scaled. lia.
Qed.

Lemma formatBytes_unit_witness :
  (5 * 1024 * 1024 < 1024 ->
   formatBytes (5 * 1024 * 1024) = Some (PlainBytes (5 * 1024 * 1024))) /\
  (1024 <= 5 * 1024 * 1024 ->
   exists k c, 0 <= k <= 5 /\
     formatBytes (5 * 1024 * 1024)
     = Some (Scaled (5 * 1024 * 1024) (1024 ^ (k + 1)) c) /\
     String.get (Z.to_nat k) "KMGTPE" = Some c /\
     1024 ^ (k + 1) <= 5 * 1024 * 1024 < 1024 ^ (k + 2)).
Proof.
  apply (formatBytes_unit (5 * 1024 * 1024)).
  split; vm_compute; [discriminate|reflexivity].
Defined.

(** X17: a run of main on a valid tree never stops on a nil dereference
    or an index out of range: it prints two tables of the same number of
    rows, at most topN, the first in descending order of size and the
    second in descending order of file count. *)
Theorem main_prints_sorted_tables cfg fs paths :
  valid_tree fs = true -> cwd_rooted cfg ->
  exists rows1 rows2,
    main cfg fs paths = Some (rows1, rows2) /\
    gosort.sorted_desc TotalSize rows1 = true /\
    gosort.sorted_desc FileCount rows2 = true /\
    length rows1 = length rows2 /\
    Z.of_nat (length rows1) <= Z.max 0 (topN cfg).
Proof.
  intros Hfs Hcwd. unfold main.
  pose proof (scan_roots_wf cfg fs (removeSubdirectories (cwd cfg) paths)
                Hfs Hcwd) as Hwf.
  destruct (scan_roots cfg fs (removeSubdirectories (cwd cfg) paths))
    as [[m out] total]. simpl in Hwf.
  destruct (aggregate_order_result m _ Hwf (aggregateStats_runs m))
    as (m' & Hrun & _).
  unfold aggregateStats, aggregateStats_with. rewrite Hrun. simpl.
  rewrite !printTable_all. simpl.
  set (sel := select_stats _ _ _).
  do 2 eexists. split; [reflexivity|].
  split; [apply sorted_desc_take, sort_desc_sorted|].
  split; [apply sorted_desc_take, sort_desc_sorted|].
  rewrite !length_take.
  rewrite <- (Permutation_length (sort_desc_perm FileCount
                                    (gosort.sort_desc TotalSize sel))).
  split; [done|]. lia.
Qed.

Lemma main_prints_sorted_tables_witness :
  exists rows1 rows2,
    main default_config Scenario.tree ["/root"] = Some (rows1, rows2) /\
    gosort.sorted_desc TotalSize rows1 = true /\
    gosort.sorted_desc FileCount rows2 = true /\
    length rows1 = length rows2 /\
    Z.of_nat (length rows1) <= Z.max 0 (topN default_config).
Proof.
  apply (main_prints_sorted_tables default_config Scenario.tree ["/root"]).
  - reflexivity.
  - intros wd H. injection H as <-. reflexivity.
Defined.

(** ** The arguments *)

(** X18: "--path" takes every argument after it up to the next one that
    starts with two dashes, in order; an argument such as "-h" is taken
    as a path, not as the help option. *)
Theorem parseArgs_path_takes_until_option vs rest fl :
  Forall (fun a => HasPrefix a "--" = false) vs ->
  rest = [] \/ (exists a r, rest = a :: r /\ HasPrefix a "--" = true) ->
  parse_loop ("--path" :: vs ++ rest) fl = parse_loop rest (foldl add_path fl vs)
  /\ fl_targetPaths (foldl add_path fl vs) = fl_targetPaths fl ++ vs.
Proof.
  intros Hvs Hrest. split.
  - revert fl. induction vs as [|v vs IH]; intros fl.
    + simpl app. destruct Hrest as [->|(a & r & -> & Ha)]; [done|].
      by rewrite parse_loop_path_cons, Ha.
    + inversion Hvs as [|? ? Hv Hvs']; subst.
      change ((v :: vs) ++ rest) with (v :: (vs ++ rest)).
      rewrite parse_loop_path_cons, Hv. by apply IH.
  - clear Hvs Hrest. revert fl. induction vs as [|v vs IH]; intros fl; simpl.
    + by rewrite app_nil_r.
    + rewrite IH. simpl. by rewrite <- app_assoc.
Qed.

Lemma parseArgs_path_takes_until_option_witness :
  parse_loop ("--path" :: ["/a"; "-h"; "b"] ++ ["--top"; "5"]) initial_flags
  = parse_loop ["--top"; "5"] (foldl add_path initial_flags ["/a"; "-h"; "b"])
  /\ fl_targetPaths (foldl add_path initial_flags ["/a"; "-h"; "b"])
     = fl_targetPaths initial_flags ++ ["/a"; "-h"; "b"].
Proof.
  apply (parseArgs_path_takes_until_option ["/a"; "-h"; "b"] ["--top"; "5"]
           initial_flags).
  - repeat constructor.
  - right. exists "--top", ["5"]. split; reflexivity.
Defined.

(** X19: when parseArgs returns, there is at least one target path; every
    target path is an argument that does not start with two dashes, or the
    default "."; and the depth limit and the row limit are int64 values
    (of either sign). *)
Theorem parseArgs_result args fl :
  parseArgs args = Parsed fl ->
  fl_targetPaths fl <> [] /\
  Forall (fun p => p = "." \/ (p ∈ args /\ HasPrefix p "--" = false))
    (fl_targetPaths fl) /\
  in_int64 (fl_maxDepth fl) /\ in_int64 (fl_topN fl).
Proof.
  unfold parseArgs. destruct (parse_loop args initial_flags) as [fl0|] eqn:E;
    [|done].
  assert (Forall (fun p => p = "." \/ (p ∈ args /\ HasPrefix p "--" = false))
            (fl_targetPaths fl0) /\
          in_int64 (fl_maxDepth fl0) /\ in_int64 (fl_topN fl0)) as (H1 & H2 & H3).
  { apply (parse_loop_inv (fun p => p ∈ args)
             (fun fl => Forall (fun p => p = "." \/
                                  (p ∈ args /\ HasPrefix p "--" = false))
                          (fl_targetPaths fl) /\
                        in_int64 (fl_maxDepth fl) /\ in_int64 (fl_topN fl)))
      with (args := args) (fl := initial_flags); try done.
    - intros f p Hp Hpre (Ha & Hb & Hc). simpl. split; [|done].
      apply Forall_app. split; [done|]. constructor; [by right|done].
    - intros f s v Hv (Ha & Hb & Hc). simpl. split; [done|].
      split; [by eapply Atoi_in_int64|done].
    - intros f s v Hv (Ha & Hb & Hc). simpl. split; [done|].
      split; [done|by eapply Atoi_in_int64].
    - by apply Forall_forall. }
  destruct (fl_targetPaths fl0) as [|p ps] eqn:Ep; intros [= <-]; simpl.
  - rewrite Ep. simpl. split; [done|]. split; [|done].
    constructor; [by left|constructor].
  - rewrite Ep. done.
Qed.

Lemma parseArgs_result_witness :
  fl_targetPaths (mkFlags ["/var"; "-x"] (-5) 20 true false) <> [] /\
  Forall (fun p => p = "." \/
            (p ∈ ["--verbose"; "--path"; "/var"; "-x"; "--maxdepth"; "-5"] /\
             HasPrefix p "--" = false))
    (fl_targetPaths (mkFlags ["/var"; "-x"] (-5) 20 true false)) /\
  in_int64 (fl_maxDepth (mkFlags ["/var"; "-x"] (-5) 20 true false)) /\
  in_int64 (fl_topN (mkFlags ["/var"; "-x"] (-5) 20 true false)).
Proof.
  apply (parseArgs_result
           ["--verbose"; "--path"; "/var"; "-x"; "--maxdepth"; "-5"]).
  vm_compute. reflexivity.
Defined.

(** ** The diagnostics *)

(** X20: the scan loop of main, run on the roots that removeSubdirectories
    returns, prints nothing but access warnings, and those only with
    --verbose: the roots always resolve, and the walk never returns an
    error. *)
Theorem scan_prints_only_warnings cfg fs paths d :
  cwd_rooted cfg ->
  d ∈ (scan_roots cfg fs (removeSubdirectories (cwd cfg) paths)).1.2 ->
  verbose cfg = true /\ exists path, d = WarnAccess path.
Proof.
  intros Hcwd.
  pose proof (removeSubdirectories_clean (cwd cfg) paths Hcwd) as Hroots.
  revert Hroots. generalize (removeSubdirectories (cwd cfg) paths).
  intros roots Hroots. unfold scan_roots.
  set (Q := fun d => verbose cfg = true /\ exists path, d = WarnAccess path).
  assert (forall d, d ∈ (∅ : gmap string DirStat, [] : list diagnostic, 0).1.2
                    -> Q d) as Hacc.
  { intros d0 Hd0. by apply elem_of_nil in Hd0. }
  revert Hacc d. generalize (∅ : gmap string DirStat, [] : list diagnostic, 0).
  induction Hroots as [|root roots Hroot Hroots IH]; intros acc Hacc d Hd.
  - by apply Hacc.
  - simpl in Hd. apply (IH (scan_step cfg fs acc root)); [|exact Hd].
    clear d Hd. destruct acc as [[m out] total]. simpl in Hacc.
    unfold scan_step. rewrite Abs_fixed by done.
    pose proof (scanDirectory_preserves
                  (fun st => forall d, d ∈ printed st -> Q d)
                  cfg fs root m out) as H.
    simpl in H.
    destruct (scanDirectory cfg fs root m out) as [[m' out'] n]. simpl in *.
    apply H; try done.
    intros path st Hst d Hd. unfold warn_access in Hd.
    destruct (verbose cfg) eqn:Ev; [|by apply Hst].
    simpl in Hd. apply elem_of_app in Hd as [Hd|Hd]; [by apply Hst|].
    apply list_elem_of_singleton in Hd as ->. split; [done|by eexists].
Qed.

Lemma scan_prints_only_warnings_witness :
  verbose (mkConfig (make_excludeMap excludePaths) 1000000 20 true (Some "/"))
  = true /\
  exists path, WarnAccess "/locked" = WarnAccess path.
Proof.
  apply (scan_prints_only_warnings
           (mkConfig (make_excludeMap excludePaths) 1000000 20 true (Some "/"))
           (Directory "/" false [Directory "locked" true []]) ["locked"]).
  - intros wd H. injection H as <-. reflexivity.
  - vm_compute. constructor.
Defined.

(** ** The exclusion list *)

(** X21: the map that main builds from excludePaths marks exactly the
    paths listed: the test of the walk is an exact match of the whole
    path, so a path below a listed one is not itself excluded (the walk
    skips it only by pruning the listed ancestor). *)
Theorem excludeMap_marks_listed_paths cfg paths p :
  excludeMap cfg = make_excludeMap paths ->
  excluded cfg p = true <-> p ∈ paths.
Proof.
  intros Hm. unfold excluded. rewrite Hm. clear Hm. unfold make_excludeMap.
  assert (forall m : gmap string bool,
            default false (foldl (fun m p => <[p := true]> m) m paths !! p)
            = true
            <-> default false (m !! p) = true \/ p ∈ paths) as H.
  { induction paths as [|q paths IH]; intros m; simpl.
    - split; [by left|]. intros [H|H]; [done|by apply elem_of_nil in H].
    - rewrite IH. destruct (decide (p = q)) as [->|Hne].
      + rewrite lookup_insert_eq. simpl. split; [right; by left|by left].
      + rewrite lookup_insert_ne by done. split.
        * intros [H|H]; [by left|right; by right].
        * intros [H|H]; [by left|].
          apply elem_of_cons in H as [H|H]; [done|by right]. }
  rewrite H, lookup_empty. simpl. split; [|by right].
  intros [H'|H']; [discriminate H'|exact H'].
Qed.

Lemma excludeMap_marks_listed_paths_witness :
  (excluded default_config "/proc" = true <-> "/proc" ∈ excludePaths) /\
  (excluded default_config "/proc/1" = true <-> "/proc/1" ∈ excludePaths).
Proof.
  split.
  - apply (excludeMap_marks_listed_paths default_config excludePaths "/proc").
    reflexivity.
  - apply (excludeMap_marks_listed_paths default_config excludePaths "/proc/1").
    reflexivity.
Defined.

(* ===================================================================== *)
(** * The collection and the files visited                                *)
(* ===================================================================== *)

Module VisitFacts.
Import ScanInvariants CountFacts ClosedFacts.



















End VisitFacts.

Module UnderFacts.
Import RootFacts ClosedFacts.






End UnderFacts.

Import VisitFacts UnderFacts.

(* ===================================================================== *)
(** * Conservation                                                        *)
(* ===================================================================== *)



